(** * State-tree enumeration for 0/1 Knapsack and Target Sum Ways

    A shallow embedding of the three Python programs
      - [01knapsack.py]          (DFS recursion tree of 0/1 Knapsack),
      - [01knapsackdp.py]        (DP table of 0/1 Knapsack and its graph),
      - [FindTargetSumWays.py]   (DFS recursion tree of Target Sum Ways),
    and the properties of their enumeration cores.

    Python values are modelled as follows: [int] is [Z]; a [str] that the
    programs build (a label, an identifier: ASCII text made of literals and
    of the decimal notation of integers) is a [string], one [ascii] per
    character; a [str] that the user types is the list of its Unicode code
    points; a [list] is a [list]; a [dict] is a [gmap]; a [set] is a [gset];
    the closures [dfs] and [get_node_id], which mutate variables of the
    enclosing call, pass the value of those variables explicitly.  An
    exception is a result of its own: every function that can raise returns
    a [result].  The limits of the interpreter on a run (depth of recursion,
    memory, the length of the decimal notation of an integer that is turned
    into text) are not modelled: the [fuel] of a recursive function only
    makes its recursion structural, and every run is given enough of it.
    The limit on the digits of a text that [int] reads is modelled. *)

From Stdlib Require Import ZArith Lia Ascii String.
From stdpp Require Import base numbers list list_numbers strings pretty gmap.

#[local] Set Warnings "-clear-no-such-hyp".
Local Open Scope Z_scope.

(** ** Python primitives *)

Module Py.

(** The exceptions the programs can meet. *)
Inductive exn : Set := IndexError | ValueError.

(** The outcome of a call: a value, a raised exception, or [OutOfFuel] when
    the recursion budget of the model (not of Python) is used up. *)
Inductive result (A : Type) : Type :=
| Ok (a : A)
| Raise (e : exn)
| OutOfFuel.
Global Arguments Ok {A} a.
Global Arguments Raise {A} e.
Global Arguments OutOfFuel {A}.

Definition bind {A B} (f : A → result B) (m : result A) : result B :=
  match m with
  | Ok a => f a
  | Raise e => Raise e
  | OutOfFuel => OutOfFuel
  end.

Global Instance result_ret : MRet result := @Ok.
Global Instance result_bind : MBind result := @bind.

(** A component of a returned tuple: [f <$> m] is [m] with [f] applied
    to the value returned. *)
Global Instance result_fmap : FMap result := λ A B f m,
  match m with
  | Ok a => Ok (f a)
  | Raise e => Raise e
  | OutOfFuel => OutOfFuel
  end.

(** [for x in l: body], the loop state passed from one turn to the next. *)
Fixpoint for_each {A S} (l : list A) (body : A → S → result S) (s : S)
  : result S :=
  match l with
  | [] => Ok s
  | x :: l' => s' ← body x s; for_each l' body s'
  end.

(** [len(l)]. *)
Definition len {A} (l : list A) : Z := Z.of_nat (length l).

(** A list index: negative indices count from the end, an index out of
    range raises [IndexError]. *)
Definition index {A} (l : list A) (k : Z) : result nat :=
  let k' := if bool_decide (k < 0) then k + len l else k in
  if bool_decide (0 ≤ k' < len l) then Ok (Z.to_nat k') else Raise IndexError.

(** [l[k]]. *)
Definition getitem {A} (l : list A) (k : Z) : result A :=
  j ← index l k;
  match l !! j with
  | Some x => Ok x
  | None => Raise IndexError
  end.

(** [l[k] = x]. *)
Definition setitem {A} (l : list A) (k : Z) (x : A) : result (list A) :=
  j ← index l k; Ok (<[j := x]> l).

(** [[x] * n]: the empty list when [n <= 0]. *)
Definition repeat_list {A} (x : A) (n : Z) : list A := replicate (Z.to_nat n) x.

(** [range(stop)] and [range(start, stop)]. *)
Definition range (stop : Z) : list Z := seqZ 0 stop.
Definition range_from (start stop : Z) : list Z := seqZ start (stop - start).

(** [s.split(sep)] on a string of the programs, for a one-character
    separator: the maximal pieces without the separator, [[""]] for the
    empty string. *)
Fixpoint split (sep : ascii) (s : string) : list string :=
  match s with
  | EmptyString => [EmptyString]
  | String c s' =>
      if bool_decide (c = sep) then EmptyString :: split sep s'
      else match split sep s' with
           | t :: ts => String c t :: ts
           | [] => [String c EmptyString]
           end
  end.

End Py.

Import Py.

(** ** The text of the input fields

    A text field holds any [str], a sequence of Unicode code points.  What
    [str.strip], [str.split] and [int] do with one is what CPython 3.11
    does, whose character tables are those of Unicode 14.0. *)

Module Text.

(** A [str], by its code points. *)
Definition text : Type := list N.

(** The text of an ASCII literal. *)
Fixpoint of_string (s : string) : text :=
  match s with
  | EmptyString => []
  | String c s' => N_of_ascii c :: of_string s'
  end.

Definition comma : N := 0x2C.
Definition plus : N := 0x2B.
Definition minus : N := 0x2D.
Definition underscore : N := 0x5F.

(** [str.isspace] on one character, which is the white space that
    [str.strip] removes: TAB, LF, VT, FF, CR, the separators FS, GS, RS and
    US, the space, NEL, the no-break space, the Ogham space mark, the spaces
    U+2000 to U+200A, the line and the paragraph separators, the narrow
    no-break space, the medium mathematical space and the ideographic
    space. *)
Definition isspace (c : N) : bool :=
  ((0x09 <=? c) && (c <=? 0x0D) || (0x1C <=? c) && (c <=? 0x20)
   || (c =? 0x85) || (c =? 0xA0) || (c =? 0x1680)
   || (0x2000 <=? c) && (c <=? 0x200A) || (c =? 0x2028) || (c =? 0x2029)
   || (c =? 0x202F) || (c =? 0x205F) || (c =? 0x3000))%N.

Definition is_empty (s : text) : bool :=
  match s with [] => true | _ :: _ => false end.

Fixpoint lstrip (s : text) : text :=
  match s with
  | [] => []
  | c :: s' => if isspace c then lstrip s' else s
  end.

Fixpoint rstrip (s : text) : text :=
  match s with
  | [] => []
  | c :: s' =>
      let r := rstrip s' in
      if isspace c && is_empty r then [] else c :: r
  end.

(** [s.strip()]. *)
Definition strip (s : text) : text := rstrip (lstrip s).

(** [s.split(sep)] for a one-character separator: the maximal pieces
    without the separator, [[""]] for the empty text. *)
Fixpoint split (sep : N) (s : text) : list text :=
  match s with
  | [] => [[]]
  | c :: s' =>
      if (c =? sep)%N then [] :: split sep s'
      else match split sep s' with
           | t :: ts => (c :: t) :: ts
           | [] => [[c]]
           end
  end.

(** The digits zero of the decimal digits of Unicode 14.0: the digits of
    a script are ten consecutive code points, zero first. *)
Definition decimal_zeros : list N :=
  [ 0x0030; 0x0660; 0x06F0; 0x07C0; 0x0966; 0x09E6; 0x0A66; 0x0AE6; 0x0B66;
    0x0BE6; 0x0C66; 0x0CE6; 0x0D66; 0x0DE6; 0x0E50; 0x0ED0; 0x0F20; 0x1040;
    0x1090; 0x17E0; 0x1810; 0x1946; 0x19D0; 0x1A80; 0x1A90; 0x1B50; 0x1BB0;
    0x1C40; 0x1C50; 0xA620; 0xA8D0; 0xA900; 0xA9D0; 0xA9F0; 0xAA50; 0xABF0;
    0xFF10; 0x104A0; 0x10D30; 0x11066; 0x110F0; 0x11136; 0x111D0; 0x112F0;
    0x11450; 0x114D0; 0x11650; 0x116C0; 0x11730; 0x118E0; 0x11950; 0x11C50;
    0x11D50; 0x11DA0; 0x16A60; 0x16AC0; 0x16B50; 0x1D7CE; 0x1D7D8; 0x1D7E2;
    0x1D7EC; 0x1D7F6; 0x1E140; 0x1E2F0; 0x1E950; 0x1FBF0 ]%N.

Fixpoint decimal_from (zeros : list N) (c : N) : option Z :=
  match zeros with
  | [] => None
  | z :: zeros' =>
      if ((z <=? c) && (c <? z + 10))%N then Some (Z.of_N (c - z))
      else decimal_from zeros' c
  end.

(** The value of a decimal digit of any script, as [int] reads it. *)
Definition decimal (c : N) : option Z := decimal_from decimal_zeros c.

(** The white space that [int] skips around a number: that of
    [str.isspace] but for the four separators FS, GS, RS and US. *)
Definition int_space (c : N) : bool :=
  (isspace c && negb ((0x1C <=? c) && (c <=? 0x1F)))%N.

Fixpoint skip_space (s : text) : text :=
  match s with
  | [] => []
  | c :: s' => if int_space c then skip_space s' else s
  end.

(** The digits of a number as [int] scans them, up to the first character
    that is neither a digit nor an underscore: the value read, the number of
    its digits and the text left.  One underscore is allowed between two
    digits, nowhere else. *)
Fixpoint int_digits (acc : Z) (digits : N) (after_digit : bool) (s : text)
  : option (Z * N * text) :=
  match s with
  | [] => if after_digit then Some (acc, digits, []) else None
  | c :: s' =>
      match decimal c with
      | Some d => int_digits (10 * acc + d) (digits + 1) true s'
      | None =>
          if (c =? underscore)%N then
            if after_digit then int_digits acc digits false s' else None
          else if after_digit then Some (acc, digits, s) else None
      end
  end.

(** [sys.get_int_max_str_digits()], which the programs leave as it is. *)
Definition int_max_str_digits : N := 4300.

(** [int(s)] in base ten: white space, one sign at most, the digits, white
    space.  Anything else raises [ValueError], and so do more digits than
    [int_max_str_digits]. *)
Definition int (s : text) : result Z :=
  let number (sign : Z) (t : text) :=
    match int_digits 0 0 false t with
    | Some (z, digits, rest) =>
        if (digits <=? int_max_str_digits)%N && forallb int_space rest
        then Ok (sign * z) else Raise ValueError
    | None => Raise ValueError
    end in
  match skip_space s with
  | [] => Raise ValueError
  | c :: t =>
      if (c =? plus)%N then number 1 t
      else if (c =? minus)%N then number (-1) t
      else number 1 (c :: t)
  end.

(** [[int(x.strip()) for x in s.split(",") if x.strip()]]: the pieces
    that are empty once stripped are filtered out before [int] is called. *)
Fixpoint ints_of_tokens (ts : list text) : result (list Z) :=
  match ts with
  | [] => Ok []
  | x :: ts' =>
      if is_empty (strip x) then ints_of_tokens ts'
      else z ← int (strip x); zs ← ints_of_tokens ts'; Ok (z :: zs)
  end.

Definition parse_int_list (s : text) : result (list Z) :=
  ints_of_tokens (split comma s).

End Text.

(** ** The part of [networkx.DiGraph] the programs use

    A directed graph keeps one attribute dictionary per node and one per
    ordered pair of nodes: there are no parallel edges, and adding an edge
    that is already there updates its attributes. *)

Module Nx.
Section digraph.
Context {K : Type} `{Countable K}.

Record DiGraph : Type := mkDiGraph {
  nodes : gmap K (gmap string string);
  edges : gmap (K * K) (gmap string string)
}.

Definition empty : DiGraph := {| nodes := ∅; edges := ∅ |}.

(** [G.add_node(n, key=val)]. *)
Definition add_node (n : K) (key val : string) (G : DiGraph) : DiGraph :=
  {| nodes := <[n := <[key := val]> (default ∅ (nodes G !! n))]> (nodes G);
     edges := edges G |}.

Definition touch (n : K) (ns : gmap K (gmap string string))
  : gmap K (gmap string string) :=
  match ns !! n with
  | Some _ => ns
  | None => <[n := ∅]> ns
  end.

(** [G.add_edge(u, v, label=val)]: both ends become nodes if they are
    not yet, and the attribute is written into the dictionary of the
    pair [(u, v)], over a former value. *)
Definition add_edge (u v : K) (val : string) (G : DiGraph) : DiGraph :=
  {| nodes := touch v (touch u (nodes G));
     edges := <[(u, v) := <["label" := val]> (default ∅ (edges G !! (u, v)))]>
                (edges G) |}.

(** [G.edges[u, v]["label"]], if there is such an edge and it has a
    label. *)
Definition edge_label (G : DiGraph) (u v : K) : option string :=
  edges G !! (u, v) ≫= λ attrs, attrs !! "label".

(** The graph has an edge from [u] to [v] whose label is [val]. *)
Definition has_edge (G : DiGraph) (u v : K) (val : string) : Prop :=
  edge_label G u v = Some val.

(** The edges that arrive at [v], and their labels. *)
Definition in_edges (G : DiGraph) (v : K) : list (K * K) :=
  filter (λ e, e.2 = v) (map fst (map_to_list (edges G))).

Definition labels_into (G : DiGraph) (v : K) : list string :=
  omap (λ e, edge_label G e.1 e.2) (in_edges G v).
End digraph.
Global Arguments DiGraph K {_ _}.
End Nx.

(** ** The identities of visited nodes (both DFS programs)

    The two [dfs] closures share their first four steps word for word, up
    to the format of the base label: count the visit of the label, build the
    identifier, append it to the trace and record the parent. *)

Module Visit.

Record state : Type := mkState {
  trace : list string;
  parent_map : gmap string (string * string);
  node_counter : gmap string Z
}.

Definition init : state :=
  {| trace := []; parent_map := ∅; node_counter := ∅ |}.

(** [node_counter[base_label]] after
    [if base_label not in node_counter: node_counter[base_label] = 0]
    and [node_counter[base_label] += 1]. *)
Definition next_count (base_label : string) (st : state) : Z :=
  default 0 (node_counter st !! base_label) + 1.

(** [f"{base_label}_{node_counter[base_label]}"]. *)
Definition node_id (base_label : string) (count : Z) : string :=
  base_label +:+ "_" +:+ pretty count.

Definition visit (base_label : string) (parent_id : option string)
    (edge_label : string) (st : state) : string * state :=
  let count := next_count base_label st in
  let unique_node_id := node_id base_label count in
  (unique_node_id,
   {| trace := trace st ++ [unique_node_id];
      parent_map :=
        match parent_id with
        | Some p => <[unique_node_id := (p, edge_label)]> (parent_map st)
        | None => parent_map st
        end;
      node_counter := <[base_label := count]> (node_counter st) |}).

End Visit.

(** ** [01knapsack.py] *)

Module Knapsack.
Import Visit.

(** [f"dp({i},{w},{v})"]. *)
Definition base_label (i w v : Z) : string :=
  "dp(" +:+ pretty i +:+ "," +:+ pretty w +:+ "," +:+ pretty v +:+ ")".

Section run.
Variables weight value : list Z.

(** The closure [dfs] of [run_knapsack_dfs].  [fuel] bounds the depth
    of the recursion. *)
Fixpoint dfs (fuel : nat) (i w v : Z) (parent_id : option string)
    (edge_label : string) (st : state) : result state :=
  match fuel with
  | O => OutOfFuel
  | S fuel =>
      let '(unique_node_id, st) :=
        visit (base_label i w v) parent_id edge_label st in
      if bool_decide (i >= len weight) then Ok st
      else
        st ← dfs fuel (i + 1) w v (Some unique_node_id)
               ("Skip item " +:+ pretty i) st;
        wi ← getitem weight i;
        if bool_decide (w >= wi) then
          wi ← getitem weight i;
          vi ← getitem value i;
          dfs fuel (i + 1) (w - wi) (v + vi) (Some unique_node_id)
            ("Pick item " +:+ pretty i) st
        else Ok st
  end.

(** [run_knapsack_dfs]: the trace and the parent map.  The recursion is
    one call deeper than there are items. *)
Definition run_knapsack_dfs (W : Z) : result (list string * gmap string (string * string)) :=
  st ← dfs (S (length weight)) 0 W 0 None "" init;
  Ok (trace st, parent_map st).
End run.

(** [node_id.split("_")[0]]. *)
Definition display_label (node_id : string) : result string :=
  getitem (split "_" node_id) 0.

(** The order in which [parent_map.items()] is walked does not show in
    the result, a child being a key once: the loop is a fold of the map. *)
Definition add_edges (parent_map : gmap string (string * string))
    (G : Nx.DiGraph string) : Nx.DiGraph string :=
  map_fold (λ child_id '(parent_id, edge_label) G,
              Nx.add_edge parent_id child_id edge_label G) G parent_map.

Definition create_tree_graph_from_trace (trace : list string)
    (parent_map : gmap string (string * string)) : result (Nx.DiGraph string) :=
  G ← for_each trace (λ node_id G,
         base_label ← display_label node_id;
         Ok (Nx.add_node node_id "display_label" base_label G)) Nx.empty;
  Ok (add_edges parent_map G).

End Knapsack.

(** ** [FindTargetSumWays.py] *)

Module TargetSum.
Import Visit.

(** [f"dfs({i}, {cur_sum})"]. *)
Definition base_label (i cur_sum : Z) : string :=
  "dfs(" +:+ pretty i +:+ ", " +:+ pretty cur_sum +:+ ")".

(** The variables of [run_target_sum_dfs] that its closure updates. *)
Record state : Type := mkState {
  visited : Visit.state;
  valid_leaves : list string;
  ways_count : Z
}.

Definition init : state :=
  {| visited := Visit.init; valid_leaves := []; ways_count := 0 |}.

Section run.
Variable nums : list Z.
Variable target : Z.

Fixpoint dfs (fuel : nat) (i cur_sum : Z) (parent_id : option string)
    (edge_label : string) (st : state) : result state :=
  match fuel with
  | O => OutOfFuel
  | S fuel =>
      let '(unique_node_id, vis) :=
        visit (base_label i cur_sum) parent_id edge_label (visited st) in
      if bool_decide (i = len nums) then
        if bool_decide (cur_sum = target) then
          Ok {| visited := vis;
                valid_leaves := valid_leaves st ++ [unique_node_id];
                ways_count := ways_count st + 1 |}
        else
          Ok {| visited := vis;
                valid_leaves := valid_leaves st;
                ways_count := ways_count st |}
      else
        let st := {| visited := vis;
                     valid_leaves := valid_leaves st;
                     ways_count := ways_count st |} in
        x ← getitem nums i;
        y ← getitem nums i;
        st ← dfs fuel (i + 1) (cur_sum + x) (Some unique_node_id)
               ("+" +:+ pretty y) st;
        x ← getitem nums i;
        y ← getitem nums i;
        dfs fuel (i + 1) (cur_sum - x) (Some unique_node_id)
          ("-" +:+ pretty y) st
  end.

Definition run_target_sum_dfs
  : result (list string * gmap string (string * string) * list string * Z) :=
  st ← dfs (S (length nums)) 0 0 None "" init;
  Ok (trace (visited st), parent_map (visited st), valid_leaves st, ways_count st).
End run.

Definition display_label (node_id : string) : result string :=
  getitem (split "_" node_id) 0.

Definition add_edges (parent_map : gmap string (string * string))
    (G : Nx.DiGraph string) : Nx.DiGraph string :=
  map_fold (λ child_id '(parent_id, edge_label) G,
              Nx.add_edge parent_id child_id edge_label G) G parent_map.

(** [quick_parent[c] = p] for every [c, (p, lbl)] of the parent map. *)
Definition quick_parent_of (parent_map : gmap string (string * string))
  : gmap string string := fst <$> parent_map.

(** One goal leaf: [while cur in quick_parent: ...] and the root after the
    loop.  [fuel] bounds the number of tests of the loop condition. *)
Fixpoint walk_up (fuel : nat) (quick_parent : gmap string string)
    (cur : string) (highlighted_nodes : gset string) : result (gset string) :=
  match fuel with
  | O => OutOfFuel
  | S fuel =>
      match quick_parent !! cur with
      | Some p => walk_up fuel quick_parent p ({[cur]} ∪ highlighted_nodes)
      | None => Ok ({[cur]} ∪ highlighted_nodes)
      end
  end.

(** A chain of parents without a repeated node leaves the dictionary after
    at most as many steps as the dictionary has keys, so this budget is
    only used up by a walk that would not end. *)
Definition highlight (parent_map : gmap string (string * string))
    (valid_leaves : list string) : result (gset string) :=
  let quick_parent := quick_parent_of parent_map in
  for_each valid_leaves (walk_up (S (size quick_parent)) quick_parent) ∅.

Definition create_tree_graph_from_trace (trace : list string)
    (parent_map : gmap string (string * string)) (valid_leaves : list string)
  : result (Nx.DiGraph string * gset string) :=
  G ← for_each trace (λ node_id G,
         base_label ← display_label node_id;
         Ok (Nx.add_node node_id "base_label" base_label G)) Nx.empty;
  let G := add_edges parent_map G in
  highlighted_nodes ← highlight parent_map valid_leaves;
  Ok (G, highlighted_nodes).

End TargetSum.

(** ** [01knapsackdp.py] *)

Module KnapsackDP.

(** [dp[i][w]] and [dp[i][w] = x]. *)
Definition get2 (dp : list (list Z)) (i w : Z) : result Z :=
  row ← getitem dp i; getitem row w.

Definition set2 (dp : list (list Z)) (i w x : Z) : result (list (list Z)) :=
  row ← getitem dp i; row ← setitem row w x; setitem dp i row.

Section table.
Variables weight value : list Z.

(** The body of the inner loop of [build_knapsack_dp_table]. *)
Definition fill_cell (i w : Z) (dp : list (list Z)) : result (list (list Z)) :=
  x ← get2 dp (i - 1) w;
  dp ← set2 dp i w x;
  wi ← getitem weight (i - 1);
  if bool_decide (w >= wi) then
    wi ← getitem weight (i - 1);
    y ← get2 dp (i - 1) (w - wi);
    vi ← getitem value (i - 1);
    let pick_val := y + vi in
    cur ← get2 dp i w;
    if bool_decide (pick_val > cur) then set2 dp i w pick_val else Ok dp
  else Ok dp.

Definition build_knapsack_dp_table (W : Z) : result (list (list Z)) :=
  let n := len weight in
  let dp := replicate (Z.to_nat (n + 1)) (repeat_list 0 (W + 1)) in
  for_each (range_from 1 (n + 1)) (λ i dp,
    for_each (range (W + 1)) (λ w dp, fill_cell i w dp) dp) dp.
End table.

(** The variables of [build_dp_graph] that its loops and [get_node_id]
    update. *)
Record state : Type := mkState {
  G : Nx.DiGraph Z;
  node_id_map : gmap (Z * Z) Z;
  node_counter : Z
}.

Definition init : state :=
  {| G := Nx.empty; node_id_map := ∅; node_counter := 0 |}.

Definition get_node_id (i w : Z) (st : state) : Z * state :=
  match node_id_map st !! (i, w) with
  | Some nid => (nid, st)
  | None =>
      (node_counter st,
       {| G := G st;
          node_id_map := <[(i, w) := node_counter st]> (node_id_map st);
          node_counter := node_counter st + 1 |})
  end.

Definition with_graph (f : Nx.DiGraph Z → Nx.DiGraph Z) (st : state) : state :=
  {| G := f (G st); node_id_map := node_id_map st; node_counter := node_counter st |}.

Section graph.
Variable dp : list (list Z).
Variables weight value : list Z.

(** Loop 1: a node for every [dp(i, w)]. *)
Definition add_cell_node (i w : Z) (st : state) : result state :=
  x ← get2 dp i w;
  let node_label := "dp(" +:+ pretty i +:+ "," +:+ pretty w +:+ ")=" +:+ pretty x in
  let '(nid, st) := get_node_id i w st in
  Ok (with_graph (Nx.add_node nid "label" node_label) st).

(** Loop 2: the edges that leave [dp(i, w)]. *)
Definition add_cell_edges (i w : Z) (st : state) : result state :=
  cur_val ← get2 dp i w;
  let '(nid_parent, st) := get_node_id i w st in
  below ← get2 dp (i + 1) w;
  st ← (if bool_decide (below = cur_val) then
          let '(nid_child, st) := get_node_id (i + 1) w st in
          Ok (with_graph (Nx.add_edge nid_parent nid_child
                            ("skip item " +:+ pretty i)) st)
        else Ok st);
  wi ← getitem weight i;
  if bool_decide (w >= wi) then
    wi ← getitem weight i;
    y ← get2 dp i (w - wi);
    vi ← getitem value i;
    let pick_val := y + vi in
    below ← get2 dp (i + 1) w;
    if bool_decide (below = pick_val) then
      let '(nid_child, st) := get_node_id (i + 1) w st in
      Ok (with_graph (Nx.add_edge nid_parent nid_child
                        ("pick item " +:+ pretty i)) st)
    else Ok st
  else Ok st.

Definition build_dp_graph_state : result state :=
  let n := len dp - 1 in
  row0 ← getitem dp 0;
  let W := len row0 - 1 in
  st ← for_each (range (n + 1)) (λ i st,
          for_each (range (W + 1)) (λ w st, add_cell_node i w st) st) init;
  for_each (range n) (λ i st,
    for_each (range (W + 1)) (λ w st, add_cell_edges i w st) st) st.

Definition build_dp_graph : result (Nx.DiGraph Z) :=
  st ← build_dp_graph_state; Ok (G st).
End graph.

End KnapsackDP.

(** ** The three applications

    What the handler of the button does with the text fields up to the call
    of the renderer: the graph handed over, or the error shown instead. *)

Module App.

Inductive outcome (A : Type) : Type :=
| Rendered (a : A)       (* the graph is built and handed to the renderer *)
| InputError             (* "Invalid ... input!", then the run stops      *)
| ValidationError        (* "... must have the same length!", then stop   *)
| Uncaught (e : exn)     (* an exception leaves the handler               *)
| Hung.                  (* the model ran out of its budget               *)
Global Arguments Rendered {A} a.
Global Arguments InputError {A}.
Global Arguments ValidationError {A}.
Global Arguments Uncaught {A} e.
Global Arguments Hung {A}.

Definition of_result {A} (r : result A) : outcome A :=
  match r with
  | Ok a => Rendered a
  | Raise e => Uncaught e
  | OutOfFuel => Hung
  end.

(** The bare [except:] catches whatever the two comprehensions raise. *)
Definition parse_two (a b : Text.text) : option (list Z * list Z) :=
  match Text.parse_int_list a with
  | Ok xs => match Text.parse_int_list b with
             | Ok ys => Some (xs, ys)
             | _ => None
             end
  | _ => None
  end.

(** Steps 1 and 2 of each handler: enumerate, then build the graph. *)
Definition knapsack_graph (weight_list value_list : list Z) (W : Z)
  : result (Nx.DiGraph string) :=
  '(trace, parent_map) ← Knapsack.run_knapsack_dfs weight_list value_list W;
  Knapsack.create_tree_graph_from_trace trace parent_map.

Definition knapsack_dp_state (weight_list value_list : list Z) (W : Z)
  : result KnapsackDP.state :=
  dp ← KnapsackDP.build_knapsack_dp_table weight_list value_list W;
  KnapsackDP.build_dp_graph_state dp weight_list value_list.

Definition knapsack_dp_graph (weight_list value_list : list Z) (W : Z)
  : result (Nx.DiGraph Z) :=
  dp ← KnapsackDP.build_knapsack_dp_table weight_list value_list W;
  KnapsackDP.build_dp_graph dp weight_list value_list.

Definition target_sum_graph (nums_list : list Z) (target : Z)
  : result (Nx.DiGraph string * gset string * Z) :=
  '(trace, parent_map, valid_leaves, ways_count) ←
     TargetSum.run_target_sum_dfs nums_list target;
  '(G, highlighted_nodes) ←
     TargetSum.create_tree_graph_from_trace trace parent_map valid_leaves;
  Ok (G, highlighted_nodes, ways_count).

Definition knapsack (weight_str value_str : Text.text) (W : Z)
  : outcome (Nx.DiGraph string) :=
  match parse_two weight_str value_str with
  | None => InputError
  | Some (weight_list, value_list) =>
      if bool_decide (len weight_list ≠ len value_list) then ValidationError
      else of_result (knapsack_graph weight_list value_list W)
  end.


Definition target_sum (nums_str : Text.text) (target : Z)
  : outcome (Nx.DiGraph string * gset string * Z) :=
  match Text.parse_int_list nums_str with
  | Ok nums_list => of_result (target_sum_graph nums_list target)
  | _ => InputError
  end.

End App.

(** ** What the enumerators are specified to compute *)

Module Spec.

(** The identifiers of a sequence of visits: each base label gets the
    number of its occurrences so far, counted from the counts [seen]. *)
Fixpoint number_visits (seen : gmap string Z) (labels : list string)
  : list string :=
  match labels with
  | [] => []
  | b :: labels' =>
      let c := default 0 (seen !! b) + 1 in
      Visit.node_id b c :: number_visits (<[b := c]> seen) labels'
  end.

Fixpoint count_visits (seen : gmap string Z) (labels : list string)
  : gmap string Z :=
  match labels with
  | [] => seen
  | b :: labels' => count_visits (<[b := default 0 (seen !! b) + 1]> seen) labels'
  end.

(** The states of the Knapsack recursion in pre-order, for the items that
    are left: the state itself, then all of the "skip" child, then all of
    the "pick" child when the capacity left admits the item. *)
Fixpoint knap_calls (items : list (Z * Z)) (i w v : Z) : list (Z * Z * Z) :=
  match items with
  | [] => [(i, w, v)]
  | (wi, vi) :: items' =>
      (i, w, v) :: knap_calls items' (i + 1) w v
        ++ (if bool_decide (w >= wi)
            then knap_calls items' (i + 1) (w - wi) (v + vi) else [])
  end.

Definition knap_label (c : Z * Z * Z) : string :=
  let '(i, w, v) := c in Knapsack.base_label i w v.

(** The states of the Target Sum recursion in pre-order: the state, all
    of the "+" child, all of the "-" child. *)
Fixpoint ts_calls (nums : list Z) (i cur_sum : Z) : list (Z * Z) :=
  match nums with
  | [] => [(i, cur_sum)]
  | x :: nums' =>
      (i, cur_sum) :: ts_calls nums' (i + 1) (cur_sum + x)
        ++ ts_calls nums' (i + 1) (cur_sum - x)
  end.

Definition ts_label (c : Z * Z) : string :=
  let '(i, s) := c in TargetSum.base_label i s.

(** A terminal state of Target Sum whose sum is the target. *)
Definition ts_goal (n target : Z) (c : Z * Z) : Prop :=
  c.1 = n ∧ c.2 = target.

Global Instance ts_goal_dec n target c : Decision (ts_goal n target c).
Proof. unfold ts_goal. apply _. Defined.

(** The identifiers, among those of a sequence of visits, of the visits
    of a goal state. *)
Definition goal_ids (n target : Z) (ids : list string) (calls : list (Z * Z))
  : list string :=
  (filter (λ p, ts_goal n target p.2) (zip ids calls)).*1.

(** All the lists of [n] signs. *)
Fixpoint sign_assignments (n : nat) : list (list Z) :=
  match n with
  | O => [[]]
  | S n' => map (cons 1) (sign_assignments n')
              ++ map (cons (-1)) (sign_assignments n')
  end.

Definition signed_sum (s nums : list Z) : Z :=
  foldr Z.add 0 (zip_with Z.mul s nums).

(** Brute force: the sign assignments whose signed sum is the target. *)
Definition count_ways (nums : list Z) (target : Z) : nat :=
  length (filter (λ s, signed_sum s nums = target)
            (sign_assignments (length nums))).

(** A choice of items, one boolean per item, its weight and its value. *)
Fixpoint total (sel : list bool) (xs : list Z) : Z :=
  match sel, xs with
  | b :: sel', x :: xs' => (if b then x else 0) + total sel' xs'
  | _, _ => 0
  end.

(** [m] is the value of a best choice of items of weight at most [W]. *)
Definition is_optimal (weight value : list Z) (W m : Z) : Prop :=
  (∃ sel, length sel = length weight ∧ total sel weight ≤ W
          ∧ total sel value = m)
  ∧ (∀ sel, length sel = length weight → total sel weight ≤ W
          → total sel value ≤ m).

(** [m] is the greatest element of [l]. *)
Definition is_max_of (l : list Z) (m : Z) : Prop :=
  m ∈ l ∧ ∀ x, x ∈ l → x ≤ m.

(** The accumulated values of the leaves of the Knapsack recursion. *)
Definition knap_leaf_values (n : Z) (calls : list (Z * Z * Z)) : list Z :=
  map (λ c, c.2) (filter (λ c : Z * Z * Z, c.1.1 >= n) calls).

(** The best value by the recurrence, first item first. *)
Fixpoint knap_best (items : list (Z * Z)) (w : Z) : Z :=
  match items with
  | [] => 0
  | (wi, vi) :: items' =>
      if bool_decide (w >= wi)
      then Z.max (knap_best items' w) (knap_best items' (w - wi) + vi)
      else knap_best items' w
  end.

Section paths.
Context {K : Type} `{Countable K}.
Variable G : Nx.DiGraph K.

(** [path u xs v]: [xs] lists the nodes of a directed path of [G] from
    [u] to [v], both ends included. *)
Inductive path : K → list K → K → Prop :=
| path_end u : is_Some (Nx.nodes G !! u) → path u [u] u
| path_step u v lbl xs z :
    Nx.has_edge G u v lbl → path v xs z → path u (u :: xs) z.
End paths.

(** [x] is [y] or one of its ancestors in the parent map. *)
Inductive ancestor (parent_map : gmap string (string * string))
  : string → string → Prop :=
| anc_self x : ancestor parent_map x x
| anc_up x y p lbl :
    parent_map !! y = Some (p, lbl) → ancestor parent_map x p →
    ancestor parent_map x y.

End Spec.

(** ** Predicates of the proofs: inputs, invariants of the runs, tables *)

Module Inv.

(** Every character of the text is white space. *)
Definition all_space (s : Text.text) : bool := forallb Text.isspace s.

(** Every character of the text is a comma or white space. *)
Definition all_comma_or_space (s : Text.text) : bool :=
  forallb (λ c, (c =? Text.comma)%N || Text.isspace c) s.


(** The string has no underscore. *)
Fixpoint no_underscore (s : string) : Prop :=
  match s with
  | EmptyString => True
  | String c s' => c ≠ "_"%char ∧ no_underscore s'
  end.

(** The shape of the trace and of the parent map at any moment of a run:
    no identifier twice; an identifier never exceeds the count of its
    label; a parent comes before its child in the trace; all nodes but
    the first have a parent, the first has none. *)
Record wf (st : Visit.state) : Prop := {
  wf_nodup : NoDup (Visit.trace st);
  wf_ids : ∀ x, x ∈ Visit.trace st →
    ∃ b c, x = Visit.node_id b c
           ∧ c ≤ default 0 (Visit.node_counter st !! b);
  wf_parent : ∀ c p l, Visit.parent_map st !! c = Some (p, l) →
    ∃ i j : nat, Visit.trace st !! i = Some p ∧ Visit.trace st !! j = Some c
                 ∧ (i < j)%nat;
  wf_child : ∀ (j : nat) c, Visit.trace st !! S j = Some c →
    is_Some (Visit.parent_map st !! c);
  wf_root : ∀ r, Visit.trace st !! 0%nat = Some r →
    Visit.parent_map st !! r = None
}.

(** The caller of a visit: nobody for the first visit of a run, a node of
    the trace afterwards. *)
Definition parent_ok (parent_id : option string) (st : Visit.state) : Prop :=
  match parent_id with
  | None => Visit.trace st = []
  | Some p => p ∈ Visit.trace st
  end.

(** The label of a "skip" edge of the DFS enumerator. *)
Definition skip_label (l : string) : Prop :=
  ∃ i : Z, l = "Skip item " +:+ pretty i.

(** The cell [(i, w)] of a table, if there is one. *)
Definition cell (dp : list (list Z)) (i w : Z) : option Z :=
  dp !! Z.to_nat i ≫= λ row, row !! Z.to_nat w.

(** [rows] rows of [cols] cells each. *)
Definition shape (rows cols : nat) (dp : list (list Z)) : Prop :=
  length dp = rows ∧ ∀ k row, dp !! k = Some row → length row = cols.

(** The value the recurrence gives to the cell [(i, w)]: the best over the
    first [i] items, the last of them considered first. *)
Definition tab (weight value : list Z) (i w : Z) : Z :=
  Spec.knap_best (rev (take (Z.to_nat i) (zip weight value))) w.

(** The table while the cell [(i, w)] is next: the rows above [i] are
    filled, and so is row [i] up to [w]. *)
Definition filled (weight value : list Z) (W i w : Z) (dp : list (list Z))
  : Prop :=
  shape (Z.to_nat (len weight + 1)) (Z.to_nat (W + 1)) dp
  ∧ (∀ i' w', 0 ≤ i' < i → 0 ≤ w' ≤ W →
              cell dp i' w' = Some (tab weight value i' w'))
  ∧ (∀ w', 0 ≤ w' < w → cell dp i w' = Some (tab weight value i w')).

(** Where the labels of the edges of the DP graph come from: a "pick" edge
    is the pick of an item whose weight is at most the last column. *)
Definition edge_origin (weight : list Z) (cols : nat) (l : string) : Prop :=
  (∃ i : Z, l = "skip item " +:+ pretty i)
  ∨ (∃ (i wi : Z), l = "pick item " +:+ pretty i
       ∧ 0 ≤ i ∧ weight !! Z.to_nat i = Some wi ∧ wi ≤ Z.of_nat cols - 1).

Definition edges_explained (weight : list Z) (cols : nat)
    (st : KnapsackDP.state) : Prop :=
  ∀ u v l, Nx.has_edge (KnapsackDP.G st) u v l → edge_origin weight cols l.

(** The identifiers given out are below the counter, and no two cells share
    one. *)
Definition ids_fresh (st : KnapsackDP.state) : Prop :=
  ∀ k id, KnapsackDP.node_id_map st !! k = Some id →
          id < KnapsackDP.node_counter st.

Definition ids_inj (st : KnapsackDP.state) : Prop :=
  ∀ k1 k2 id, KnapsackDP.node_id_map st !! k1 = Some id →
              KnapsackDP.node_id_map st !! k2 = Some id → k1 = k2.

(** Every edge goes from the node of a cell to the node of the cell below
    it, in the same column. *)
Definition edges_local (st : KnapsackDP.state) : Prop :=
  ∀ u v, is_Some (Nx.edges (KnapsackDP.G st) !! (u, v)) →
         ∃ i w, KnapsackDP.node_id_map st !! (i, w) = Some u
                ∧ KnapsackDP.node_id_map st !! (i + 1, w) = Some v.

(** The invariant of the loops of [build_dp_graph]. *)
Definition graph_inv (weight : list Z) (cols : nat) (st : KnapsackDP.state)
  : Prop :=
  edges_explained weight cols st ∧ ids_fresh st ∧ ids_inj st ∧ edges_local st.

End Inv.

Import Inv.

(** ** Predicates of the further properties *)

Module Shape.

(** [g] is the tree of a trace and its parent map: the first identifier of
    the trace is the root; the nodes of [g] are the identifiers of the
    trace; every identifier after the first has one incoming edge, which
    comes from its parent, an identifier met before it, and bears the label
    recorded; the root has no incoming edge. *)
Definition is_tree (trace : list string)
    (parent_map : gmap string (string * string))
    (g : Nx.DiGraph string) (root : string) : Prop :=
  trace !! 0%nat = Some root
  ∧ (∀ x, is_Some (Nx.nodes g !! x) ↔ x ∈ trace)
  ∧ (∀ (j : nat) c, trace !! S j = Some c →
       ∃ (i : nat) p l,
         (i ≤ j)%nat ∧ trace !! i = Some p
         ∧ parent_map !! c = Some (p, l)
         ∧ Nx.in_edges g c = [(p, c)]
         ∧ Nx.edge_label g p c = Some l)
  ∧ Nx.in_edges g root = []
  ∧ size (Nx.nodes g) = length trace
  ∧ size (Nx.edges g) = pred (length trace).

(** The identifier [build_dp_graph] gives to the cell [(i, w)] of a table
    of [cols] columns: the cells are numbered row after row. *)
Definition cell_node (cols i w : Z) : Z := i * cols + w.

(** The cell [(i', w')] is met before the cell [(i, w)] by two nested loops
    over the rows and the columns. *)
Definition before (cols i w i' w' : Z) : Prop :=
  0 ≤ i' ∧ 0 ≤ w' < cols ∧ (i' < i ∨ (i' = i ∧ w' < w)).

Global Instance before_dec cols i w i' w' : Decision (before cols i w i' w').
Proof. unfold before. apply _. Defined.

(** [f"dp({i},{w})={dp[i][w]}"]. *)
Definition node_label (i w x : Z) : string :=
  "dp(" +:+ pretty i +:+ "," +:+ pretty w +:+ ")=" +:+ pretty x.

(** The pick test of [build_dp_graph] passes at the cell [(i, w)]. *)
Definition pick_holds (dp : list (list Z)) (weight value : list Z)
    (i w : Z) : Prop :=
  ∃ wi vi y below,
    weight !! Z.to_nat i = Some wi ∧ value !! Z.to_nat i = Some vi
    ∧ w >= wi ∧ cell dp i (w - wi) = Some y
    ∧ cell dp (i + 1) w = Some below ∧ below = y + vi.

(** The skip test of [build_dp_graph] passes at the cell [(i, w)]. *)
Definition skip_holds (dp : list (list Z)) (i w : Z) : Prop :=
  ∃ cur below,
    cell dp i w = Some cur ∧ cell dp (i + 1) w = Some below ∧ below = cur.

(** The label left on the edge out of the cell [(i, w)]: that of the pick
    when its test passes, else that of the skip when its test passes. *)
Definition edge_of (dp : list (list Z)) (weight value : list Z)
    (i w : Z) (l : string) : Prop :=
  (pick_holds dp weight value i w ∧ l = "pick item " +:+ pretty i)
  ∨ (¬ pick_holds dp weight value i w ∧ skip_holds dp i w
     ∧ l = "skip item " +:+ pretty i).

(** The state of [build_dp_graph] while its first loop is at the cell
    [(i, w)]: the cells before it have their nodes, numbered in the order
    of the loop and labelled with their entries, and there is no edge. *)
Definition nodes_done (dp : list (list Z)) (cols i w : Z)
    (st : KnapsackDP.state) : Prop :=
  KnapsackDP.node_counter st = cell_node cols i w
  ∧ (∀ i' w', KnapsackDP.node_id_map st !! (i', w')
              = if decide (before cols i w i' w')
                then Some (cell_node cols i' w') else None)
  ∧ Nx.edges (KnapsackDP.G st) = ∅
  ∧ (∀ id attrs,
       Nx.nodes (KnapsackDP.G st) !! id = Some attrs
       ↔ ∃ i' w' x, before cols i w i' w' ∧ id = cell_node cols i' w'
                    ∧ cell dp i' w' = Some x
                    ∧ attrs = {["label" := node_label i' w' x]}).

(** The state of [build_dp_graph] while its second loop is at the cell
    [(i, w)], [st1] being the state the first loop left: the nodes and their
    identifiers are those of [st1]; every edge leaves a cell met before
    [(i, w)] for the cell below it; and such a cell has that edge if one of
    the two tests passes at it, with the label [edge_of] tells. *)
Definition edges_done (dp : list (list Z)) (weight value : list Z)
    (cols : Z) (st1 : KnapsackDP.state) (i w : Z) (st : KnapsackDP.state)
  : Prop :=
  KnapsackDP.node_id_map st = KnapsackDP.node_id_map st1
  ∧ KnapsackDP.node_counter st = KnapsackDP.node_counter st1
  ∧ Nx.nodes (KnapsackDP.G st) = Nx.nodes (KnapsackDP.G st1)
  ∧ (∀ u v, is_Some (Nx.edges (KnapsackDP.G st) !! (u, v)) →
       ∃ i' w', before cols i w i' w' ∧ u = cell_node cols i' w'
                ∧ v = cell_node cols (i' + 1) w')
  ∧ (∀ i' w' attrs, before cols i w i' w' →
       Nx.edges (KnapsackDP.G st)
         !! (cell_node cols i' w', cell_node cols (i' + 1) w') = Some attrs
       ↔ ∃ l, edge_of dp weight value i' w' l ∧ attrs = {["label" := l]}).

(** The choices of items the Knapsack recursion reaches, one boolean per
    item left, in the order of the recursion: the item is skipped, or it is
    picked when the capacity left is enough for it. *)
Fixpoint fitting (items : list (Z * Z)) (w : Z) : list (list bool) :=
  match items with
  | [] => [[]]
  | (wi, vi) :: items' =>
      map (cons false) (fitting items' w)
      ++ (if bool_decide (w >= wi)
          then map (cons true) (fitting items' (w - wi)) else [])
  end.

(** The states of a list of calls whose index has passed the last item. *)
Definition leaves (n : Z) (calls : list (Z * Z * Z)) : list (Z * Z * Z) :=
  filter (λ c : Z * Z * Z, c.1.1 >= n) calls.

(** The edge from [p] to [c] with the label [l] is a step of the Knapsack
    recursion: [p] is an identifier of a state [(i, w, v)], and either the
    label is "Skip item i" and [c] is an identifier of [(i+1, w, v)], or the
    label is "Pick item i", the weight of item [i] is at most [w], and [c]
    is an identifier of [(i+1, w - weight[i], v + value[i])]. *)
Definition knapsack_step (weight value : list Z) (p l c : string) : Prop :=
  ∃ i w v cp cc,
    p = Visit.node_id (Knapsack.base_label i w v) cp
    ∧ ((l = "Skip item " +:+ pretty i
        ∧ c = Visit.node_id (Knapsack.base_label (i + 1) w v) cc)
       ∨ (∃ wi vi,
            getitem weight i = Ok wi ∧ getitem value i = Ok vi ∧ w >= wi
            ∧ l = "Pick item " +:+ pretty i
            ∧ c = Visit.node_id
                    (Knapsack.base_label (i + 1) (w - wi) (v + vi)) cc)).

(** The edge from [p] to [c] with the label [l] is a step of the Target
    Sum recursion: [p] is an identifier of a state [(i, s)], and either the
    label is "+x" and [c] is an identifier of [(i+1, s + x)], or the label
    is "-x" and [c] is an identifier of [(i+1, s - x)], [x] being
    [nums[i]]. *)
Definition target_sum_step (nums : list Z) (p l c : string) : Prop :=
  ∃ i s x cp cc,
    p = Visit.node_id (TargetSum.base_label i s) cp
    ∧ getitem nums i = Ok x
    ∧ ((l = "+" +:+ pretty x
        ∧ c = Visit.node_id (TargetSum.base_label (i + 1) (s + x)) cc)
       ∨ (l = "-" +:+ pretty x
          ∧ c = Visit.node_id (TargetSum.base_label (i + 1) (s - x)) cc)).

(** No node of the parent map is its own parent or an ancestor of its
    parent: the chains of parents do not loop. *)
Definition acyclic (parent_map : gmap string (string * string)) : Prop :=
  ∀ x p l, parent_map !! x = Some (p, l) → ¬ Spec.ancestor parent_map x p.

(** The character [c] does not occur in the string. *)
Fixpoint avoids (c : ascii) (s : string) : Prop :=
  match s with
  | EmptyString => True
  | String c' s' => c' ≠ c ∧ avoids c s'
  end.

(** The character is one of the ten digits. *)
Definition is_digit (c : ascii) : bool :=
  let n := nat_of_ascii c in ((48 <=? n) && (n <=? 57))%nat.

(** What a call that only reads and writes lists can end with: a value
    or [IndexError]. *)
Definition index_error_only {A} (r : result A) : Prop :=
  (∃ a, r = Ok a) ∨ r = Raise IndexError.

End Shape.

(** * Properties *)

(** ** The result monad and the loops *)

Section result_facts.
Context {A B : Type}.

Lemma bind_Ok (f : A → result B) (m : result A) (b : B) :
  (m ≫= f) = Ok b ↔ ∃ a, m = Ok a ∧ f a = Ok b.
Proof.
  destruct m as [a| |]; simpl.
  - split; [eauto|]. by intros (? & [= <-] & ?).
  - split; [done|]. by intros (? & ? & ?).
  - split; [done|]. by intros (? & ? & ?).
Qed.
End result_facts.

Section loops.
Context {A S : Type}.
Implicit Types (l : list A) (body : A → S → result S).

Lemma for_each_cons x l body s :
  for_each (x :: l) body s = (body x s ≫= for_each l body).
Proof. done. Qed.

(** A loop whose body keeps an invariant, and returns under it, returns
    and keeps it. *)
Lemma for_each_inv (P : S → Prop) l body s :
  P s →
  (∀ x s, x ∈ l → P s → ∃ s', body x s = Ok s' ∧ P s') →
  ∃ s', for_each l body s = Ok s' ∧ P s'.
Proof.
  revert s. induction l as [|x l IH]; intros s Hs Hbody; simpl; [eauto|].
  destruct (Hbody x s) as (s' & -> & Hs'); [left|done|]. simpl.
  apply IH; [done|]. intros y t Hy. apply Hbody. by right.
Qed.
End loops.

(** ** Lists and their indices *)

Section getitem_facts.
Context {A : Type}.
Implicit Types (l : list A) (k : Z).

Lemma index_in_range l k :
  0 ≤ k < len l → index l k = Ok (Z.to_nat k).
Proof.
  intros Hk. unfold index. cbv zeta.
  rewrite (bool_decide_eq_false_2 (k < 0)) by lia.
  by rewrite bool_decide_eq_true_2.
Qed.

Lemma getitem_lookup l (j : nat) x :
  l !! j = Some x → getitem l (Z.of_nat j) = Ok x.
Proof.
  intros Hj. unfold getitem.
  rewrite index_in_range.
  - simpl. by rewrite Nat2Z.id, Hj.
  - apply lookup_lt_Some in Hj. unfold len. lia.
Qed.

Lemma getitem_in_range l k :
  0 ≤ k < len l → ∃ x, l !! Z.to_nat k = Some x ∧ getitem l k = Ok x.
Proof.
  intros Hk. destruct (lookup_lt_is_Some_2 l (Z.to_nat k)) as [x Hx].
  { unfold len in Hk. lia. }
  exists x. split; [done|].
  rewrite <-(Z2Nat.id k) by lia. by apply getitem_lookup.
Qed.

Lemma setitem_in_range l k x :
  0 ≤ k < len l → setitem l k x = Ok (<[Z.to_nat k := x]> l).
Proof. intros Hk. unfold setitem. by rewrite index_in_range. Qed.
End getitem_facts.

(** ** Identifiers: the text of a node identifier determines its base label
    and its count *)

Section identifiers.

Lemma pretty_N_go_no_underscore (x : N) (s : string) :
  no_underscore s → no_underscore (pretty_N_go x s).
Proof.
  revert s. induction (N.lt_wf_0 x) as [x _ IH]; intros s Hs.
  destruct (decide (x = 0)%N) as [->|Hx]; [by rewrite pretty_N_go_0|].
  rewrite pretty_N_go_step by lia.
  apply IH; [apply N.div_lt; lia|]. split; [|done].
  unfold pretty_N_char. by repeat case_match.
Qed.

Lemma pretty_N_no_underscore (x : N) : no_underscore (pretty x).
Proof.
  unfold pretty, pretty_N. case_decide; [by split|].
  by apply pretty_N_go_no_underscore.
Qed.

Lemma pretty_Z_no_underscore (z : Z) : no_underscore (pretty z).
Proof.
  destruct z as [|p|p]; [by split|apply pretty_N_no_underscore|].
  split; [done|]. apply pretty_N_no_underscore.
Qed.

Lemma no_underscore_app (s d : string) :
  ¬ no_underscore (s +:+ String "_" d).
Proof. induction s as [|c s IH]; intros [??]; [done|]. by apply IH. Qed.

Lemma app_underscore_inj (b b' d d' : string) :
  no_underscore d → no_underscore d' →
  b +:+ String "_" d = b' +:+ String "_" d' → b = b' ∧ d = d'.
Proof.
  intros Hd Hd'. revert b'.
  induction b as [|c b IH]; intros [|c' b'] Heq.
  - by injection Heq as ->.
  - injection Heq as <- ->. by destruct (no_underscore_app b' d').
  - injection Heq as -> <-. by destruct (no_underscore_app b d).
  - injection Heq as -> Heq. by destruct (IH _ Heq) as [-> ->].
Qed.

Lemma node_id_inj (b b' : string) (c c' : Z) :
  Visit.node_id b c = Visit.node_id b' c' → b = b' ∧ c = c'.
Proof.
  intros Heq. apply app_underscore_inj in Heq as [-> Hc];
    [|apply pretty_Z_no_underscore..].
  split; [done|]. by apply (inj pretty).
Qed.

End identifiers.

(** ** The invariant of a run: identifiers and parents *)

Section visit_facts.
Import Visit.

Lemma wf_init : wf init.
Proof.
  split; simpl.
  - constructor.
  - intros x Hx. by apply elem_of_nil in Hx.
  - intros c p l Hc. by rewrite lookup_empty in Hc.
  - by intros j c Hc.
  - by intros r Hr.
Qed.

Lemma visit_trace b parent l st :
  trace (visit b parent l st).2 = trace st ++ [(visit b parent l st).1].
Proof. done. Qed.

Lemma visit_id b parent l st :
  (visit b parent l st).1 = node_id b (next_count b st).
Proof. done. Qed.

(** The counter of the visited label goes up by one, the others stay. *)
Lemma visit_counter b parent l st b' :
  default 0 (node_counter (visit b parent l st).2 !! b')
  = if decide (b = b') then default 0 (node_counter st !! b') + 1
    else default 0 (node_counter st !! b').
Proof.
  simpl. rewrite lookup_insert. unfold next_count.
  destruct (decide (b = b')) as [->|]; done.
Qed.

Lemma visit_fresh b parent l st :
  wf st → (visit b parent l st).1 ∉ trace st.
Proof.
  intros Hwf Hin. rewrite visit_id in Hin.
  destruct (wf_ids _ Hwf _ Hin) as (b' & c' & Heq & Hle).
  apply node_id_inj in Heq as [<- <-].
  unfold next_count in Hle. lia.
Qed.

Lemma visit_wf b parent l st :
  wf st → parent_ok parent st → wf (visit b parent l st).2.
Proof.
  intros Hwf Hp.
  pose proof (visit_fresh b parent l st Hwf) as Hfresh.
  set (u := (visit b parent l st).1) in *.
  assert (Hmap : ∀ c, c ≠ u →
    parent_map (visit b parent l st).2 !! c = parent_map st !! c).
  { intros c Hc. simpl. destruct parent; [|done].
    by rewrite lookup_insert_ne. }
  split.
  - rewrite visit_trace. apply NoDup_app. split; [apply Hwf|]. split.
    + intros x Hx ->%list_elem_of_singleton. done.
    + apply NoDup_singleton.
  - intros x. rewrite visit_trace, elem_of_app, list_elem_of_singleton.
    intros [Hx| ->].
    + destruct (wf_ids _ Hwf _ Hx) as (b' & c' & -> & Hle).
      exists b', c'. split; [done|]. rewrite visit_counter.
      case_decide; lia.
    + exists b, (next_count b st). split; [done|].
      rewrite visit_counter, decide_True by done. unfold next_count. lia.
  - intros c p' l' Hc. rewrite visit_trace.
    destruct (decide (c = u)) as [->|Hne].
    + simpl in Hc. destruct parent as [p|]; simpl in Hp.
      * rewrite lookup_insert_eq in Hc. injection Hc as <- <-.
        apply list_elem_of_lookup in Hp as [i Hi].
        exists i, (length (trace st)). split_and!.
        -- by apply lookup_app_l_Some.
        -- rewrite lookup_app_r, Nat.sub_diag by done. done.
        -- by apply lookup_lt_Some in Hi.
      * destruct (wf_parent _ Hwf _ _ _ Hc) as (? & j & _ & Hj & _).
        rewrite Hp in Hj. by rewrite lookup_nil in Hj.
    + rewrite Hmap in Hc by done.
      destruct (wf_parent _ Hwf _ _ _ Hc) as (i & j & Hi & Hj & Hij).
      exists i, j. split_and!; [by apply lookup_app_l_Some..|done].
  - intros j c. rewrite visit_trace. intros Hj.
    apply lookup_app_Some in Hj as [Hj|[Hlen Hj]].
    + destruct (decide (c = u)) as [->|Hne].
      * destruct Hfresh. apply list_elem_of_lookup. eauto.
      * rewrite Hmap by done. by eapply wf_child.
    + apply list_lookup_singleton_Some in Hj as [Hidx <-].
      destruct parent as [p|]; simpl in *.
      * rewrite lookup_insert_eq. eauto.
      * rewrite Hp in Hidx. simpl in Hidx. lia.
  - intros r. rewrite visit_trace. intros Hr.
    apply lookup_app_Some in Hr as [Hr|[Hlen Hr]].
    + rewrite Hmap; [by eapply wf_root|].
      intros ->. destruct Hfresh. apply list_elem_of_lookup. eauto.
    + apply list_lookup_singleton_Some in Hr as [_ <-].
      assert (trace st = []) as Hnil.
      { destruct (trace st); [done|]. simpl in Hlen. lia. }
      destruct parent as [p|]; simpl in Hp.
      * rewrite Hnil in Hp. by apply elem_of_nil in Hp.
      * simpl. destruct (parent_map st !! u) as [[p' l']|] eqn:Hu; [|done].
        destruct (wf_parent _ Hwf _ _ _ Hu) as (? & j & _ & Hj & _).
        rewrite Hnil in Hj. by rewrite lookup_nil in Hj.
Qed.

Lemma visit_in_trace b parent l st :
  (visit b parent l st).1 ∈ trace (visit b parent l st).2.
Proof. rewrite visit_trace. set_solver. Qed.

End visit_facts.

(** ** The trace is the numbering of the calls in pre-order *)

Section numbering.
Import Spec Visit.

Lemma number_visits_app seen l1 l2 :
  number_visits seen (l1 ++ l2)
  = number_visits seen l1 ++ number_visits (count_visits seen l1) l2.
Proof.
  revert seen. induction l1 as [|b l1 IH]; intros seen; simpl; [done|].
  by rewrite IH.
Qed.

Lemma count_visits_app seen l1 l2 :
  count_visits seen (l1 ++ l2) = count_visits (count_visits seen l1) l2.
Proof.
  revert seen. induction l1 as [|b l1 IH]; intros seen; simpl; [done|].
  by rewrite IH.
Qed.

Lemma length_number_visits seen l :
  length (number_visits seen l) = length l.
Proof.
  revert seen. induction l as [|b l IH]; intros seen; simpl; [done|].
  by rewrite IH.
Qed.

Lemma visit_numbering b parent l st :
  trace (visit b parent l st).2
    = trace st ++ number_visits (node_counter st) [b]
  ∧ node_counter (visit b parent l st).2 = count_visits (node_counter st) [b].
Proof. done. Qed.

Lemma goal_ids_app n target ids1 ids2 calls1 calls2 :
  length ids1 = length calls1 →
  goal_ids n target (ids1 ++ ids2) (calls1 ++ calls2)
  = goal_ids n target ids1 calls1 ++ goal_ids n target ids2 calls2.
Proof.
  intros Hlen. unfold goal_ids.
  rewrite zip_with_app by done. by rewrite filter_app, fmap_app.
Qed.

Lemma length_goal_ids n target ids calls :
  length ids = length calls →
  length (goal_ids n target ids calls)
  = length (filter (ts_goal n target) calls).
Proof.
  unfold goal_ids. rewrite length_fmap.
  revert calls. induction ids as [|x ids IH]; intros [|c calls] Hlen;
    simplify_eq/=; [done|].
  rewrite !filter_cons. simpl.
  destruct (decide (ts_goal n target c)); simpl; by rewrite IH.
Qed.

End numbering.

Section knapsack_calls.
Import Spec Visit Knapsack.
Variables weight value : list Z.
Hypothesis same_length : length weight = length value.

Lemma knapsack_item (pre items : list (Z * Z)) wi vi :
  zip weight value = pre ++ (wi, vi) :: items →
  getitem weight (len pre) = Ok wi ∧ getitem value (len pre) = Ok vi
  ∧ len pre < len weight.
Proof.
  intros Hzip.
  assert (zip weight value !! length pre = Some (wi, vi)) as Hk.
  { by rewrite Hzip, list_lookup_middle. }
  apply lookup_zip_with_Some in Hk as (x & y & [= <- <-] & Hx & Hy).
  split_and!; [by apply getitem_lookup..|].
  apply lookup_lt_Some in Hx. unfold len. lia.
Qed.

Lemma knapsack_no_item (pre : list (Z * Z)) :
  zip weight value = pre → len pre = len weight.
Proof.
  intros <-. unfold len. rewrite length_zip_with. lia.
Qed.

(** A call of [dfs] with enough budget returns, and appends to the trace
    the identifiers of the calls below it in pre-order. *)
Lemma dfs_calls (items pre : list (Z * Z)) (fuel : nat) (w v : Z)
    (parent_id : option string) (edge_label : string) (st : state) :
  zip weight value = pre ++ items →
  (length items < fuel)%nat →
  ∃ st',
    dfs weight value fuel (len pre) w v parent_id edge_label st = Ok st'
    ∧ trace st' = trace st
        ++ number_visits (node_counter st)
             (map knap_label (knap_calls items (len pre) w v))
    ∧ node_counter st' = count_visits (node_counter st)
             (map knap_label (knap_calls items (len pre) w v)).
Proof.
  revert pre fuel w v parent_id edge_label st.
  induction items as [|[wi vi] items IH];
    intros pre [|fuel] w v parent_id edge_label st Hzip Hfuel;
    simpl in Hfuel; try lia.
  - rewrite app_nil_r in Hzip. apply knapsack_no_item in Hzip.
    simpl. rewrite bool_decide_eq_true_2 by lia. eauto.
  - destruct (knapsack_item _ _ _ _ Hzip) as (Hwi & Hvi & Hlt).
    assert (len (pre ++ [(wi, vi)]) = len pre + 1) as Hlen.
    { unfold len. rewrite length_app. simpl. lia. }
    assert (zip weight value = (pre ++ [(wi, vi)]) ++ items) as Hzip'.
    { by rewrite <-app_assoc. }
    cbn [dfs knap_calls].
    destruct (visit (base_label (len pre) w v) parent_id edge_label st)
      as [u st1] eqn:Hvisit.
    rewrite bool_decide_eq_false_2 by lia.
    destruct (IH (pre ++ [(wi, vi)]) fuel w v (Some u)
                ("Skip item " +:+ pretty (len pre)) st1 Hzip')
      as (st2 & Hdfs2 & Htr2 & Hcnt2); [lia|].
    rewrite Hlen in Hdfs2, Htr2, Hcnt2. rewrite Hdfs2. simpl.
    rewrite Hwi. simpl.
    assert (trace st1 = trace st ++ number_visits (node_counter st) [base_label (len pre) w v]
            ∧ node_counter st1 = count_visits (node_counter st) [base_label (len pre) w v])
      as [Htr1 Hcnt1].
    { pose proof (visit_numbering (base_label (len pre) w v) parent_id edge_label st) as Hv.
      by rewrite Hvisit in Hv. }
    simpl in Htr1, Hcnt1. simpl.
    rewrite map_app, !number_visits_app, !count_visits_app.
    rewrite <-Hcnt1, <-Hcnt2.
    case_bool_decide.
    + rewrite Hvi. simpl.
      destruct (IH (pre ++ [(wi, vi)]) fuel (w - wi) (v + vi) (Some u)
                  ("Pick item " +:+ pretty (len pre)) st2 Hzip')
        as (st3 & Hdfs3 & Htr3 & Hcnt3); [lia|].
      rewrite Hlen in Hdfs3, Htr3, Hcnt3. rewrite Hdfs3.
      exists st3. split; [done|]. rewrite Htr3, Htr2, Htr1, Hcnt3.
      by rewrite <-!app_assoc.
    + exists st2. split; [done|]. simpl. rewrite Htr2, Htr1.
      by rewrite app_nil_r, <-!app_assoc.
Qed.

End knapsack_calls.

Section target_sum_calls.
Import Spec Visit TargetSum.
Variable nums : list Z.
Variable target : Z.

Lemma goal_ids_cons_no n id ids c calls :
  ¬ ts_goal n target c →
  goal_ids n target (id :: ids) (c :: calls) = goal_ids n target ids calls.
Proof.
  intros Hc. unfold goal_ids. simpl. by rewrite filter_cons_False.
Qed.

Lemma goal_ids_cons_yes n id ids c calls :
  ts_goal n target c →
  goal_ids n target (id :: ids) (c :: calls)
  = id :: goal_ids n target ids calls.
Proof.
  intros Hc. unfold goal_ids. simpl. by rewrite filter_cons_True.
Qed.

(** A call of [dfs] returns (the budget allowing) and appends the
    identifiers of the calls below it to the trace, those of the goal
    states among them to the goal leaves, and counts the latter. *)
Lemma ts_dfs_calls (rest pre : list Z) (fuel : nat) (cur : Z)
    (parent_id : option string) (edge_label : string) (st : state) :
  nums = pre ++ rest →
  (length rest < fuel)%nat →
  ∃ st',
    dfs nums target fuel (len pre) cur parent_id edge_label st = Ok st'
    ∧ trace (visited st') = trace (visited st)
        ++ number_visits (node_counter (visited st))
             (map ts_label (ts_calls rest (len pre) cur))
    ∧ node_counter (visited st') = count_visits (node_counter (visited st))
             (map ts_label (ts_calls rest (len pre) cur))
    ∧ valid_leaves st' = valid_leaves st
        ++ goal_ids (len nums) target
             (number_visits (node_counter (visited st))
                (map ts_label (ts_calls rest (len pre) cur)))
             (ts_calls rest (len pre) cur)
    ∧ ways_count st' = ways_count st
        + Z.of_nat (length (filter (ts_goal (len nums) target)
                              (ts_calls rest (len pre) cur))).
Proof.
  revert pre fuel cur parent_id edge_label st.
  induction rest as [|x rest IH];
    intros pre [|fuel] cur parent_id edge_label st Hnums Hfuel;
    simpl in Hfuel; try lia.
  - rewrite app_nil_r in Hnums. subst pre. simpl.
    rewrite bool_decide_eq_true_2 by done.
    case_bool_decide as Hcur.
    + eexists. split; [done|]. simpl. split_and!; try done.
      * by rewrite goal_ids_cons_yes.
      * by rewrite filter_cons_True.
    + eexists. split; [done|]. simpl. split_and!; try done.
      * rewrite goal_ids_cons_no by (intros [??]; done).
        by rewrite app_nil_r.
      * rewrite filter_cons_False by (intros [??]; done). simpl. lia.
  - assert (getitem nums (len pre) = Ok x) as Hx.
    { apply getitem_lookup. by rewrite Hnums, list_lookup_middle. }
    assert (len pre ≠ len nums) as Hlt.
    { rewrite Hnums. unfold len. rewrite length_app. simpl. lia. }
    assert (len (pre ++ [x]) = len pre + 1) as Hlen.
    { unfold len. rewrite length_app. simpl. lia. }
    assert (nums = (pre ++ [x]) ++ rest) as Hnums'.
    { by rewrite <-app_assoc. }
    cbn [dfs ts_calls].
    destruct (visit (base_label (len pre) cur) parent_id edge_label (visited st))
      as [u vis] eqn:Hvisit.
    rewrite bool_decide_eq_false_2 by done.
    rewrite Hx. simpl.
    pose proof (visit_numbering (base_label (len pre) cur) parent_id
                  edge_label (visited st)) as [Htr1 Hcnt1].
    rewrite Hvisit in Htr1, Hcnt1. simpl in Htr1, Hcnt1.
    set (st1 := {| visited := vis; valid_leaves := valid_leaves st;
                   ways_count := ways_count st |}).
    destruct (IH (pre ++ [x]) fuel (cur + x) (Some u) ("+" +:+ pretty x) st1
                Hnums') as (st2 & Hdfs2 & Htr2 & Hcnt2 & Hvl2 & Hwc2); [lia|].
    rewrite Hlen in Hdfs2, Htr2, Hcnt2, Hvl2, Hwc2. rewrite Hdfs2. simpl.
    destruct (IH (pre ++ [x]) fuel (cur - x) (Some u) ("-" +:+ pretty x) st2
                Hnums') as (st3 & Hdfs3 & Htr3 & Hcnt3 & Hvl3 & Hwc3); [lia|].
    rewrite Hlen in Hdfs3, Htr3, Hcnt3, Hvl3, Hwc3. rewrite Hdfs3.
    exists st3. split; [done|]. simpl in Htr2, Hcnt2, Hvl2, Hwc2.
    rewrite map_app, !number_visits_app, !count_visits_app.
    rewrite <-Hcnt1, <-Hcnt2.
    rewrite goal_ids_cons_no by (intros [??]; done).
    rewrite goal_ids_app
      by (by rewrite length_number_visits, length_map).
    rewrite filter_cons_False by (intros [??]; done).
    rewrite filter_app, length_app.
    split_and!.
    + rewrite Htr3, Htr2, Htr1. by rewrite <-!app_assoc.
    + done.
    + rewrite Hvl3, Hvl2. by rewrite <-!app_assoc.
    + rewrite Hwc3, Hwc2. lia.
Qed.

(** The goal states among the calls are as many as the sign assignments
    that reach the target. *)
Lemma count_filter_map {A B} (f : A → B) (P : B → Prop) (Q : A → Prop)
    `{∀ b, Decision (P b)} `{∀ a, Decision (Q a)} (l : list A) :
  (∀ a, P (f a) ↔ Q a) →
  length (filter P (map f l)) = length (filter Q l).
Proof.
  intros HPQ. induction l as [|a l IH]; [done|]. simpl.
  rewrite !filter_cons.
  destruct (decide (P (f a))) as [HP|HP], (decide (Q a)) as [HQ|HQ];
    simpl; rewrite ?IH; try done; by apply HPQ in HP || apply HPQ in HQ.
Qed.

Lemma ts_goals_count (rest : list Z) (i cur : Z) :
  i + len rest = len nums →
  length (filter (ts_goal (len nums) target) (ts_calls rest i cur))
  = length (filter (λ s, cur + signed_sum s rest = target)
              (sign_assignments (length rest))).
Proof.
  revert i cur. induction rest as [|x rest IH]; intros i cur Hi.
  - change (len []) with 0 in Hi.
    simpl. rewrite !filter_cons, !filter_nil.
    unfold signed_sum. simpl.
    destruct (decide (ts_goal _ _ _)) as [[??]|Hn],
             (decide (cur + 0 = target)) as [?|Hm]; simpl in *; try done.
    + lia.
    + destruct Hn. split; simpl; lia.
  - assert (len (x :: rest) = 1 + len rest) as Hlen.
    { unfold len. simpl length. lia. }
    assert (0 ≤ len rest) as Hpos by (unfold len; lia).
    simpl. rewrite filter_cons_False by (intros [??]; simpl in *; lia).
    rewrite !filter_app, !length_app.
    rewrite !IH by lia.
    f_equal; symmetry; apply count_filter_map; intros s;
      unfold signed_sum; simpl; split; lia.
Qed.

End target_sum_calls.

(** ** Every run keeps the invariant *)

Section runs_wf.
Import Visit.

Lemma knapsack_dfs_wf (weight value : list Z) (fuel : nat) (i w v : Z)
    (parent_id : option string) (edge_label : string) (st st' : state) :
  wf st → parent_ok parent_id st →
  Knapsack.dfs weight value fuel i w v parent_id edge_label st = Ok st' →
  wf st' ∧ ∃ new, trace st' = trace st ++ new.
Proof.
  revert i w v parent_id edge_label st st'.
  induction fuel as [|fuel IH];
    intros i w v parent_id edge_label st st' Hwf Hp; [done|].
  cbn [Knapsack.dfs].
  pose proof (visit_wf (Knapsack.base_label i w v) _ edge_label _ Hwf Hp) as Hwf1.
  pose proof (visit_in_trace (Knapsack.base_label i w v) parent_id edge_label st) as Hu.
  pose proof (visit_trace (Knapsack.base_label i w v) parent_id edge_label st) as Htr1.
  destruct (visit (Knapsack.base_label i w v) parent_id edge_label st)
    as [u st1]; simpl in Hwf1, Hu, Htr1.
  case_bool_decide.
  { intros [= <-]. eauto. }
  intros (st2 & Hdfs2 & Hrest)%bind_Ok.
  destruct (IH _ _ _ (Some u) _ _ _ Hwf1 Hu Hdfs2) as (Hwf2 & new2 & Htr2).
  apply bind_Ok in Hrest as (wi & _ & Hrest).
  case_bool_decide.
  - apply bind_Ok in Hrest as (wi' & _ & Hrest).
    apply bind_Ok in Hrest as (vi & _ & Hdfs3).
    assert (parent_ok (Some u) st2) as Hp2.
    { simpl. rewrite Htr2. set_solver. }
    destruct (IH _ _ _ _ _ _ _ Hwf2 Hp2 Hdfs3) as (Hwf3 & new3 & Htr3).
    split; [done|]. exists ([u] ++ new2 ++ new3).
    rewrite Htr3, Htr2, Htr1. by rewrite <-!app_assoc.
  - injection Hrest as <-. split; [done|]. exists ([u] ++ new2).
    rewrite Htr2, Htr1. by rewrite <-!app_assoc.
Qed.

Lemma target_sum_dfs_wf (nums : list Z) (target : Z) (fuel : nat)
    (i cur : Z) (parent_id : option string) (edge_label : string)
    (st st' : TargetSum.state) :
  wf (TargetSum.visited st) → parent_ok parent_id (TargetSum.visited st) →
  (∀ x, x ∈ TargetSum.valid_leaves st → x ∈ trace (TargetSum.visited st)) →
  TargetSum.dfs nums target fuel i cur parent_id edge_label st = Ok st' →
  wf (TargetSum.visited st')
  ∧ (∃ new, trace (TargetSum.visited st')
            = trace (TargetSum.visited st) ++ new)
  ∧ (∀ x, x ∈ TargetSum.valid_leaves st' → x ∈ trace (TargetSum.visited st')).
Proof.
  revert i cur parent_id edge_label st st'.
  induction fuel as [|fuel IH];
    intros i cur parent_id edge_label st st' Hwf Hp Hvl; [done|].
  cbn [TargetSum.dfs].
  pose proof (visit_wf (TargetSum.base_label i cur) _ edge_label _ Hwf Hp) as Hwf1.
  pose proof (visit_in_trace (TargetSum.base_label i cur) parent_id edge_label
                (TargetSum.visited st)) as Hu.
  pose proof (visit_trace (TargetSum.base_label i cur) parent_id edge_label
                (TargetSum.visited st)) as Htr1.
  destruct (visit (TargetSum.base_label i cur) parent_id edge_label
              (TargetSum.visited st)) as [u vis]; simpl in Hwf1, Hu, Htr1.
  case_bool_decide.
  { case_bool_decide; intros [= <-]; simpl; (split; [done|]);
      (split; [eauto|]); intros x; rewrite Htr1; set_solver. }
  intros (x & _ & Hrest)%bind_Ok.
  apply bind_Ok in Hrest as (y & _ & Hrest).
  apply bind_Ok in Hrest as (st2 & Hdfs2 & Hrest).
  apply bind_Ok in Hrest as (x' & _ & Hrest).
  apply bind_Ok in Hrest as (y' & _ & Hdfs3).
  set (st1 := {| TargetSum.visited := vis;
                 TargetSum.valid_leaves := TargetSum.valid_leaves st;
                 TargetSum.ways_count := TargetSum.ways_count st |}) in *.
  assert (∀ z, z ∈ TargetSum.valid_leaves st1
               → z ∈ trace (TargetSum.visited st1)) as Hvl1.
  { simpl. intros z Hz. rewrite Htr1. set_solver. }
  destruct (IH _ _ (Some u) _ st1 _ Hwf1 Hu Hvl1 Hdfs2)
    as (Hwf2 & (new2 & Htr2) & Hvl2).
  assert (parent_ok (Some u) (TargetSum.visited st2)) as Hp2.
  { simpl. rewrite Htr2. simpl. set_solver. }
  destruct (IH _ _ _ _ _ _ Hwf2 Hp2 Hvl2 Hdfs3)
    as (Hwf3 & (new3 & Htr3) & Hvl3).
  split; [done|]. split; [|done]. exists ([u] ++ new2 ++ new3).
  rewrite Htr3, Htr2. simpl. rewrite Htr1. by rewrite <-!app_assoc.
Qed.

End runs_wf.

(** ** The runs as a whole *)

Section runs.
Import Spec Visit.

Lemma run_knapsack_dfs_calls (weight value : list Z) (W : Z) :
  length weight = length value →
  ∃ st,
    Knapsack.dfs weight value (S (length weight)) 0 W 0 None "" init = Ok st
    ∧ Knapsack.run_knapsack_dfs weight value W = Ok (trace st, parent_map st)
    ∧ trace st = number_visits ∅
        (map knap_label (knap_calls (zip weight value) 0 W 0)).
Proof.
  intros Hlen.
  destruct (dfs_calls weight value Hlen (zip weight value) [] (S (length weight))
              W 0 None "" init eq_refl) as (st & Hdfs & Htr & _).
  { rewrite length_zip_with. lia. }
  exists st. split; [done|]. split; [|done].
  unfold Knapsack.run_knapsack_dfs.
  change (len []) with 0 in Hdfs. by rewrite Hdfs.
Qed.

Lemma run_target_sum_dfs_calls (nums : list Z) (target : Z) :
  ∃ st,
    TargetSum.dfs nums target (S (length nums)) 0 0 None "" TargetSum.init
      = Ok st
    ∧ TargetSum.run_target_sum_dfs nums target
      = Ok (trace (TargetSum.visited st), parent_map (TargetSum.visited st),
            TargetSum.valid_leaves st, TargetSum.ways_count st)
    ∧ trace (TargetSum.visited st)
      = number_visits ∅ (map ts_label (ts_calls nums 0 0))
    ∧ TargetSum.valid_leaves st
      = goal_ids (len nums) target (trace (TargetSum.visited st))
          (ts_calls nums 0 0)
    ∧ TargetSum.ways_count st = Z.of_nat (count_ways nums target).
Proof.
  destruct (ts_dfs_calls nums target nums [] (S (length nums)) 0 None ""
              TargetSum.init eq_refl)
    as (st & Hdfs & Htr & _ & Hvl & Hwc); [lia|].
  change (len []) with 0 in *. simpl in Htr, Hvl, Hwc.
  exists st. split; [done|]. split_and!.
  - unfold TargetSum.run_target_sum_dfs. by rewrite Hdfs.
  - done.
  - by rewrite Htr.
  - rewrite Hwc, Z.add_0_l. f_equal. unfold count_ways.
    rewrite (ts_goals_count nums target nums 0 0) by lia.
    rewrite <-(map_id (sign_assignments (length nums))) at 1.
    apply count_filter_map. intros s. simpl. split; lia.
Qed.

End runs.

(** C3: the DFS enumerators visit the states in a fixed pre-order.  For
    validated input (the two lists of the Knapsack have the same length) the
    trace of the Knapsack run lists, with their occurrence numbers, the
    calls of [Spec.knap_calls]: the state, then the calls of the "skip"
    child, then those of the "pick" child when the capacity left is at least
    the weight of the item, and the state alone once the index has passed
    the last item.  The trace of the Target Sum run lists the calls of
    [Spec.ts_calls]: the state, the calls of the "+" child, then those of the
    "-" child, and the state alone at the end of the list. *)
Theorem dfs_visits_in_preorder (weight value nums : list Z) (W target : Z) :
  length weight = length value →
  fst <$> Knapsack.run_knapsack_dfs weight value W
  = Ok (Spec.number_visits ∅
          (map Spec.knap_label (Spec.knap_calls (zip weight value) 0 W 0)))
  ∧ (λ r, r.1.1.1) <$> TargetSum.run_target_sum_dfs nums target
    = Ok (Spec.number_visits ∅ (map Spec.ts_label (Spec.ts_calls nums 0 0))).
Proof.
  intros Hlen. split.
  - destruct (run_knapsack_dfs_calls weight value W Hlen)
      as (st & _ & Hrun & Htr).
    by rewrite Hrun, <-Htr.
  - destruct (run_target_sum_dfs_calls nums target)
      as (st & _ & Hrun & Htr & _).
    by rewrite Hrun, <-Htr.
Qed.

Lemma dfs_visits_in_preorder_witness :
  fst <$> Knapsack.run_knapsack_dfs [2; 3; 4] [3; 4; 5] 5
  = Ok (Spec.number_visits ∅
          (map Spec.knap_label
             (Spec.knap_calls (zip [2; 3; 4] [3; 4; 5]) 0 5 0)))
  ∧ (λ r, r.1.1.1) <$> TargetSum.run_target_sum_dfs [1; 1; 1] 1
    = Ok (Spec.number_visits ∅
            (map Spec.ts_label (Spec.ts_calls [1; 1; 1] 0 0))).
Proof.
  apply (dfs_visits_in_preorder [2; 3; 4] [3; 4; 5] [1; 1; 1] 5 1).
  reflexivity.
Defined.

(** C7: within a run the occurrence counter of a base label goes up by one
    at each visit of that label (and only then), so no identifier is
    appended to the trace twice, whatever the lists given to either
    enumerator. *)
Theorem node_ids_distinct :
  (∀ b parent_id edge_label st b',
     default 0 (Visit.node_counter (Visit.visit b parent_id edge_label st).2 !! b')
     = if decide (b = b') then default 0 (Visit.node_counter st !! b') + 1
       else default 0 (Visit.node_counter st !! b'))
  ∧ (∀ weight value W trace,
       fst <$> Knapsack.run_knapsack_dfs weight value W = Ok trace →
       NoDup trace)
  ∧ (∀ nums target trace,
       (λ r, r.1.1.1) <$> TargetSum.run_target_sum_dfs nums target = Ok trace →
       NoDup trace).
Proof.
  split; [apply visit_counter|]. split.
  - intros weight value W tr Hrun.
    unfold Knapsack.run_knapsack_dfs in Hrun.
    destruct (Knapsack.dfs _ _ _ _ _ _ _ _ _) as [st| |] eqn:Hdfs;
      [|by simpl in Hrun..].
    simpl in Hrun. injection Hrun as <-.
    apply knapsack_dfs_wf in Hdfs as [Hwf _]; [apply Hwf|apply wf_init|done].
  - intros nums target tr Hrun.
    unfold TargetSum.run_target_sum_dfs in Hrun.
    destruct (TargetSum.dfs _ _ _ _ _ _ _ _) as [st| |] eqn:Hdfs;
      [|by simpl in Hrun..].
    simpl in Hrun. injection Hrun as <-.
    apply target_sum_dfs_wf in Hdfs as [Hwf _];
      [apply Hwf|apply wf_init|done|].
    intros x Hx. by apply elem_of_nil in Hx.
Qed.

Lemma node_ids_distinct_witness :
  NoDup ["dp(0,1,0)_1"; "dp(1,1,0)_1"; "dp(1,0,3)_1"]
  ∧ NoDup ["dfs(0, 0)_1"; "dfs(1, 1)_1"; "dfs(2, 2)_1"; "dfs(2, 0)_1";
           "dfs(1, -1)_1"; "dfs(2, 0)_2"; "dfs(2, -2)_1"].
Proof.
  destruct node_ids_distinct as (_ & Hknap & Hts). split.
  - apply (Hknap [1] [3] 1). vm_compute. reflexivity.
  - apply (Hts [1; 1] 0). vm_compute. reflexivity.
Defined.

(** ** Sign assignments *)

Lemma sign_assignments_spec (n : nat) (s : list Z) :
  s ∈ Spec.sign_assignments n
  ↔ length s = n ∧ Forall (λ x, x = 1 ∨ x = -1) s.
Proof.
  revert s. induction n as [|n IH]; intros s; simpl.
  - rewrite list_elem_of_singleton. split.
    + intros ->. by split.
    + intros [Hl _]. by destruct s.
  - rewrite elem_of_app, !list_elem_of_fmap. split.
    + intros [(s' & -> & Hs')|(s' & -> & Hs')]; apply IH in Hs' as [<- Hs'];
        (split; [done|]); constructor; auto.
    + intros [Hl Hs]. destruct s as [|x s]; [done|].
      injection Hl as Hl. apply Forall_cons in Hs as [[->| ->] Hs];
        [left|right]; exists s; (split; [done|]); by apply IH.
Qed.

Lemma sign_assignments_NoDup (n : nat) : NoDup (Spec.sign_assignments n).
Proof.
  induction n as [|n IH]; simpl; [apply NoDup_singleton|].
  apply NoDup_app. split_and!.
  - apply NoDup_fmap_2; [|done]. by intros ?? [= ->].
  - intros s (s1 & -> & _)%list_elem_of_fmap (s2 & [=] & _)%list_elem_of_fmap.
  - apply NoDup_fmap_2; [|done]. by intros ?? [= ->].
Qed.

(** C4, as the program has it: the count returned by the Target Sum
    enumerator is the number of sign assignments whose signed sum is the
    target, the sign assignments being the lists of [len(nums)] signs [+1]
    or [-1], each listed once; the goal leaves recorded are the identifiers
    of the visits of a terminal state whose sum is the target, in the order
    of the trace, and they are as many as the count.  For [nums = [1,1,1]]
    the count is 0 for the target 2 (a sum of three odd numbers is odd) and
    3 for the target 1. *)
Theorem ways_count_is_brute_force (nums : list Z) (target : Z) :
  (∃ trace parent_map valid_leaves,
     TargetSum.run_target_sum_dfs nums target
     = Ok (trace, parent_map, valid_leaves,
           Z.of_nat (Spec.count_ways nums target))
     ∧ valid_leaves
       = Spec.goal_ids (len nums) target trace (Spec.ts_calls nums 0 0)
     ∧ length valid_leaves = Spec.count_ways nums target)
  ∧ (∀ s, s ∈ Spec.sign_assignments (length nums)
          ↔ length s = length nums ∧ Forall (λ x, x = 1 ∨ x = -1) s)
  ∧ NoDup (Spec.sign_assignments (length nums))
  ∧ snd <$> TargetSum.run_target_sum_dfs [1; 1; 1] 2 = Ok 0
  ∧ snd <$> TargetSum.run_target_sum_dfs [1; 1; 1] 1 = Ok 3.
Proof.
  split_and!.
  - destruct (run_target_sum_dfs_calls nums target)
      as (st & Hdfs & Hrun & Htr & Hvl & Hwc).
    eexists _, _, _. rewrite Hrun, Hwc. split; [done|]. split; [done|].
    apply Nat2Z.inj. rewrite <-Hwc.
    destruct (ts_dfs_calls nums target nums [] (S (length nums)) 0 None ""
                TargetSum.init eq_refl)
      as (st' & Hdfs' & Htr' & _ & _ & Hwc'); [lia|].
    change (len []) with 0 in *. rewrite Hdfs in Hdfs'. injection Hdfs' as <-.
    rewrite Hwc', Hvl. simpl. rewrite length_goal_ids; [lia|].
    by rewrite Htr, length_number_visits, length_map.
  - apply sign_assignments_spec.
  - apply sign_assignments_NoDup.
  - vm_compute; reflexivity.
  - vm_compute; reflexivity.
Qed.

(** C4, the figure of the claim: the run on [nums = [1,1,1]] with target 2
    does not count 3 ways. *)
Lemma ways_count_three_ones_target_two :
  snd <$> TargetSum.run_target_sum_dfs [1; 1; 1] 2 = Ok 0
  ∧ snd <$> TargetSum.run_target_sum_dfs [1; 1; 1] 2 ≠ Ok 3.
Proof.
  assert (snd <$> TargetSum.run_target_sum_dfs [1; 1; 1] 2 = Ok 0) as Hrun
    by (vm_compute; reflexivity).
  split; [done|]. rewrite Hrun. discriminate.
Qed.

(** ** The graph of a trace and a parent map *)

Section tree_graph.
Import Spec Visit.

Lemma split_nonempty sep s : ∃ t ts, split sep s = t :: ts.
Proof.
  induction s as [|c s (t & ts & IH)]; simpl; [eauto|].
  case_bool_decide; [eauto|]. rewrite IH. eauto.
Qed.

Lemma display_label_ok node_id : ∃ b, TargetSum.display_label node_id = Ok b.
Proof.
  unfold TargetSum.display_label.
  destruct (split_nonempty "_" node_id) as (t & ts & ->).
  exists t. by apply (getitem_lookup (t :: ts) 0).
Qed.

(** The loop over the trace makes every identifier a node, and adds no
    edge. *)
Lemma add_nodes_ok (key : string) (tr : list string) (G : Nx.DiGraph string) :
  ∃ G',
    for_each tr (λ node_id G,
      base_label ← TargetSum.display_label node_id;
      Ok (Nx.add_node node_id key base_label G)) G = Ok G'
    ∧ Nx.edges G' = Nx.edges G
    ∧ ∀ x, x ∈ tr ∨ is_Some (Nx.nodes G !! x) → is_Some (Nx.nodes G' !! x).
Proof.
  revert G. induction tr as [|y tr IH]; intros G; simpl.
  - exists G. split_and!; [done..|]. intros x [Hx|Hx]; [|done].
    by apply elem_of_nil in Hx.
  - destruct (display_label_ok y) as [b ->]. simpl.
    destruct (IH (Nx.add_node y key b G)) as (G' & -> & Hedges & Hnodes).
    exists G'. split_and!; [done..|].
    intros x Hx. apply Hnodes.
    destruct (decide (x = y)) as [->|Hne].
    + right. simpl. rewrite lookup_insert_eq. eauto.
    + destruct Hx as [Hx|Hx].
      * left. set_solver.
      * right. simpl. by rewrite lookup_insert_ne.
Qed.

Lemma touch_is_Some (n x : string) ns :
  is_Some (ns !! x) → is_Some (Nx.touch n ns !! x).
Proof.
  intros Hx. unfold Nx.touch. destruct (ns !! n) eqn:Hn; [done|].
  destruct (decide (n = x)) as [->|Hne].
  - rewrite lookup_insert_eq. eauto.
  - by rewrite lookup_insert_ne.
Qed.

(** The loop over the parent map adds, for every child, the edge from its
    parent with its label, and nothing else. *)
Lemma add_edges_spec (pm : gmap string (string * string))
    (G0 : Nx.DiGraph string) :
  Nx.edges G0 = ∅ →
  (∀ p c l, Nx.has_edge (TargetSum.add_edges pm G0) p c l
            ↔ pm !! c = Some (p, l))
  ∧ (∀ x, is_Some (Nx.nodes G0 !! x)
          → is_Some (Nx.nodes (TargetSum.add_edges pm G0) !! x)).
Proof.
  intros Hempty. unfold TargetSum.add_edges.
  apply (map_fold_weak_ind (λ (r : Nx.DiGraph string) m,
    (∀ p c l, Nx.has_edge r p c l ↔ m !! c = Some (p, l))
    ∧ (∀ x, is_Some (Nx.nodes G0 !! x) → is_Some (Nx.nodes r !! x)))).
  - split; [|done]. intros p c l. unfold Nx.has_edge, Nx.edge_label.
    by rewrite Hempty, !lookup_empty.
  - intros i [p' l'] m r Hi [IHe IHn]. split.
    + intros p c l. unfold Nx.has_edge, Nx.edge_label in *. simpl.
      destruct (decide ((p', i) = (p, c))) as [[= -> ->]|Hne].
      * rewrite !lookup_insert_eq. simpl. rewrite lookup_insert_eq.
        split; by intros [= ->].
      * rewrite lookup_insert_ne by done.
        destruct (decide (i = c)) as [->|Hic].
        -- rewrite lookup_insert_eq. split.
           ++ intros Hedge. apply IHe in Hedge. by rewrite Hi in Hedge.
           ++ intros [= -> ->]. done.
        -- rewrite lookup_insert_ne by done. apply IHe.
    + intros x Hx. simpl. by apply touch_is_Some, touch_is_Some, IHn.
Qed.

Section walks.
Variable st : state.
Hypothesis Hwf : wf st.
Local Abbreviation tr := (trace st).
Local Abbreviation pm := (parent_map st).

Lemma ancestor_step x y p l :
  pm !! y = Some (p, l) → ancestor pm x y ↔ x = y ∨ ancestor pm x p.
Proof.
  intros Hy. split.
  - intros Hanc. inversion Hanc as [|? ? p' l' Hy' Hanc']; subst; [by left|].
    rewrite Hy in Hy'. injection Hy' as <- <-. by right.
  - intros [->|Hanc]; [constructor|]. by econstructor.
Qed.

Lemma ancestor_root x y :
  pm !! y = None → ancestor pm x y ↔ x = y.
Proof.
  intros Hy. split; [|intros ->; constructor].
  intros Hanc. inversion Hanc as [|? ? p' l' Hy' Hanc']; subst; [done|].
  by rewrite Hy in Hy'.
Qed.

Lemma ancestor_parent x y z l :
  pm !! y = Some (x, l) → ancestor pm y z → ancestor pm x z.
Proof.
  intros Hy Hanc. induction Hanc as [y|y z p l' Hz Hanc IH].
  - econstructor; [done|constructor].
  - econstructor; [done|]. by apply IH.
Qed.

Lemma ancestor_in_trace x y : ancestor pm x y → y ∈ tr → x ∈ tr.
Proof.
  induction 1 as [|x y p l Hy Hanc IH]; [done|]. intros _. apply IH.
  destruct (wf_parent _ Hwf _ _ _ Hy) as (i & _ & Hi & _).
  apply list_elem_of_lookup. eauto.
Qed.

(** The first node of the trace is an ancestor of every node. *)
Lemma root_ancestor (j : nat) root x :
  tr !! 0%nat = Some root → tr !! j = Some x → ancestor pm root x.
Proof.
  intros Hroot. revert x.
  induction (lt_wf j) as [j _ IH]. intros x Hx.
  destruct j as [|j].
  { rewrite Hroot in Hx. injection Hx as <-. constructor. }
  destruct (wf_child _ Hwf _ _ Hx) as [[p l] Hp].
  destruct (wf_parent _ Hwf _ _ _ Hp) as (i & j' & Hi & Hj' & Hij).
  assert (j' = S j) as ->.
  { eapply NoDup_lookup; [apply Hwf|done..]. }
  econstructor; [done|]. by eapply IH.
Qed.

(** The walk from a node of the trace stops before the budget does, and
    adds the node and its ancestors. *)
Lemma walk_up_spec (fuel j : nat) cur (hl : gset string) :
  tr !! j = Some cur → (j < fuel)%nat →
  ∃ hl',
    TargetSum.walk_up fuel (TargetSum.quick_parent_of pm) cur hl = Ok hl'
    ∧ ∀ x, x ∈ hl' ↔ x ∈ hl ∨ ancestor pm x cur.
Proof.
  revert j cur hl. induction fuel as [|fuel IH]; intros j cur hl Hj Hlt;
    [lia|].
  simpl. unfold TargetSum.quick_parent_of. rewrite lookup_fmap.
  destruct (pm !! cur) as [[p l]|] eqn:Hcur; simpl.
  - destruct (wf_parent _ Hwf _ _ _ Hcur) as (i & j' & Hi & Hj' & Hij).
    assert (j' = j) as ->.
    { eapply NoDup_lookup; [apply Hwf|done..]. }
    destruct (IH i p ({[cur]} ∪ hl) Hi) as (hl' & Hwalk & Hhl'); [lia|].
    exists hl'. split; [done|]. intros x.
    rewrite Hhl', (ancestor_step x cur p l Hcur). set_solver.
  - eexists. split; [done|]. intros x.
    rewrite (ancestor_root x cur Hcur). set_solver.
Qed.

Lemma size_parent_map : size pm = pred (length tr).
Proof.
  rewrite <-(size_dom (D := gset string)).
  assert (dom pm = list_to_set (drop 1 tr)) as ->.
  { apply set_eq. intros c.
    rewrite elem_of_dom, elem_of_list_to_set, list_elem_of_lookup. split.
    - intros [[p l] Hc].
      destruct (wf_parent _ Hwf _ _ _ Hc) as (i & j & _ & Hj & Hij).
      exists (pred j). rewrite lookup_drop.
      by replace (1 + pred j)%nat with j by lia.
    - intros [j Hj]. rewrite lookup_drop in Hj.
      by eapply (wf_child _ Hwf). }
  rewrite size_list_to_set, length_drop; [lia|].
  eapply sublist_NoDup; [apply Hwf|apply sublist_drop].
Qed.

(** All the goal leaves: the highlighted nodes are the ancestors of the
    goal leaves, themselves included. *)
Lemma highlight_spec (leaves : list string) :
  (∀ x, x ∈ leaves → x ∈ tr) →
  ∃ hl,
    TargetSum.highlight pm leaves = Ok hl
    ∧ ∀ x, x ∈ hl ↔ ∃ leaf, leaf ∈ leaves ∧ ancestor pm x leaf.
Proof.
  unfold TargetSum.highlight. cbv zeta.
  replace (size (TargetSum.quick_parent_of pm)) with (pred (length tr))
    by (unfold TargetSum.quick_parent_of;
        by rewrite map_size_fmap, size_parent_map).
  intros Hleaves.
  cut (∀ hl0 : gset string, ∃ hl,
    for_each leaves (TargetSum.walk_up (S (pred (length tr)))
                       (TargetSum.quick_parent_of pm)) hl0 = Ok hl
    ∧ ∀ x, x ∈ hl ↔ x ∈ hl0 ∨ ∃ leaf, leaf ∈ leaves ∧ ancestor pm x leaf).
  { intros Hcut. destruct (Hcut ∅) as (hl & Hrun & Hhl).
    exists hl. split; [done|]. intros x. rewrite Hhl. set_solver. }
  induction leaves as [|leaf leaves IH]; intros hl0;
    [simpl|rewrite for_each_cons].
  { exists hl0. split; [done|]. intros x. split; [by left|].
    intros [Hx|(leaf & Hleaf & _)]; [done|]. by apply elem_of_nil in Hleaf. }
  assert (leaf ∈ tr) as [j Hj]%list_elem_of_lookup by (apply Hleaves; left).
  destruct (walk_up_spec (S (pred (length tr))) j leaf hl0 Hj)
    as (hl1 & -> & Hhl1).
  { apply lookup_lt_Some in Hj. lia. }
  cbn [mbind result_bind bind].
  destruct (IH (λ x Hx, Hleaves x (list_elem_of_further _ _ _ Hx)) hl1)
    as (hl & -> & Hhl).
  exists hl. split; [done|]. intros x. rewrite Hhl, Hhl1.
  setoid_rewrite elem_of_cons. naive_solver.
Qed.
End walks.

End tree_graph.

(** ** Paths of the graph and chains of parents *)

Section graph_paths.
Import Spec Visit.
Variable st : state.
Hypothesis Hwf : wf st.
Variable G : Nx.DiGraph string.
Hypothesis Hedge :
  ∀ p c l, Nx.has_edge G p c l ↔ parent_map st !! c = Some (p, l).
Hypothesis Hnode : ∀ x, x ∈ trace st → is_Some (Nx.nodes G !! x).

Lemma path_ends u xs v : path G u xs v → u ∈ xs ∧ v ∈ xs.
Proof.
  induction 1 as [u Hu|u v lbl xs z He Hp [_ IH]]; [set_solver|].
  split; [left|by right].
Qed.

Lemma path_app u xs v ys w :
  path G u xs v → path G v ys w → path G u (xs ++ tail ys) w.
Proof.
  induction 1 as [u Hu|u v' lbl xs z He Hp IH]; intros Hq.
  - destruct Hq; simpl; by econstructor.
  - simpl. econstructor; [done|]. by apply IH.
Qed.

Lemma ancestor_path x y :
  ancestor (parent_map st) x y → y ∈ trace st → ∃ xs, path G x xs y.
Proof.
  induction 1 as [x|x y p l Hy Hanc IH]; intros Hin.
  - exists [x]. constructor. by apply Hnode.
  - destruct (wf_parent _ Hwf _ _ _ Hy) as (i & _ & Hi & _).
    destruct IH as [xs Hxs]; [apply list_elem_of_lookup; eauto|].
    exists (xs ++ tail [p; y]). eapply path_app; [done|].
    econstructor; [by apply Hedge|]. constructor. by apply Hnode.
Qed.

Lemma path_ancestor u xs v x :
  path G u xs v → x ∈ xs → ancestor (parent_map st) x v.
Proof.
  intros Hpath. revert x.
  induction Hpath as [u Hu|u v' lbl xs z He Hp IH]; intros x.
  - intros ->%list_elem_of_singleton. constructor.
  - intros [->|Hx]%elem_of_cons; [|by apply IH].
    apply Hedge in He. eapply ancestor_parent; [done|].
    apply IH. by apply path_ends in Hp as [? _].
Qed.

(** The nodes of the paths from the root to a node of the trace are that
    node and its ancestors. *)
Lemma on_root_path root leaf x :
  trace st !! 0%nat = Some root → leaf ∈ trace st →
  ancestor (parent_map st) x leaf
  ↔ ∃ xs, path G root xs leaf ∧ x ∈ xs.
Proof.
  intros Hroot Hleaf. split.
  - intros Hanc.
    assert (x ∈ trace st) as Hx by (by eapply ancestor_in_trace).
    pose proof Hx as [j Hj]%list_elem_of_lookup.
    destruct (ancestor_path root x) as [xs1 Hxs1];
      [by eapply root_ancestor|done|].
    destruct (ancestor_path x leaf) as [xs2 Hxs2]; [done..|].
    exists (xs1 ++ tail xs2). split; [by eapply path_app|].
    apply elem_of_app. left. by apply path_ends in Hxs1 as [_ ?].
  - intros (xs & Hpath & Hx). by eapply path_ancestor.
Qed.

End graph_paths.

(** ** The DP table *)

Section loops_over_ranges.
Context {S : Type}.

(** A loop over consecutive integers whose body takes the invariant from
    one index to the next. *)
Lemma for_each_seqZ (P : Z → S → Prop) (m n : Z)
    (body : Z → S → result S) (s : S) :
  P m s →
  (∀ k s, m ≤ k < m + n → P k s → ∃ s', body k s = Ok s' ∧ P (k + 1) s') →
  ∃ s', for_each (seqZ m n) body s = Ok s' ∧ P (m + Z.max 0 n) s'.
Proof.
  destruct (decide (n ≤ 0)) as [Hn|Hn].
  { intros Hs _. rewrite seqZ_nil by done. exists s.
    split; [done|]. by replace (m + Z.max 0 n) with m by lia. }
  assert (0 ≤ n) as Hn0 by lia. clear Hn. revert m s.
  pattern n. apply natlike_ind; [| |done].
  - intros m s Hs _. exists s. split; [done|].
    by replace (m + Z.max 0 0) with m by lia.
  - clear n Hn0. intros n Hn IH m s Hs Hbody.
    rewrite seqZ_cons by lia. rewrite for_each_cons.
    destruct (Hbody m s) as (s1 & -> & Hs1); [lia|done|].
    cbn [mbind result_bind bind].
    replace (Z.pred (Z.succ n)) with n by lia.
    destruct (IH (Z.succ m) s1) as (s' & Hrun & Hs').
    + by replace (Z.succ m) with (m + 1) by lia.
    + intros k t Hk. apply Hbody. lia.
    + exists s'. split; [done|].
      by replace (m + Z.max 0 (Z.succ n)) with (Z.succ m + Z.max 0 n) by lia.
Qed.
End loops_over_ranges.

Section table_cells.
Import KnapsackDP.
Implicit Types (dp : list (list Z)) (row : list Z).

Lemma get2_cell dp i w row x :
  0 ≤ i → 0 ≤ w →
  dp !! Z.to_nat i = Some row → row !! Z.to_nat w = Some x →
  get2 dp i w = Ok x.
Proof.
  intros Hi Hw Hrow Hx. unfold get2.
  rewrite <-(Z2Nat.id i), (getitem_lookup _ _ _ Hrow) by done. simpl.
  by rewrite <-(Z2Nat.id w), (getitem_lookup _ _ _ Hx) by done.
Qed.

Lemma set2_cell dp i w x row :
  0 ≤ i → 0 ≤ w →
  dp !! Z.to_nat i = Some row → (Z.to_nat w < length row)%nat →
  set2 dp i w x = Ok (<[Z.to_nat i := <[Z.to_nat w := x]> row]> dp).
Proof.
  intros Hi Hw Hrow Hlt. unfold set2.
  rewrite <-(Z2Nat.id i) at 1 by done.
  rewrite (getitem_lookup _ _ _ Hrow). simpl.
  rewrite setitem_in_range by (unfold len; lia). simpl.
  apply setitem_in_range. apply lookup_lt_Some in Hrow. unfold len. lia.
Qed.
End table_cells.

Section table_invariant.
Import Spec KnapsackDP.
Implicit Types (dp : list (list Z)) (row : list Z).

Lemma cell_Some dp i w x :
  cell dp i w = Some x
  ↔ ∃ row, dp !! Z.to_nat i = Some row ∧ row !! Z.to_nat w = Some x.
Proof. unfold cell. by rewrite bind_Some. Qed.

Lemma get2_of_cell dp i w x :
  0 ≤ i → 0 ≤ w → cell dp i w = Some x → get2 dp i w = Ok x.
Proof.
  intros Hi Hw (row & Hrow & Hx)%cell_Some. by eapply get2_cell.
Qed.

Lemma shape_cell rows cols dp i w :
  shape rows cols dp →
  (Z.to_nat i < rows)%nat → (Z.to_nat w < cols)%nat →
  is_Some (cell dp i w).
Proof.
  intros [Hrows Hcols] Hi Hw.
  destruct (lookup_lt_is_Some_2 dp (Z.to_nat i)) as [row Hrow]; [lia|].
  destruct (lookup_lt_is_Some_2 row (Z.to_nat w)) as [x Hx].
  { by rewrite (Hcols _ _ Hrow). }
  exists x. apply cell_Some. eauto.
Qed.

Lemma get2_in_shape rows cols dp i w :
  shape rows cols dp → 0 ≤ i → 0 ≤ w →
  (Z.to_nat i < rows)%nat → (Z.to_nat w < cols)%nat →
  ∃ x, get2 dp i w = Ok x.
Proof.
  intros Hshape Hi Hw Hilt Hwlt.
  destruct (shape_cell _ _ dp i w Hshape Hilt Hwlt) as [x Hx].
  exists x. by apply get2_of_cell.
Qed.

(** [dp[i][w] = x] inside the table: the cell is written, the others and
    the shape are kept. *)
Lemma set2_ok rows cols dp i w x :
  shape rows cols dp → 0 ≤ i → 0 ≤ w →
  (Z.to_nat i < rows)%nat → (Z.to_nat w < cols)%nat →
  ∃ dp',
    set2 dp i w x = Ok dp' ∧ shape rows cols dp'
    ∧ cell dp' i w = Some x
    ∧ ∀ i' w', 0 ≤ i' → 0 ≤ w' → (i', w') ≠ (i, w) →
               cell dp' i' w' = cell dp i' w'.
Proof.
  intros [Hrows Hcols] Hi Hw Hilt Hwlt.
  destruct (lookup_lt_is_Some_2 dp (Z.to_nat i)) as [row Hrow]; [lia|].
  pose proof (Hcols _ _ Hrow) as Hlen.
  eexists. split; [eapply set2_cell; [done..|lia]|]. split_and!.
  - split; [by rewrite length_insert|]. intros k r Hk.
    destruct (decide (k = Z.to_nat i)) as [->|Hne].
    + rewrite list_lookup_insert_eq in Hk by lia. injection Hk as <-.
      by rewrite length_insert.
    + rewrite list_lookup_insert_ne in Hk by done. by eapply Hcols.
  - unfold cell. rewrite list_lookup_insert_eq by lia. simpl.
    by rewrite list_lookup_insert_eq by lia.
  - intros i' w' Hi' Hw' Hne. unfold cell.
    destruct (decide (Z.to_nat i' = Z.to_nat i)) as [Heq|Hneq].
    + rewrite Heq, list_lookup_insert_eq, Hrow by lia. simpl.
      rewrite list_lookup_insert_ne; [done|].
      intros Hw''. destruct Hne. f_equal; lia.
    + by rewrite list_lookup_insert_ne by done.
Qed.

Variables weight value : list Z.
Variable W : Z.
Hypothesis same_length : length weight = length value.
Hypothesis weights_nonneg : Forall (λ x, 0 ≤ x) weight.

Lemma tab_0 w : tab weight value 0 w = 0.
Proof. done. Qed.

Lemma item_lookup (i : Z) :
  1 ≤ i ≤ len weight →
  ∃ wi vi, weight !! Z.to_nat (i - 1) = Some wi
           ∧ value !! Z.to_nat (i - 1) = Some vi
           ∧ 0 ≤ wi
           ∧ getitem weight (i - 1) = Ok wi
           ∧ getitem value (i - 1) = Ok vi.
Proof.
  intros Hi. unfold len in Hi.
  destruct (lookup_lt_is_Some_2 weight (Z.to_nat (i - 1))) as [wi Hwi]; [lia|].
  destruct (lookup_lt_is_Some_2 value (Z.to_nat (i - 1))) as [vi Hvi]; [lia|].
  exists wi, vi. split_and!; [done..| | |].
  - eapply Forall_lookup_1 in weights_nonneg; [|done]. done.
  - rewrite <-(Z2Nat.id (i - 1)) by lia. by apply getitem_lookup.
  - rewrite <-(Z2Nat.id (i - 1)) by lia. by apply getitem_lookup.
Qed.

Lemma tab_step i w wi vi :
  1 ≤ i →
  weight !! Z.to_nat (i - 1) = Some wi →
  value !! Z.to_nat (i - 1) = Some vi →
  tab weight value i w = if bool_decide (w >= wi)
            then Z.max (tab weight value (i - 1) w) (tab weight value (i - 1) (w - wi) + vi)
            else tab weight value (i - 1) w.
Proof.
  intros Hi Hwi Hvi. unfold tab.
  replace (Z.to_nat i) with (S (Z.to_nat (i - 1))) by lia.
  erewrite take_S_r; [|by apply lookup_zip_with_Some; eauto].
  by rewrite rev_unit.
Qed.

Lemma fill_cell_ok i w dp :
  1 ≤ i ≤ len weight → 0 ≤ w ≤ W →
  filled weight value W i w dp →
  ∃ dp', fill_cell weight value i w dp = Ok dp' ∧ filled weight value W i (w + 1) dp'.
Proof.
  intros Hi Hw (Hshape & Hrows & Hrow).
  destruct (item_lookup i Hi) as (wi & vi & Hwi & Hvi & Hwi0 & Hgw & Hgv).
  unfold fill_cell.
  rewrite (get2_of_cell dp (i - 1) w (tab weight value (i - 1) w)) by (try apply Hrows; lia).
  cbn [mbind result_bind bind].
  destruct (set2_ok _ _ dp i w (tab weight value (i - 1) w) Hshape)
    as (dp1 & -> & Hshape1 & Hcell1 & Hother1); [lia..|].
  cbn [mbind result_bind bind]. rewrite Hgw. cbn [mbind result_bind bind].
  assert (Hgoal : ∀ dp2, shape (Z.to_nat (len weight + 1)) (Z.to_nat (W + 1)) dp2 →
    cell dp2 i w = Some (tab weight value i w) →
    (∀ i' w', 0 ≤ i' → 0 ≤ w' → (i', w') ≠ (i, w) →
              cell dp2 i' w' = cell dp i' w') →
    filled weight value W i (w + 1) dp2).
  { intros dp2 Hshape2 Hcell2 Hother2. split; [done|]. split.
    - intros i' w' Hi' Hw'. rewrite Hother2; [by apply Hrows|lia..|].
      intros [= -> ->]. lia.
    - intros w' Hw'. destruct (decide (w' = w)) as [->|Hne]; [done|].
      rewrite Hother2; [apply Hrow; lia|lia..|]. intros [= ->]. done. }
  rewrite (tab_step i w wi vi) in Hgoal by (done || lia).
  case_bool_decide as Hpick.
  - rewrite (get2_of_cell dp1 (i - 1) (w - wi) (tab weight value (i - 1) (w - wi)));
      [|lia..|].
    2:{ rewrite Hother1; [apply Hrows; lia|lia..|]. intros [= ? ?]. lia. }
    cbn [mbind result_bind bind]. rewrite Hgv. cbn [mbind result_bind bind].
    rewrite (get2_of_cell dp1 i w (tab weight value (i - 1) w)) by (done || lia).
    cbn [mbind result_bind bind].
    case_bool_decide as Hbetter.
    + destruct (set2_ok _ _ dp1 i w (tab weight value (i - 1) (w - wi) + vi) Hshape1)
        as (dp2 & -> & Hshape2 & Hcell2 & Hother2); [lia..|].
      exists dp2. split; [done|]. apply Hgoal; [done| |].
      * rewrite Hcell2. f_equal. lia.
      * intros i' w' Hi' Hw' Hne. by rewrite Hother2, Hother1.
    + exists dp1. split; [done|]. apply Hgoal; [done| |done].
      rewrite Hcell1. f_equal. lia.
  - exists dp1. split; [done|]. by apply Hgoal.
Qed.

Lemma fill_row_ok i dp :
  1 ≤ i ≤ len weight →
  filled weight value W i 0 dp →
  ∃ dp',
    for_each (range (W + 1)) (λ w dp, fill_cell weight value i w dp) dp
    = Ok dp'
    ∧ filled weight value W (i + 1) 0 dp'.
Proof.
  intros Hi Hfilled.
  destruct (for_each_seqZ (filled weight value W i) 0 (W + 1)
              (λ w dp, fill_cell weight value i w dp) dp Hfilled)
    as (dp' & Hrun & (Hshape & Hrows & Hrow)).
  { intros w dp0 Hw. apply fill_cell_ok; [done|lia]. }
  exists dp'. split; [done|]. split; [done|]. split.
  - intros i' w' Hi' Hw'. destruct (decide (i' = i)) as [->|Hne].
    + apply Hrow. lia.
    + apply Hrows; lia.
  - intros w' Hw'. lia.
Qed.

Lemma initial_table_filled :
  filled weight value W 1 0 (replicate (Z.to_nat (len weight + 1)) (repeat_list 0 (W + 1))).
Proof.
  split; [|split].
  - split; [by rewrite length_replicate|].
    intros k row [-> _]%lookup_replicate.
    unfold repeat_list. by rewrite length_replicate.
  - intros i' w' Hi' Hw'. assert (i' = 0) as -> by lia.
    unfold cell. rewrite lookup_replicate_2 by (unfold len; lia). simpl.
    unfold repeat_list. by rewrite lookup_replicate_2 by lia.
  - intros w' Hw'. lia.
Qed.

(** The table is built, and its cells hold the values of the recurrence. *)
Lemma build_knapsack_dp_table_ok :
  ∃ dp,
    build_knapsack_dp_table weight value W = Ok dp
    ∧ shape (Z.to_nat (len weight + 1)) (Z.to_nat (W + 1)) dp
    ∧ ∀ i w, 0 ≤ i ≤ len weight → 0 ≤ w ≤ W →
             cell dp i w = Some (tab weight value i w).
Proof.
  unfold build_knapsack_dp_table, range_from.
  destruct (for_each_seqZ (λ i, filled weight value W i 0) 1 (len weight + 1 - 1)
              (λ i dp, for_each (range (W + 1))
                         (λ w dp, fill_cell weight value i w dp) dp)
              _ initial_table_filled)
    as (dp & Hrun & (Hshape & Hrows & _)).
  { intros i dp Hi. apply fill_row_ok. unfold len in *. lia. }
  exists dp. split; [done|]. split; [done|].
  intros i w Hi Hw. apply Hrows; [|done]. unfold len in *. lia.
Qed.

End table_invariant.

Section table_shape.
Import KnapsackDP.
Variables weight value : list Z.
Variable W : Z.
(** What the table builder needs of the items: no negative weight, and a
    value for every item that fits the capacity. *)
Hypothesis items_ok :
  ∀ k wi, weight !! k = Some wi →
          0 ≤ wi ∧ (wi ≤ W → is_Some (value !! k)).

Lemma fill_cell_shape i w (dp : list (list Z)) :
  1 ≤ i ≤ len weight → 0 ≤ w ≤ W →
  shape (Z.to_nat (len weight + 1)) (Z.to_nat (W + 1)) dp →
  ∃ dp', fill_cell weight value i w dp = Ok dp'
         ∧ shape (Z.to_nat (len weight + 1)) (Z.to_nat (W + 1)) dp'.
Proof.
  intros Hi Hw Hshape. unfold len in Hi.
  destruct (lookup_lt_is_Some_2 weight (Z.to_nat (i - 1))) as [wi Hwi]; [lia|].
  destruct (items_ok _ _ Hwi) as [Hwi0 Hvalue].
  assert (getitem weight (i - 1) = Ok wi) as Hgw.
  { rewrite <-(Z2Nat.id (i - 1)) by lia. by apply getitem_lookup. }
  unfold fill_cell.
  destruct (get2_in_shape _ _ dp (i - 1) w Hshape) as [x ->];
    [unfold len; lia..|].
  cbn [mbind result_bind bind].
  destruct (set2_ok _ _ dp i w x Hshape) as (dp1 & -> & Hshape1 & _);
    [unfold len; lia..|].
  cbn [mbind result_bind bind]. rewrite Hgw. cbn [mbind result_bind bind].
  case_bool_decide as Hpick; [|eauto].
  destruct (get2_in_shape _ _ dp1 (i - 1) (w - wi) Hshape1) as [y ->];
    [unfold len; lia..|].
  cbn [mbind result_bind bind].
  destruct Hvalue as [vi Hvi]; [lia|].
  assert (getitem value (i - 1) = Ok vi) as ->.
  { rewrite <-(Z2Nat.id (i - 1)) by lia. by apply getitem_lookup. }
  cbn [mbind result_bind bind].
  destruct (get2_in_shape _ _ dp1 i w Hshape1) as [cur ->];
    [unfold len; lia..|].
  cbn [mbind result_bind bind].
  case_bool_decide; [|eauto].
  destruct (set2_ok _ _ dp1 i w (y + vi) Hshape1) as (dp2 & -> & Hshape2 & _);
    [unfold len; lia..|].
  eauto.
Qed.

(** The table is built, with its [n + 1] rows of [W + 1] cells. *)
Lemma build_table_shape :
  ∃ dp, build_knapsack_dp_table weight value W = Ok dp
        ∧ shape (Z.to_nat (len weight + 1)) (Z.to_nat (W + 1)) dp.
Proof.
  unfold build_knapsack_dp_table, range_from.
  apply for_each_inv.
  - split; [by rewrite length_replicate|].
    intros k row [-> _]%lookup_replicate.
    unfold repeat_list. by rewrite length_replicate.
  - intros i dp Hi%elem_of_seqZ Hshape.
    apply for_each_inv; [done|].
    intros w dp' Hw%elem_of_seqZ Hshape'.
    apply fill_cell_shape; [lia..|done].
Qed.

End table_shape.

(** ** The recurrence, the best choice of items and the leaves of the DFS *)

Section optimum.
Import Spec.

Lemma knap_best_snoc (items : list (Z * Z)) (a b w : Z) :
  Forall (λ p, 0 ≤ p.1) items → 0 ≤ a →
  knap_best (items ++ [(a, b)]) w
  = if bool_decide (w >= a)
    then Z.max (knap_best items w) (knap_best items (w - a) + b)
    else knap_best items w.
Proof.
  intros Hitems Ha. revert w.
  induction Hitems as [|[a0 b0] items Ha0 _ IH]; intros w; simpl.
  - repeat case_bool_decide; lia.
  - simpl in Ha0. rewrite !IH.
    replace (w - a0 - a) with (w - a - a0) by lia.
    repeat case_bool_decide; lia.
Qed.

(** With non-negative weights the order of the items does not matter. *)
Lemma knap_best_rev (items : list (Z * Z)) (w : Z) :
  Forall (λ p, 0 ≤ p.1) items →
  knap_best (rev items) w = knap_best items w.
Proof.
  intros Hitems. revert w.
  induction Hitems as [|[a b] items Ha Hitems IH]; intros w; [done|].
  simpl. rewrite knap_best_snoc; [|by apply Forall_rev|done].
  by rewrite !IH.
Qed.

Lemma total_nonneg (sel : list bool) (xs : list Z) :
  Forall (λ x, 0 ≤ x) xs → 0 ≤ total sel xs.
Proof.
  intros Hxs. revert sel.
  induction Hxs as [|x xs Hx _ IH]; intros [|[] sel]; simpl; try lia;
    specialize (IH sel); lia.
Qed.

(** The recurrence computes the value of a best choice. *)
Lemma knap_best_optimal (weight value : list Z) (W : Z) :
  length weight = length value →
  Forall (λ x, 0 ≤ x) weight → 0 ≤ W →
  is_optimal weight value W (knap_best (zip weight value) W).
Proof.
  intros Hlen Hnn. revert value Hlen W.
  induction Hnn as [|a ws Ha Hws IH]; intros [|b vs] Hlen W HW;
    simplify_eq/=.
  - split.
    + exists []. simpl. split_and!; [done|lia|done].
    + intros [|] ?; simpl; lia.
  - pose proof (IH vs Hlen W HW) as [(s1 & Hl1 & Hw1 & Hv1) Hub1].
    case_bool_decide as Hpick.
    + destruct (IH vs Hlen (W - a)) as [(s2 & Hl2 & Hw2 & Hv2) Hub2]; [lia|].
      split.
      * destruct (Z.max_spec (knap_best (zip ws vs) W)
                    (knap_best (zip ws vs) (W - a) + b)) as [[_ ->]|[_ ->]].
        -- exists (true :: s2). simpl. split_and!; [lia..].
        -- exists (false :: s1). simpl. split_and!; [lia..].
      * intros [|[] sel] Hl Hw; simplify_eq/=.
        -- specialize (Hub2 sel Hl). lia.
        -- specialize (Hub1 sel Hl). lia.
    + split.
      * exists (false :: s1). simpl. split_and!; [lia..].
      * intros [|[] sel] Hl Hw; simplify_eq/=.
        -- pose proof (total_nonneg sel ws Hws). lia.
        -- specialize (Hub1 sel Hl). lia.
Qed.

Lemma is_max_of_app (l1 l2 : list Z) (m1 m2 : Z) :
  is_max_of l1 m1 → is_max_of l2 m2 → is_max_of (l1 ++ l2) (Z.max m1 m2).
Proof.
  intros [Hin1 Hub1] [Hin2 Hub2]. split.
  - apply elem_of_app.
    destruct (Z.max_spec m1 m2) as [[_ ->]|[_ ->]]; auto.
  - intros x [Hx|Hx]%elem_of_app;
      [specialize (Hub1 x Hx)|specialize (Hub2 x Hx)]; lia.
Qed.

(** The greatest value accumulated at a leaf below a call is the value
    accumulated at the call plus what the recurrence gives for the items
    and the capacity that are left. *)
Lemma knap_leaves_max (n : Z) (items : list (Z * Z)) (i w v : Z) :
  i + len items = n →
  is_max_of (knap_leaf_values n (knap_calls items i w v))
    (v + knap_best items w).
Proof.
  revert i w v. induction items as [|[wi vi] items IH]; intros i w v Hi.
  - change (len []) with 0 in Hi. unfold knap_leaf_values. simpl.
    rewrite filter_cons_True by (simpl; lia). simpl.
    replace (v + 0) with v by lia. split; [set_solver|].
    intros x ->%list_elem_of_singleton. lia.
  - assert (len ((wi, vi) :: items) = 1 + len items) as Hlen.
    { unfold len. simpl length. lia. }
    assert (0 ≤ len items) as Hpos by (unfold len; lia).
    unfold knap_leaf_values in *. simpl.
    rewrite filter_cons_False by (simpl; lia).
    rewrite filter_app, map_app.
    pose proof (IH (i + 1) w v) as IH1.
    case_bool_decide as Hpick.
    + pose proof (IH (i + 1) (w - wi) (v + vi)) as IH2.
      replace (v + Z.max (knap_best items w) (knap_best items (w - wi) + vi))
        with (Z.max (v + knap_best items w)
                    (v + vi + knap_best items (w - wi))) by lia.
      apply is_max_of_app; [apply IH1|apply IH2]; lia.
    + rewrite filter_nil. simpl. rewrite app_nil_r. apply IH1. lia.
Qed.

End optimum.

(** C6, as the program has it: for validated input with non-negative
    weights and a non-negative capacity the table is built, its entry
    [T[n][W]] is the value of a best choice of items of weight at most [W],
    and it is the greatest value accumulated at a leaf of the DFS
    enumeration of the same input (the states [(i, w, v)] of its trace with
    [i >= n]).  On weights [2,3,4], values [3,4,5] and [W = 5] the entry
    [T[3][5]] is 7. *)
Theorem dp_table_entry_is_optimal (weight value : list Z) (W : Z) :
  length weight = length value →
  Forall (λ x, 0 ≤ x) weight →
  0 ≤ W →
  (∃ dp T,
     KnapsackDP.build_knapsack_dp_table weight value W = Ok dp
     ∧ KnapsackDP.get2 dp (len weight) W = Ok T
     ∧ Spec.is_optimal weight value W T
     ∧ fst <$> Knapsack.run_knapsack_dfs weight value W
       = Ok (Spec.number_visits ∅
               (map Spec.knap_label (Spec.knap_calls (zip weight value) 0 W 0)))
     ∧ Spec.is_max_of
         (Spec.knap_leaf_values (len weight)
            (Spec.knap_calls (zip weight value) 0 W 0)) T)
  ∧ (KnapsackDP.build_knapsack_dp_table [2; 3; 4] [3; 4; 5] 5
       ≫= λ dp, KnapsackDP.get2 dp 3 5) = Ok 7.
Proof.
  intros Hlen Hnn HW. split; [|vm_compute; reflexivity].
  destruct (build_knapsack_dp_table_ok weight value W Hlen Hnn)
    as (dp & Hbuild & _ & Hcells).
  assert (0 ≤ len weight) as Hn by (unfold len; lia).
  assert (Forall (λ p : Z * Z, 0 ≤ p.1) (zip weight value)) as Hitems.
  { apply Forall_forall. intros [a b] Hab.
    apply elem_of_zip_l in Hab. simpl.
    by eapply Forall_forall in Hnn. }
  assert (tab weight value (len weight) W = Spec.knap_best (zip weight value) W)
    as Htab.
  { unfold tab. rewrite take_ge; [by apply knap_best_rev|].
    rewrite length_zip_with. unfold len. lia. }
  exists dp, (Spec.knap_best (zip weight value) W). split_and!.
  - done.
  - apply get2_of_cell; [done..|]. rewrite <-Htab. apply Hcells; lia.
  - by apply knap_best_optimal.
  - destruct (run_knapsack_dfs_calls weight value W Hlen)
      as (st & _ & Hrun & Htr). by rewrite Hrun, <-Htr.
  - replace (Spec.knap_best (zip weight value) W)
      with (0 + Spec.knap_best (zip weight value) W) by lia.
    apply knap_leaves_max. unfold len. rewrite length_zip_with. lia.
Qed.

Lemma dp_table_entry_is_optimal_witness :
  (∃ dp T,
     KnapsackDP.build_knapsack_dp_table [1; 2] [10; 15] 2 = Ok dp
     ∧ KnapsackDP.get2 dp (len [1; 2]) 2 = Ok T
     ∧ Spec.is_optimal [1; 2] [10; 15] 2 T
     ∧ fst <$> Knapsack.run_knapsack_dfs [1; 2] [10; 15] 2
       = Ok (Spec.number_visits ∅
               (map Spec.knap_label
                  (Spec.knap_calls (zip [1; 2] [10; 15]) 0 2 0)))
     ∧ Spec.is_max_of
         (Spec.knap_leaf_values (len [1; 2])
            (Spec.knap_calls (zip [1; 2] [10; 15]) 0 2 0)) T)
  ∧ (KnapsackDP.build_knapsack_dp_table [2; 3; 4] [3; 4; 5] 5
       ≫= λ dp, KnapsackDP.get2 dp 3 5) = Ok 7.
Proof.
  apply (dp_table_entry_is_optimal [1; 2] [10; 15] 2).
  - reflexivity.
  - repeat constructor; lia.
  - lia.
Defined.

(** C6, where the claim fails: the lists [[-1]] and [[1]] pass the
    validation, and the table builder raises [IndexError] on them, so there
    is no entry [T[n][W]]; nor is there one when the capacity is negative,
    the rows of the table being empty. *)
Lemma dp_table_negative_weight :
  length [-1] = length [1]
  ∧ KnapsackDP.build_knapsack_dp_table [-1] [1] 1 = Raise IndexError
  ∧ (¬ ∃ dp T,
         KnapsackDP.build_knapsack_dp_table [-1] [1] 1 = Ok dp
         ∧ KnapsackDP.get2 dp (len [-1]) 1 = Ok T
         ∧ Spec.is_optimal [-1] [1] 1 T)
  ∧ (KnapsackDP.build_knapsack_dp_table [1] [1] (-1)
       ≫= λ dp, KnapsackDP.get2 dp 1 (-1)) = Raise IndexError.
Proof.
  assert (KnapsackDP.build_knapsack_dp_table [-1] [1] 1 = Raise IndexError)
    as Hraise by (vm_compute; reflexivity).
  split; [done|]. split; [done|]. split; [|vm_compute; reflexivity].
  intros (dp & T & Hbuild & _). by rewrite Hraise in Hbuild.
Qed.

(** ** The graph of the DP table *)

Section dp_graph.
Import KnapsackDP.
Implicit Types (dp : list (list Z)) (st : state).

Lemma has_edge_add_edge (g : Nx.DiGraph Z) u v val u' v' l :
  Nx.has_edge (Nx.add_edge u v val g) u' v' l → Nx.has_edge g u' v' l ∨ l = val.
Proof.
  unfold Nx.has_edge, Nx.edge_label. simpl.
  destruct (decide ((u, v) = (u', v'))) as [<-|Hne].
  - rewrite lookup_insert_eq. simpl. rewrite lookup_insert_eq.
    intros [= <-]. by right.
  - rewrite lookup_insert_ne by done. by left.
Qed.

Variable dp : list (list Z).
Variables weight value : list Z.
Variable cols : nat.
Hypothesis weights_nonneg : Forall (λ x, 0 ≤ x) weight.
(** Every item light enough to be picked in some column has a value. *)
Hypothesis values_there :
  ∀ k wi, weight !! k = Some wi → wi ≤ Z.of_nat cols - 1 →
          is_Some (value !! k).
Hypothesis dp_shape : shape (S (length weight)) cols dp.

(** [get_node_id] returns the node of the cell, a new one if the cell had
    none, and changes no node given out before. *)
Lemma get_node_id_spec i w st :
  graph_inv weight cols st →
  ∃ nid st',
    get_node_id i w st = (nid, st') ∧ G st' = G st
    ∧ node_id_map st' !! (i, w) = Some nid
    ∧ (∀ k id, node_id_map st !! k = Some id → node_id_map st' !! k = Some id)
    ∧ graph_inv weight cols st'.
Proof.
  intros (Hexp & Hfresh & Hinj & Hlocal). unfold get_node_id.
  destruct (node_id_map st !! (i, w)) as [nid|] eqn:Hcell.
  { exists nid, st. by repeat split. }
  eexists _, _. split; [done|]. simpl.
  assert (∀ k id, node_id_map st !! k = Some id →
                  <[(i, w) := node_counter st]> (node_id_map st) !! k = Some id)
    as Hmono.
  { intros k id Hk. rewrite lookup_insert_ne; [done|]. by intros <-; simplify_eq. }
  split; [done|]. split; [by rewrite lookup_insert_eq|]. split; [done|].
  split; [done|]. split_and!.
  - intros k id. simpl. destruct (decide ((i, w) = k)) as [<-|Hne].
    + rewrite lookup_insert_eq. intros [= <-]. lia.
    + rewrite lookup_insert_ne by done. intros Hk%Hfresh. lia.
  - intros k1 k2 id. simpl.
    destruct (decide ((i, w) = k1)) as [<-|Hne1],
             (decide ((i, w) = k2)) as [<-|Hne2];
      rewrite ?lookup_insert_eq, ?lookup_insert_ne by done.
    + done.
    + intros [= <-] Hk%Hfresh. lia.
    + intros Hk%Hfresh [= <-]. lia.
    + apply Hinj.
  - intros u v Huv. destruct (Hlocal u v Huv) as (i' & w' & Hu & Hv).
    exists i', w'. simpl. split; by apply Hmono.
Qed.

Lemma add_node_inv nid key val st :
  graph_inv weight cols st →
  graph_inv weight cols (with_graph (Nx.add_node nid key val) st).
Proof. intros (Hexp & Hfresh & Hinj & Hlocal). by repeat split. Qed.

Lemma add_edge_inv nid_parent nid_child l i w st :
  graph_inv weight cols st →
  node_id_map st !! (i, w) = Some nid_parent →
  node_id_map st !! (i + 1, w) = Some nid_child →
  edge_origin weight cols l →
  graph_inv weight cols (with_graph (Nx.add_edge nid_parent nid_child l) st).
Proof.
  intros (Hexp & Hfresh & Hinj & Hlocal) Hparent Hchild Hl.
  split; [|split; [done|split; [done|]]].
  - intros u v l'. simpl.
    intros [Hold| ->]%has_edge_add_edge; [by eapply Hexp|done].
  - intros u v. simpl.
    destruct (decide ((nid_parent, nid_child) = (u, v))) as [[= <- <-]|Hne].
    + intros _. eauto.
    + rewrite lookup_insert_ne by done. apply Hlocal.
Qed.

Lemma add_cell_node_ok i w st :
  0 ≤ i < len dp → 0 ≤ w < Z.of_nat cols →
  graph_inv weight cols st →
  ∃ st', add_cell_node dp i w st = Ok st' ∧ graph_inv weight cols st'.
Proof.
  intros Hi Hw Hst. unfold add_cell_node.
  destruct (get2_in_shape _ _ dp i w dp_shape) as [x ->]; [lia..| |lia|].
  { destruct dp_shape as [<- _]. unfold len in Hi. lia. }
  cbn [mbind result_bind bind].
  destruct (get_node_id_spec i w st Hst) as (nid & st1 & -> & _ & _ & _ & Hst1).
  eexists. split; [done|]. by apply add_node_inv.
Qed.

Lemma add_cell_edges_ok i w st :
  0 ≤ i < len weight → 0 ≤ w < Z.of_nat cols →
  graph_inv weight cols st →
  ∃ st', add_cell_edges dp weight value i w st = Ok st'
         ∧ graph_inv weight cols st'.
Proof.
  intros Hi Hw Hst. unfold len in Hi.
  destruct (lookup_lt_is_Some_2 weight (Z.to_nat i)) as [wi Hwi]; [lia|].
  assert (0 ≤ wi) as Hwi0.
  { eapply Forall_lookup_1 in weights_nonneg; [|done]. done. }
  assert (getitem weight i = Ok wi) as Hgw.
  { rewrite <-(Z2Nat.id i) by lia. by apply getitem_lookup. }
  unfold add_cell_edges.
  destruct (get2_in_shape _ _ dp i w dp_shape) as [cur ->]; [lia..|].
  cbn [mbind result_bind bind].
  destruct (get_node_id_spec i w st Hst)
    as (nid_parent & st1 & -> & _ & Hparent1 & _ & Hst1).
  destruct (get2_in_shape _ _ dp (i + 1) w dp_shape) as [below Hbelow]; [lia..|].
  rewrite Hbelow. cbn [mbind result_bind bind].
  assert (∃ st2,
    (if bool_decide (below = cur)
     then let '(nid_child, st) := get_node_id (i + 1) w st1 in
          Ok (with_graph (Nx.add_edge nid_parent nid_child
                            ("skip item " +:+ pretty i)) st)
     else Ok st1) = Ok st2
    ∧ graph_inv weight cols st2
    ∧ node_id_map st2 !! (i, w) = Some nid_parent)
    as (st2 & -> & Hst2 & Hparent2).
  { case_bool_decide; [|eauto].
    destruct (get_node_id_spec (i + 1) w st1 Hst1)
      as (nid_child & st2 & -> & _ & Hchild & Hmono & Hst2).
    eexists. split; [done|]. split; [|by apply Hmono].
    eapply add_edge_inv; [done|by apply Hmono|done|]. left. eauto. }
  cbn [mbind result_bind bind]. rewrite Hgw. cbn [mbind result_bind bind].
  case_bool_decide as Hpick; [|eauto].
  destruct (get2_in_shape _ _ dp i (w - wi) dp_shape) as [y ->]; [lia..|].
  cbn [mbind result_bind bind].
  destruct (values_there _ _ Hwi) as [vi Hvi]; [lia|].
  assert (getitem value i = Ok vi) as ->.
  { rewrite <-(Z2Nat.id i) by lia. by apply getitem_lookup. }
  cbn [mbind result_bind bind].
  case_bool_decide; [|eauto].
  destruct (get_node_id_spec (i + 1) w st2 Hst2)
    as (nid_child & st3 & -> & _ & Hchild & Hmono & Hst3).
  eexists. split; [done|].
  eapply add_edge_inv; [done|by apply Hmono|done|].
  right. exists i, wi. split_and!; [done|lia|done|lia].
Qed.

(** The graph is built, and the invariant holds of the final state. *)
Lemma build_dp_graph_state_ok :
  ∃ st, build_dp_graph_state dp weight value = Ok st
        ∧ graph_inv weight cols st.
Proof.
  unfold build_dp_graph_state.
  destruct dp_shape as [Hrows Hcols].
  destruct (lookup_lt_is_Some_2 dp 0) as [row0 Hrow0]; [lia|].
  assert (getitem dp 0 = Ok row0) as ->
    by (by apply (getitem_lookup dp 0%nat)).
  cbn [mbind result_bind bind].
  assert (len row0 - 1 + 1 = Z.of_nat cols) as ->.
  { unfold len. rewrite (Hcols 0%nat row0) by done. lia. }
  assert (len dp - 1 = len weight) as Hn by (unfold len; lia).
  destruct (for_each_inv (graph_inv weight cols) (range (len dp - 1 + 1))
    (λ i st, for_each (range (Z.of_nat cols))
               (λ w st, add_cell_node dp i w st) st) init)
    as (st1 & -> & Hst1).
  { split_and!.
    - intros u v l. unfold Nx.has_edge, Nx.edge_label. simpl.
      by rewrite lookup_empty.
    - intros k id. simpl. by rewrite lookup_empty.
    - intros k1 k2 id. simpl. by rewrite lookup_empty.
    - intros u v. simpl. rewrite lookup_empty. by intros [? ?]. }
  { intros i st Hi%elem_of_seqZ Hst.
    apply for_each_inv; [done|].
    intros w st' Hw%elem_of_seqZ Hst'.
    apply add_cell_node_ok; [lia..|done]. }
  cbn [mbind result_bind bind].
  apply for_each_inv; [done|].
  intros i st Hi%elem_of_seqZ Hst.
  apply for_each_inv; [done|].
  intros w st' Hw%elem_of_seqZ Hst'.
  apply add_cell_edges_ok; [lia..|done].
Qed.

Lemma build_dp_graph_ok :
  ∃ g, build_dp_graph dp weight value = Ok g
       ∧ ∀ u v l, Nx.has_edge g u v l → edge_origin weight cols l.
Proof.
  destruct build_dp_graph_state_ok as (st & Hst & Hexp & _).
  exists (G st). unfold build_dp_graph. rewrite Hst. split; [done|]. apply Hexp.
Qed.

(** In a list without a repeated element whose elements are all equal
    there is one element at most. *)
Lemma length_NoDup_all_equal {A} (l : list A) :
  NoDup l → (∀ x y, x ∈ l → y ∈ l → x = y) → (length l ≤ 1)%nat.
Proof.
  intros Hnd Heq. destruct l as [|x [|y l]]; simpl; [lia..|].
  apply NoDup_cons in Hnd as [Hx _]. destruct Hx.
  rewrite (Heq x y); [left|left|right; left].
Qed.

(** No node of the graph has two incoming edges. *)
Lemma in_edges_at_most_one st v :
  graph_inv weight cols st → (length (Nx.in_edges (G st) v) ≤ 1)%nat.
Proof.
  intros (_ & _ & Hinj & Hlocal). unfold Nx.in_edges.
  apply length_NoDup_all_equal.
  - apply NoDup_filter, NoDup_fst_map_to_list.
  - assert (∀ e, e ∈ filter (λ e : Z * Z, e.2 = v)
                       (map fst (map_to_list (Nx.edges (G st)))) →
                 e.2 = v ∧ is_Some (Nx.edges (G st) !! e)) as Hin.
    { intros e [He Hmem]%list_elem_of_filter. split; [done|].
      apply list_elem_of_fmap in Hmem as ([e' attrs] & -> & Hmem).
      apply elem_of_map_to_list in Hmem. simpl. eauto. }
    intros [u1 v1] [u2 v2] [Hv1 He1]%Hin [Hv2 He2]%Hin. simpl in *. subst.
    destruct (Hlocal _ _ He1) as (i1 & w1 & Hu1 & Hc1).
    destruct (Hlocal _ _ He2) as (i2 & w2 & Hu2 & Hc2).
    pose proof (Hinj _ _ _ Hc1 Hc2) as [= Hi ->].
    assert (i1 = i2) as -> by lia. by simplify_eq.
Qed.

End dp_graph.

(** ** Parsing the text fields *)

Section parsing.
Import Text.







Lemma split_app sep a c :
  Py.split sep (a +:+ String sep c) = Py.split sep a ++ Py.split sep c.
Proof.
  induction a as [|ch a IH].
  - simpl. by rewrite bool_decide_eq_true_2.
  - change (String ch a +:+ String sep c) with (String ch (a +:+ String sep c)).
    simpl. rewrite IH. case_bool_decide; [done|].
    by destruct (split_nonempty sep a) as (t & ts & ->).
Qed.

Lemma text_split_nonempty sep s : ∃ t ts, split sep s = t :: ts.
Proof.
  induction s as [|c s (t & ts & IH)]; simpl; [eauto|].
  destruct (c =? sep)%N; [eauto|]. rewrite IH. eauto.
Qed.

Lemma text_split_app sep a c :
  split sep (a ++ sep :: c) = split sep a ++ split sep c.
Proof.
  induction a as [|ch a IH]; simpl.
  - by rewrite N.eqb_refl.
  - rewrite IH. destruct (ch =? sep)%N; [done|].
    by destruct (text_split_nonempty sep a) as (t & ts & ->).
Qed.

Lemma isspace_not_comma c : isspace c = true → (c =? comma)%N = false.
Proof.
  intros Hc. apply N.eqb_neq. intros ->. by vm_compute in Hc.
Qed.

Lemma strip_all_space b : all_space b = true → strip b = [].
Proof.
  unfold strip, all_space. induction b as [|c b IH]; simpl; [done|].
  intros [Hc Hb]%andb_true_iff. rewrite Hc. by apply IH.
Qed.

Lemma split_all_space b : all_space b = true → split comma b = [b].
Proof.
  unfold all_space. induction b as [|c b IH]; simpl; [done|].
  intros [Hc Hb]%andb_true_iff.
  rewrite (isspace_not_comma c Hc). by rewrite IH.
Qed.

Lemma ints_of_tokens_drop_blank ts1 b ts2 :
  all_space b = true →
  ints_of_tokens (ts1 ++ b :: ts2) = ints_of_tokens (ts1 ++ ts2).
Proof.
  intros Hb. induction ts1 as [|x ts1 IH]; simpl.
  - by rewrite strip_all_space.
  - by rewrite IH.
Qed.

Lemma split_comma_or_space s :
  all_comma_or_space s = true →
  Forall (λ t, all_space t = true) (split comma s).
Proof.
  unfold all_comma_or_space, all_space.
  induction s as [|c s IH]; simpl; [by repeat constructor|].
  intros [Hc Hs]%andb_true_iff. specialize (IH Hs).
  destruct (c =? comma)%N eqn:Hcomma; [by constructor|].
  simpl in Hc.
  destruct (text_split_nonempty comma s) as (t & ts & Hsplit).
  rewrite Hsplit in *. apply Forall_cons in IH as [Ht Hts].
  constructor; [|done]. simpl. by rewrite Hc, Ht.
Qed.

Lemma ints_of_blank_tokens ts :
  Forall (λ t, all_space t = true) ts → ints_of_tokens ts = Ok [].
Proof.
  induction 1 as [|t ts Ht _ IH]; simpl; [done|].
  by rewrite strip_all_space.
Qed.

(** [int] reads 4300 digits and refuses 4301, be they zeros. *)
Lemma int_max_digits :
  int (replicate 4300 0x39%N) = Ok (10 ^ 4300 - 1)
  ∧ int (replicate 4301 0x39%N) = Raise ValueError
  ∧ int (replicate 4301 0x30%N) = Raise ValueError.
Proof. split_and!; vm_compute; reflexivity. Qed.

End parsing.

(** ** The graphs of the DFS runs *)

Section dfs_graphs.
Import Visit.

Lemma getitem_elem {A} (l : list A) k x : getitem l k = Ok x → x ∈ l.
Proof.
  unfold getitem. intros (j & _ & Hj)%bind_Ok.
  destruct (l !! j) as [y|] eqn:Hy; [|done]. injection Hj as <-.
  by eapply list_elem_of_lookup_2.
Qed.

(** The graph of a Knapsack trace: a node per identifier, an edge per
    entry of the parent map. *)
Lemma knapsack_graph_ok (tr : list string) (pm : gmap string (string * string)) :
  ∃ g, Knapsack.create_tree_graph_from_trace tr pm = Ok g
       ∧ (∀ p c l, Nx.has_edge g p c l ↔ pm !! c = Some (p, l))
       ∧ (∀ x, x ∈ tr → is_Some (Nx.nodes g !! x)).
Proof.
  destruct (add_nodes_ok "display_label" tr Nx.empty)
    as (g0 & Hg0 & Hedges0 & Hnodes0).
  destruct (add_edges_spec pm g0 Hedges0) as [Hedge Hnode].
  exists (Knapsack.add_edges pm g0). split_and!.
  - unfold Knapsack.create_tree_graph_from_trace.
    change Knapsack.display_label with TargetSum.display_label.
    by rewrite Hg0.
  - apply Hedge.
  - intros x Hx. apply Hnode, Hnodes0. by left.
Qed.


(** With no capacity and items that weigh something, a call of [dfs]
    records "Skip" edges only. *)
Lemma knapsack_dfs_zero_capacity (weight value : list Z) (fuel : nat)
    (i v : Z) (parent_id : option string) (edge_label : string)
    (st st' : state) :
  Forall (λ x, 0 < x) weight →
  Knapsack.dfs weight value fuel i 0 v parent_id edge_label st = Ok st' →
  (∀ c p l, parent_map st !! c = Some (p, l) → skip_label l) →
  parent_id = None ∨ skip_label edge_label →
  ∀ c p l, parent_map st' !! c = Some (p, l) → skip_label l.
Proof.
  intros Hpos. revert i v parent_id edge_label st st'.
  induction fuel as [|fuel IH]; intros i v parent_id edge_label st st';
    [done|].
  cbn [Knapsack.dfs]. intros Hdfs Hst Hlabel.
  assert (∀ c p l,
    parent_map (visit (Knapsack.base_label i 0 v) parent_id edge_label st).2
      !! c = Some (p, l) → skip_label l) as Hst1.
  { intros c p l. simpl. destruct parent_id as [q|]; [|apply Hst].
    destruct Hlabel as [?|Hlabel]; [done|].
    destruct (decide (c = node_id (Knapsack.base_label i 0 v)
                            (next_count (Knapsack.base_label i 0 v) st)))
      as [->|Hne].
    - rewrite lookup_insert_eq. by intros [= _ <-].
    - rewrite lookup_insert_ne by done. apply Hst. }
  destruct (visit (Knapsack.base_label i 0 v) parent_id edge_label st)
    as [u st1]. simpl in Hst1.
  case_bool_decide; [by injection Hdfs as <-|].
  apply bind_Ok in Hdfs as (st2 & Hdfs2 & Hrest).
  apply bind_Ok in Hrest as (wi & Hwi & Hrest).
  apply getitem_elem in Hwi. eapply Forall_forall in Hpos; [|done].
  rewrite bool_decide_eq_false_2 in Hrest by lia. injection Hrest as <-.
  eapply IH; [done|done|]. right. by eexists.
Qed.

(** With no capacity and items that weigh something, a call of [dfs]
    returns whatever the list of values is: it never reads it. *)
Lemma knapsack_dfs_zero_capacity_ok (weight value : list Z) (fuel : nat)
    (i v : Z) (parent_id : option string) (edge_label : string) (st : state) :
  Forall (λ x, 0 < x) weight →
  0 ≤ i → (Z.to_nat (len weight - i) < fuel)%nat →
  ∃ st', Knapsack.dfs weight value fuel i 0 v parent_id edge_label st = Ok st'.
Proof.
  intros Hpos. revert i v parent_id edge_label st.
  induction fuel as [|fuel IH]; intros i v parent_id edge_label st Hi Hfuel;
    [lia|].
  cbn [Knapsack.dfs].
  destruct (visit (Knapsack.base_label i 0 v) parent_id edge_label st)
    as [u st1].
  case_bool_decide as Hend; [eauto|].
  destruct (IH (i + 1) v (Some u) ("Skip item " +:+ pretty i) st1)
    as [st2 ->]; [lia..|].
  cbn [mbind result_bind bind].
  destruct (getitem_in_range weight i) as (wi & Hwi & ->); [lia|].
  cbn [mbind result_bind bind].
  apply list_elem_of_lookup_2 in Hwi. eapply Forall_forall in Hpos; [|done].
  rewrite bool_decide_eq_false_2 by lia. eauto.
Qed.

End dfs_graphs.

(** C9, as the program has it: when every weight is positive, each
    enumerator run with capacity 0 returns, whatever the values, and its
    graph has no edge labelled as a pick. *)
Theorem no_pick_edge_at_capacity_zero (weight value : list Z) :
  Forall (λ x, 0 < x) weight →
  (∃ trace parent_map g,
     Knapsack.run_knapsack_dfs weight value 0 = Ok (trace, parent_map)
     ∧ Knapsack.create_tree_graph_from_trace trace parent_map = Ok g
     ∧ ∀ u v l (i : Z), Nx.has_edge g u v l → l ≠ "Pick item " +:+ pretty i)
  ∧ (∃ dp g,
       KnapsackDP.build_knapsack_dp_table weight value 0 = Ok dp
       ∧ KnapsackDP.build_dp_graph dp weight value = Ok g
       ∧ ∀ u v l (i : Z), Nx.has_edge g u v l → l ≠ "pick item " +:+ pretty i).
Proof.
  intros Hpos.
  assert (Forall (λ x, 0 ≤ x) weight) as Hnn.
  { eapply Forall_impl; [done|]. simpl. lia. }
  assert (∀ k wi, weight !! k = Some wi → 0 < wi) as Hlookup.
  { intros k wi Hwi%list_elem_of_lookup_2. by eapply Forall_forall in Hpos. }
  split.
  - destruct (knapsack_dfs_zero_capacity_ok weight value (S (length weight))
                0 0 None "" Visit.init Hpos) as [st Hdfs]; [lia|unfold len; lia|].
    destruct (knapsack_graph_ok (Visit.trace st) (Visit.parent_map st))
      as (g & Hg & Hedge & _).
    exists (Visit.trace st), (Visit.parent_map st), g. split_and!.
    + unfold Knapsack.run_knapsack_dfs. by rewrite Hdfs.
    + done.
    + intros u v l i Hl%Hedge ->.
      eapply knapsack_dfs_zero_capacity in Hl as [j Hj]; [|done|done| |by left].
      * by injection Hj.
      * intros c p l. simpl. by rewrite lookup_empty.
  - destruct (build_table_shape weight value 0) as (dp & Hbuild & Hshape).
    { intros k wi Hwi%Hlookup. split; lia. }
    destruct (build_dp_graph_ok dp weight value 1 Hnn) as (g & Hg & Hedges).
    { intros k wi Hwi%Hlookup. lia. }
    { replace (S (length weight)) with (Z.to_nat (len weight + 1))
        by (unfold len; lia). done. }
    exists dp, g. split; [done|]. split; [done|].
    intros u v l i [[j Hj]|(j & wj & _ & _ & Hwj%Hlookup & Hle)]%Hedges ->.
    + by injection Hj.
    + lia.
Qed.

Lemma no_pick_edge_at_capacity_zero_witness :
  (∃ trace parent_map g,
     Knapsack.run_knapsack_dfs [2; 3] [3; 4] 0 = Ok (trace, parent_map)
     ∧ Knapsack.create_tree_graph_from_trace trace parent_map = Ok g
     ∧ ∀ u v l (i : Z), Nx.has_edge g u v l → l ≠ "Pick item " +:+ pretty i)
  ∧ (∃ dp g,
       KnapsackDP.build_knapsack_dp_table [2; 3] [3; 4] 0 = Ok dp
       ∧ KnapsackDP.build_dp_graph dp [2; 3] [3; 4] = Ok g
       ∧ ∀ u v l (i : Z), Nx.has_edge g u v l → l ≠ "pick item " +:+ pretty i).
Proof.
  apply (no_pick_edge_at_capacity_zero [2; 3] [3; 4]).
  repeat constructor; lia.
Defined.

(** C9, where the claim fails: an item of weight 0 is picked at
    capacity 0, by the DFS enumerator and in the graph of the table. *)
Lemma pick_edge_at_capacity_zero :
  (λ g, Nx.edge_label g "dp(0,0,0)_1" "dp(1,0,5)_1")
    <$> App.knapsack_graph [0] [5] 0
  = Ok (Some "Pick item 0")
  ∧ (λ g, Nx.edge_label g 0 1) <$> App.knapsack_dp_graph [0] [5] 0
    = Ok (Some "pick item 0").
Proof. split; vm_compute; reflexivity. Qed.

(** ** The applications *)

Section applications.
Import App.





Lemma knapsack_dp_renders (ws vs : list Z) (W : Z) :
  length ws = length vs → Forall (λ x, 0 ≤ x) ws →
  ∃ g, knapsack_dp_graph ws vs W = Ok g.
Proof.
  intros Hlen Hnn. unfold knapsack_dp_graph.
  destruct (build_knapsack_dp_table_ok ws vs W Hlen Hnn)
    as (dp & -> & Hshape & _).
  destruct (build_dp_graph_ok dp ws vs (Z.to_nat (W + 1)) Hnn)
    as (g & Hg & _).
  { intros k wi Hk%lookup_lt_Some _. apply lookup_lt_is_Some_2. lia. }
  { replace (S (length ws)) with (Z.to_nat (len ws + 1))
      by (unfold len; lia). done. }
  exists g. done.
Qed.


(** The graph of the empty list of numbers: the root alone. *)
Lemma target_sum_empty (target : Z) :
  (λ r, (Nx.edges r.1.1, dom (Nx.nodes r.1.1)))
    <$> target_sum_graph [] target
  = Ok (∅, {[ "dfs(0, 0)_1" ]}).
Proof.
  unfold target_sum_graph, TargetSum.run_target_sum_dfs.
  cbn [length TargetSum.dfs]. change (len []) with 0.
  rewrite bool_decide_eq_true_2 by done.
  case_bool_decide; vm_compute; reflexivity.
Qed.

End applications.




(** C10: the pieces of a list that are empty or white space are dropped
    without an error, white space being all that [str.strip] removes, the
    no-break space and the other spaces beyond ASCII included.  A blank
    piece between two commas, before the first comma or after the last one
    does not change what is read; "1,,2" reads as [[1; 2]], and so does it
    with a no-break space between its commas; a text of commas and white
    space reads as the empty list, for which the two DFS applications
    render a graph of one node, the root, and no edge. *)
Theorem blank_tokens_are_dropped :
  (∀ a b c, all_space b = true →
     Text.parse_int_list (a ++ Text.comma :: b ++ Text.comma :: c)
     = Text.parse_int_list (a ++ Text.comma :: c))
  ∧ (∀ b c, all_space b = true →
       Text.parse_int_list (b ++ Text.comma :: c) = Text.parse_int_list c)
  ∧ (∀ a b, all_space b = true →
       Text.parse_int_list (a ++ Text.comma :: b) = Text.parse_int_list a)
  ∧ Text.parse_int_list (Text.of_string "1,,2") = Ok [1; 2]
  ∧ Text.parse_int_list (Text.of_string "1," ++ 0xA0%N :: Text.of_string ",2")
    = Ok [1; 2]
  ∧ (∀ s, all_comma_or_space s = true → Text.parse_int_list s = Ok [])
  ∧ (∀ weight_str value_str W,
       all_comma_or_space weight_str = true →
       all_comma_or_space value_str = true →
       ∃ g, App.knapsack weight_str value_str W = App.Rendered g
            ∧ Nx.edges g = ∅
            ∧ dom (Nx.nodes g)
              = {[ Visit.node_id (Knapsack.base_label 0 W 0) 1 ]})
  ∧ (∀ nums_str target,
       all_comma_or_space nums_str = true →
       ∃ g hl ways_count,
         App.target_sum nums_str target = App.Rendered (g, hl, ways_count)
         ∧ Nx.edges g = ∅
         ∧ dom (Nx.nodes g) = {[ "dfs(0, 0)_1" ]}).
Proof.
  assert (Hblank : ∀ s, all_comma_or_space s = true
                        → Text.parse_int_list s = Ok []).
  { intros s Hs. unfold Text.parse_int_list.
    by apply ints_of_blank_tokens, split_comma_or_space. }
  split_and!.
  - intros a b c Hb. unfold Text.parse_int_list.
    rewrite !text_split_app, (split_all_space b Hb). simpl.
    by apply ints_of_tokens_drop_blank.
  - intros b c Hb. unfold Text.parse_int_list.
    rewrite text_split_app, (split_all_space b Hb).
    by apply (ints_of_tokens_drop_blank []).
  - intros a b Hb. unfold Text.parse_int_list.
    rewrite text_split_app, (split_all_space b Hb).
    rewrite (ints_of_tokens_drop_blank _ b []) by done. by rewrite app_nil_r.
  - vm_compute; reflexivity.
  - vm_compute; reflexivity.
  - done.
  - intros ws vs W Hws Hvs. unfold App.knapsack, App.parse_two.
    rewrite (Hblank ws Hws), (Hblank vs Hvs).
    rewrite bool_decide_eq_false_2 by (by intros Hne; apply Hne).
    unfold App.knapsack_graph, Knapsack.run_knapsack_dfs.
    cbn [length Knapsack.dfs].
    change (len []) with 0. rewrite bool_decide_eq_true_2 by lia.
    cbn [mbind result_bind bind Visit.visit fst snd Visit.trace Visit.parent_map
         Visit.init app].
    unfold Knapsack.create_tree_graph_from_trace. rewrite for_each_cons.
    destruct (display_label_ok
                (Visit.node_id (Knapsack.base_label 0 W 0)
                   (Visit.next_count (Knapsack.base_label 0 W 0) Visit.init)))
      as [b Hb].
    change Knapsack.display_label with TargetSum.display_label. rewrite Hb.
    eexists. split; [done|]. unfold Knapsack.add_edges.
    rewrite map_fold_empty. split; [done|]. simpl.
    by rewrite dom_insert_L, dom_empty_L, (right_id_L ∅ (∪)).
  - intros s target Hs. unfold App.target_sum. rewrite (Hblank s Hs).
    pose proof (target_sum_empty target) as Hempty.
    destruct (App.target_sum_graph [] target) as [[[g hl] wc]| |];
      [|done..].
    injection Hempty as Hedges Hnodes. by exists g, hl, wc.
Qed.

Lemma blank_tokens_are_dropped_witness :
  Text.parse_int_list
    (Text.of_string "1" ++ Text.comma :: [0x20; 0xA0; 0x3000]%N
       ++ Text.comma :: Text.of_string "2")
  = Text.parse_int_list
      (Text.of_string "1" ++ Text.comma :: Text.of_string "2")
  ∧ Text.parse_int_list [0x20; 0x2C; 0x85; 0x2C; 0x2C; 0x2003]%N = Ok []
  ∧ (∃ g, App.knapsack (Text.of_string ", ") [0xA0%N] 5 = App.Rendered g
          ∧ Nx.edges g = ∅
          ∧ dom (Nx.nodes g)
            = {[ Visit.node_id (Knapsack.base_label 0 5 0) 1 ]})
  ∧ (∃ g hl ways_count,
       App.target_sum (Text.of_string ",,") 2
       = App.Rendered (g, hl, ways_count)
       ∧ Nx.edges g = ∅
       ∧ dom (Nx.nodes g) = {[ "dfs(0, 0)_1" ]}).
Proof.
  destruct blank_tokens_are_dropped
    as (Hdrop & _ & _ & _ & _ & Hblank & Hknap & Hts).
  split_and!.
  - apply (Hdrop (Text.of_string "1") [0x20; 0xA0; 0x3000]%N
             (Text.of_string "2")). reflexivity.
  - apply (Hblank [0x20; 0x2C; 0x85; 0x2C; 0x2C; 0x2003]%N). reflexivity.
  - apply (Hknap (Text.of_string ", ") [0xA0%N] 5); reflexivity.
  - apply (Hts (Text.of_string ",,") 2). reflexivity.
Defined.

(** ** What the graph of the table does with a pick *)

(** C1, on weights [2,3,4], values [3,4,5] and [W = 5]: at [i = 0] and
    [w = 2] the pick condition holds ([2 >= 2] and [T[1][2] = 3 = T[0][0] + 3]);
    the nodes of [(0,2)], [(1,0)] and [(1,2)] are 2, 6 and 8; the graph has
    no edge from the node of [(0,2)] to the node of [(1,0)], and its
    "pick item 0" edge from the node of [(0,2)] arrives at the node of
    [(1,2)], the child of the "skip" edge. *)
Theorem pick_edge_arrives_in_same_column :
  (λ dp, (KnapsackDP.get2 dp 1 2, KnapsackDP.get2 dp 0 0))
    <$> KnapsackDP.build_knapsack_dp_table [2; 3; 4] [3; 4; 5] 5
  = Ok (Ok 3, Ok 0)
  ∧ (λ st, (KnapsackDP.node_id_map st !! (0, 2),
            KnapsackDP.node_id_map st !! (1, 0),
            KnapsackDP.node_id_map st !! (1, 2)))
      <$> App.knapsack_dp_state [2; 3; 4] [3; 4; 5] 5
    = Ok (Some 2, Some 6, Some 8)
  ∧ (λ g, (Nx.edge_label g 2 6, Nx.edge_label g 2 8))
      <$> App.knapsack_dp_graph [2; 3; 4] [3; 4; 5] 5
    = Ok (None, Some "pick item 0").
Proof. split_and!; vm_compute; reflexivity. Qed.

(** C2, on weights [1,1], values [1,1] and [W = 1]: at [i = 1] and [w = 1]
    the skip condition ([T[2][1] = T[1][1]]) and the pick condition
    ([1 >= 1] and [T[2][1] = T[1][0] + 1]) both hold; the nodes of [(1,1)]
    and [(2,1)] are 3 and 5; the one edge between them is labelled
    "pick item 1", the label "skip item 1" written first being replaced,
    and no other edge arrives at the node of [(2,1)]. *)
Theorem tie_keeps_the_pick_label_only :
  (λ dp, (KnapsackDP.get2 dp 2 1, KnapsackDP.get2 dp 1 1, KnapsackDP.get2 dp 1 0))
    <$> KnapsackDP.build_knapsack_dp_table [1; 1] [1; 1] 1
  = Ok (Ok 1, Ok 1, Ok 0)
  ∧ (λ st, (KnapsackDP.node_id_map st !! (1, 1),
            KnapsackDP.node_id_map st !! (2, 1)))
      <$> App.knapsack_dp_state [1; 1] [1; 1] 1
    = Ok (Some 3, Some 5)
  ∧ (λ g, (Nx.edge_label g 3 5, Nx.in_edges g 5, Nx.labels_into g 5))
      <$> App.knapsack_dp_graph [1; 1] [1; 1] 1
    = Ok (Some "pick item 1", [(3, 5)], ["pick item 1"]).
Proof. split_and!; vm_compute; reflexivity. Qed.

(** The graph of the table in general: for validated input without a
    negative weight the graph is built; every edge, "skip" or "pick", goes
    from the node of a cell [(i, w)] to the node of the cell [(i+1, w)] below
    it; distinct cells have distinct nodes; so no edge goes from the node of
    [(i, w)] to the node of [(i+1, w - weight[i])] when [weight[i]] is not
    0, and no node has two incoming edges. *)
Theorem dp_graph_edges_stay_in_column (weight value : list Z) (W : Z) :
  length weight = length value →
  Forall (λ x, 0 ≤ x) weight →
  ∃ st,
    App.knapsack_dp_state weight value W = Ok st
    ∧ (∀ u v l, Nx.has_edge (KnapsackDP.G st) u v l →
         ∃ i w, KnapsackDP.node_id_map st !! (i, w) = Some u
                ∧ KnapsackDP.node_id_map st !! (i + 1, w) = Some v)
    ∧ (∀ k1 k2 id, KnapsackDP.node_id_map st !! k1 = Some id →
                   KnapsackDP.node_id_map st !! k2 = Some id → k1 = k2)
    ∧ (∀ i w wi u v l,
         weight !! Z.to_nat i = Some wi → wi ≠ 0 →
         KnapsackDP.node_id_map st !! (i, w) = Some u →
         KnapsackDP.node_id_map st !! (i + 1, w - wi) = Some v →
         ¬ Nx.has_edge (KnapsackDP.G st) u v l)
    ∧ (∀ v, (length (Nx.in_edges (KnapsackDP.G st) v) ≤ 1)%nat).
Proof.
  intros Hlen Hnn. unfold App.knapsack_dp_state.
  destruct (build_knapsack_dp_table_ok weight value W Hlen Hnn)
    as (dp & -> & Hshape & _).
  destruct (build_dp_graph_state_ok dp weight value (Z.to_nat (W + 1)) Hnn)
    as (st & Hst & Hinv).
  { intros k wi Hk%lookup_lt_Some _. apply lookup_lt_is_Some_2. lia. }
  { replace (S (length weight)) with (Z.to_nat (len weight + 1))
      by (unfold len; lia). done. }
  exists st. split; [done|].
  pose proof Hinv as (_ & _ & Hinj & Hlocal).
  assert (∀ u v l, Nx.has_edge (KnapsackDP.G st) u v l →
            ∃ i w, KnapsackDP.node_id_map st !! (i, w) = Some u
                   ∧ KnapsackDP.node_id_map st !! (i + 1, w) = Some v) as Hedge.
  { intros u v l Hl. apply Hlocal.
    unfold Nx.has_edge, Nx.edge_label in Hl.
    apply bind_Some in Hl as (attrs & -> & _). eauto. }
  split_and!; [done..| |].
  - intros i w wi u v l Hwi Hne Hu Hv (i' & w' & Hu' & Hv')%Hedge.
    pose proof (Hinj _ _ _ Hu Hu') as [= <- <-].
    pose proof (Hinj _ _ _ Hv Hv') as [= Hw]. lia.
  - intros v. by eapply in_edges_at_most_one.
Qed.

Lemma dp_graph_edges_stay_in_column_witness :
  ∃ st,
    App.knapsack_dp_state [2; 3; 4] [3; 4; 5] 5 = Ok st
    ∧ (∀ u v l, Nx.has_edge (KnapsackDP.G st) u v l →
         ∃ i w, KnapsackDP.node_id_map st !! (i, w) = Some u
                ∧ KnapsackDP.node_id_map st !! (i + 1, w) = Some v)
    ∧ (∀ k1 k2 id, KnapsackDP.node_id_map st !! k1 = Some id →
                   KnapsackDP.node_id_map st !! k2 = Some id → k1 = k2)
    ∧ (∀ i w wi u v l,
         [2; 3; 4] !! Z.to_nat i = Some wi → wi ≠ 0 →
         KnapsackDP.node_id_map st !! (i, w) = Some u →
         KnapsackDP.node_id_map st !! (i + 1, w - wi) = Some v →
         ¬ Nx.has_edge (KnapsackDP.G st) u v l)
    ∧ (∀ v, (length (Nx.in_edges (KnapsackDP.G st) v) ≤ 1)%nat).
Proof.
  apply (dp_graph_edges_stay_in_column [2; 3; 4] [3; 4; 5] 5).
  - reflexivity.
  - repeat constructor; lia.
Defined.

(** ** The graphs of the DFS programs are trees *)

Section tree_edges.
Import Spec Visit.

(** The attribute dictionaries of the edges the loop over the parent map
    leaves: one per child, holding its label only. *)
Lemma add_edges_lookup (pm : gmap string (string * string))
    (G0 : Nx.DiGraph string) :
  Nx.edges G0 = ∅ →
  ∀ p c attrs,
    Nx.edges (TargetSum.add_edges pm G0) !! (p, c) = Some attrs
    ↔ ∃ l, pm !! c = Some (p, l) ∧ attrs = {["label" := l]}.
Proof.
  intros Hempty. unfold TargetSum.add_edges.
  apply (map_fold_weak_ind (λ (r : Nx.DiGraph string) m,
    ∀ p c attrs, Nx.edges r !! (p, c) = Some attrs
                 ↔ ∃ l, m !! c = Some (p, l) ∧ attrs = {["label" := l]})).
  - intros p c attrs. rewrite Hempty, lookup_empty.
    split; [done|]. intros (l & Hl & _). by rewrite lookup_empty in Hl.
  - intros i [p' l'] m r Hi IH p c attrs. simpl.
    destruct (decide ((p', i) = (p, c))) as [[= -> ->]|Hne].
    + rewrite !lookup_insert_eq.
      assert (Nx.edges r !! (p, c) = None) as ->.
      { destruct (Nx.edges r !! (p, c)) as [a|] eqn:Ha; [|done].
        apply IH in Ha as (l & Hl & _). by rewrite Hi in Hl. }
      simpl. split.
      * intros [= <-]. by exists l'.
      * by intros (l & [= <-] & ->).
    + rewrite lookup_insert_ne by done.
      destruct (decide (i = c)) as [->|Hic].
      * rewrite lookup_insert_eq. rewrite IH. split.
        -- intros (l & Hl & _). by rewrite Hi in Hl.
        -- intros (l & [= -> ->] & _). done.
      * rewrite lookup_insert_ne by done. apply IH.
Qed.

Lemma touch_lookup (n x : string) ns a :
  ns !! x = Some a → Nx.touch n ns !! x = Some a.
Proof.
  intros Hx. unfold Nx.touch. destruct (ns !! n) eqn:Hn; [done|].
  rewrite lookup_insert_ne; [done|]. intros ->. by rewrite Hx in Hn.
Qed.

Lemma touch_is_Some_inv (n x : string) ns :
  is_Some (Nx.touch n ns !! x) → x = n ∨ is_Some (ns !! x).
Proof.
  unfold Nx.touch. destruct (ns !! n) eqn:Hn; [by right|].
  destruct (decide (n = x)) as [->|Hne]; [by left|].
  rewrite lookup_insert_ne by done. by right.
Qed.

(** The loop over the parent map keeps the attributes of the nodes that are
    there, and adds no node but a child or a parent of the map. *)
Lemma add_edges_nodes (pm : gmap string (string * string))
    (G0 : Nx.DiGraph string) :
  (∀ x a, Nx.nodes G0 !! x = Some a
          → Nx.nodes (TargetSum.add_edges pm G0) !! x = Some a)
  ∧ (∀ x, is_Some (Nx.nodes (TargetSum.add_edges pm G0) !! x)
          → is_Some (Nx.nodes G0 !! x) ∨ is_Some (pm !! x)
            ∨ ∃ c l, pm !! c = Some (x, l)).
Proof.
  unfold TargetSum.add_edges.
  apply (map_fold_weak_ind (λ (r : Nx.DiGraph string) m,
    (∀ x a, Nx.nodes G0 !! x = Some a → Nx.nodes r !! x = Some a)
    ∧ (∀ x, is_Some (Nx.nodes r !! x)
            → is_Some (Nx.nodes G0 !! x) ∨ is_Some (m !! x)
              ∨ ∃ c l, m !! c = Some (x, l)))).
  - split; [done|]. intros x Hx. by left.
  - intros i [p' l'] m r Hi [IHa IHn]. split.
    + intros x a Hx. simpl. by apply touch_lookup, touch_lookup, IHa.
    + intros x Hx. simpl in Hx.
      apply touch_is_Some_inv in Hx as [->|Hx].
      { right. left. rewrite lookup_insert_eq. eauto. }
      apply touch_is_Some_inv in Hx as [->|Hx].
      { right. right. exists i, l'. by rewrite lookup_insert_eq. }
      destruct (IHn x Hx) as [H0|[Hm|(c & l & Hc)]].
      * by left.
      * right. left. destruct (decide (i = x)) as [->|Hne].
        -- rewrite lookup_insert_eq. eauto.
        -- by rewrite lookup_insert_ne.
      * right. right. exists c, l.
        rewrite lookup_insert_ne; [done|]. intros ->. by rewrite Hi in Hc.
Qed.

(** The loop over a trace without a repeated identifier gives every
    identifier its display label as only attribute, and adds no edge. *)
Lemma add_nodes_lookup (key : string) (tr : list string) :
  NoDup tr →
  ∃ G',
    for_each tr (λ node_id G,
      base_label ← TargetSum.display_label node_id;
      Ok (Nx.add_node node_id key base_label G)) Nx.empty = Ok G'
    ∧ Nx.edges G' = ∅
    ∧ (∀ x, x ∈ tr → ∃ b, TargetSum.display_label x = Ok b
                          ∧ Nx.nodes G' !! x = Some {[key := b]})
    ∧ (∀ x, is_Some (Nx.nodes G' !! x) → x ∈ tr).
Proof.
  intros Hnd.
  cut (∀ G : Nx.DiGraph string,
        (∀ x, x ∈ tr → Nx.nodes G !! x = None) →
        ∃ G',
          for_each tr (λ node_id G,
            base_label ← TargetSum.display_label node_id;
            Ok (Nx.add_node node_id key base_label G)) G = Ok G'
          ∧ Nx.edges G' = Nx.edges G
          ∧ (∀ x, x ∈ tr → ∃ b, TargetSum.display_label x = Ok b
                                ∧ Nx.nodes G' !! x = Some {[key := b]})
          ∧ (∀ x, x ∉ tr → Nx.nodes G' !! x = Nx.nodes G !! x)).
  { intros Hcut. destruct (Hcut Nx.empty) as (G' & Hrun & He & Hin & Hout).
    { intros x _. apply lookup_empty. }
    exists G'. split_and!; [done..|].
    intros x Hx. destruct (decide (x ∈ tr)) as [|Hnin]; [done|].
    rewrite (Hout x Hnin) in Hx. simpl in Hx. rewrite lookup_empty in Hx.
    by destruct Hx. }
  induction Hnd as [|y tr Hy Hnd IH]; intros G HG.
  - exists G. split_and!; [done..| |done].
    intros x Hx. by apply elem_of_nil in Hx.
  - rewrite for_each_cons.
    destruct (display_label_ok y) as [b Hb]. rewrite Hb.
    cbn [mbind result_bind bind].
    destruct (IH (Nx.add_node y key b G)) as (G' & -> & He & Hin & Hout).
    { intros x Hx. simpl. rewrite lookup_insert_ne by (intros ->; done).
      apply HG. by right. }
    exists G'. split_and!; [done..| |].
    + intros x [->|Hx]%elem_of_cons; [|by apply Hin].
      exists b. split; [done|]. rewrite (Hout _ Hy). simpl.
      rewrite lookup_insert_eq. rewrite (HG y) by left. done.
    + intros x Hx. rewrite Hout by set_solver. simpl.
      rewrite lookup_insert_ne by set_solver. done.
Qed.

End tree_edges.

Section tree_shape.
Import Spec Visit.

(** A list without a repeated element that holds [x], and nothing but [x],
    is [[x]]. *)
Lemma NoDup_all_equal_singleton {A} (l : list A) (x : A) :
  NoDup l → x ∈ l → (∀ y, y ∈ l → y = x) → l = [x].
Proof.
  intros Hnd Hx Hall. destruct l as [|y [|z l]].
  - by apply elem_of_nil in Hx.
  - by rewrite (Hall y) by left.
  - apply NoDup_cons in Hnd as [Hy _]. destruct Hy.
    rewrite (Hall y), <-(Hall z); [left|right; left|left].
Qed.

Lemma elem_of_in_edges (g : Nx.DiGraph string) (v : string) (e : string * string) :
  e ∈ Nx.in_edges g v ↔ e.2 = v ∧ is_Some (Nx.edges g !! e).
Proof.
  unfold Nx.in_edges. rewrite list_elem_of_filter. split.
  - intros [He Hmem]. split; [done|].
    apply list_elem_of_fmap in Hmem as ([e' attrs] & -> & Hmem).
    apply elem_of_map_to_list in Hmem. simpl. eauto.
  - intros [He [attrs Hattrs]]. split; [done|].
    apply list_elem_of_fmap. exists (e, attrs). split; [done|].
    by apply elem_of_map_to_list.
Qed.

(** The graph of the trace and the parent map of a run: its nodes are the
    identifiers of the trace, each with its display label as only
    attribute; every node after the first has one incoming edge, from its
    parent, which comes before it in the trace; the first has none. *)
Lemma tree_graph_shape (key : string) (st : state) (root : string) :
  wf st → trace st !! 0%nat = Some root →
  ∃ G0,
    for_each (trace st) (λ node_id G,
      base_label ← TargetSum.display_label node_id;
      Ok (Nx.add_node node_id key base_label G)) Nx.empty = Ok G0
    ∧ (∀ x, is_Some (Nx.nodes (TargetSum.add_edges (parent_map st) G0) !! x)
            ↔ x ∈ trace st)
    ∧ (∀ x, x ∈ trace st →
         ∃ b, TargetSum.display_label x = Ok b
              ∧ Nx.nodes (TargetSum.add_edges (parent_map st) G0) !! x
                = Some {[key := b]})
    ∧ (∀ (j : nat) c, trace st !! S j = Some c →
         ∃ (i : nat) p l,
           (i ≤ j)%nat ∧ trace st !! i = Some p
           ∧ parent_map st !! c = Some (p, l)
           ∧ Nx.in_edges (TargetSum.add_edges (parent_map st) G0) c = [(p, c)]
           ∧ Nx.edge_label (TargetSum.add_edges (parent_map st) G0) p c
             = Some l)
    ∧ Nx.in_edges (TargetSum.add_edges (parent_map st) G0) root = [].
Proof.
  intros Hwf Hroot.
  destruct (add_nodes_lookup key (trace st) (wf_nodup _ Hwf))
    as (G0 & HG0 & Hedges0 & Hin & Hout).
  exists G0. split; [done|].
  pose proof (add_edges_lookup (parent_map st) G0 Hedges0) as Hlookup.
  destruct (add_edges_nodes (parent_map st) G0) as [Hkeep Honly].
  destruct (add_edges_spec (parent_map st) G0 Hedges0) as [Hedge _].
  split_and!.
  - intros x. split.
    + intros [H0|[[[p l] Hx]|(c & l & Hc)]]%Honly.
      * by apply Hout.
      * destruct (wf_parent _ Hwf _ _ _ Hx) as (i & j & _ & Hj & _).
        apply list_elem_of_lookup. eauto.
      * destruct (wf_parent _ Hwf _ _ _ Hc) as (i & j & Hi & _ & _).
        apply list_elem_of_lookup. eauto.
    + intros (b & _ & Hb)%Hin. apply Hkeep in Hb. eauto.
  - intros x (b & Hb & Hx)%Hin. exists b. split; [done|]. by apply Hkeep.
  - intros j c Hc.
    destruct (wf_child _ Hwf _ _ Hc) as [[p l] Hp].
    destruct (wf_parent _ Hwf _ _ _ Hp) as (i & j' & Hi & Hj' & Hij).
    assert (j' = S j) as ->.
    { eapply NoDup_lookup; [apply Hwf|done..]. }
    exists i, p, l. split; [lia|]. split; [done|]. split; [done|]. split.
    + apply NoDup_all_equal_singleton.
      * unfold Nx.in_edges. apply NoDup_filter, NoDup_fst_map_to_list.
      * apply elem_of_in_edges. split; [done|].
        exists {["label" := l]}. apply Hlookup. eauto.
      * intros [p' c'] [Hc' [attrs Hattrs]]%elem_of_in_edges.
        simpl in Hc'. subst c'. apply Hlookup in Hattrs as (l' & Hl' & _).
        rewrite Hp in Hl'. by injection Hl' as <- <-.
    + by apply Hedge.
  - destruct (Nx.in_edges _ root) as [|[p c] es] eqn:Hes; [done|].
    assert ((p, c) ∈ Nx.in_edges (TargetSum.add_edges (parent_map st) G0) root)
      as [Hc [attrs Hattrs]]%elem_of_in_edges by (rewrite Hes; left).
    simpl in Hc. subst c. apply Hlookup in Hattrs as (l & Hl & _).
    by rewrite (wf_root _ Hwf _ Hroot) in Hl.
Qed.

End tree_shape.

Section tree_sizes.
Import Spec Visit.

Lemma add_edges_size (pm : gmap string (string * string))
    (G0 : Nx.DiGraph string) :
  Nx.edges G0 = ∅ →
  size (Nx.edges (TargetSum.add_edges pm G0)) = size pm.
Proof.
  intros Hempty. unfold TargetSum.add_edges.
  apply (map_fold_weak_ind (λ (r : Nx.DiGraph string) m,
    (∀ p c, is_Some (Nx.edges r !! (p, c)) → is_Some (m !! c))
    ∧ size (Nx.edges r) = size m)).
  - rewrite Hempty. split; [|by rewrite !map_size_empty].
    intros p c. rewrite lookup_empty. by intros [? ?].
  - intros i [p' l'] m r Hi [IH Hsize]. simpl. split.
    + intros p c. destruct (decide ((p', i) = (p, c))) as [[= -> ->]|Hne].
      * rewrite !lookup_insert_eq. eauto.
      * rewrite lookup_insert_ne by done. intros Hpc%IH.
        destruct (decide (i = c)) as [->|Hic].
        -- rewrite lookup_insert_eq. eauto.
        -- by rewrite lookup_insert_ne.
    + rewrite !map_size_insert_None; [by rewrite Hsize|done|].
      destruct (Nx.edges r !! (p', i)) eqn:He; [|done].
      destruct (IH p' i) as [? Hm]; [eauto|]. by rewrite Hi in Hm.
Qed.

Lemma tree_graph_is_tree (key : string) (st : state) (root : string) :
  wf st → trace st !! 0%nat = Some root →
  ∃ G0,
    for_each (trace st) (λ node_id G,
      base_label ← TargetSum.display_label node_id;
      Ok (Nx.add_node node_id key base_label G)) Nx.empty = Ok G0
    ∧ Shape.is_tree (trace st) (parent_map st)
        (TargetSum.add_edges (parent_map st) G0) root.
Proof.
  intros Hwf Hroot.
  destruct (tree_graph_shape key st root Hwf Hroot)
    as (G0 & HG0 & Hnodes & _ & Hin & Hrootin).
  exists G0. split; [done|]. split_and!; [done..| |].
  - rewrite <-(size_dom (D := gset string)).
    assert (dom (Nx.nodes (TargetSum.add_edges (parent_map st) G0))
            = list_to_set (trace st)) as ->.
    { apply set_eq. intros x.
      by rewrite elem_of_dom, elem_of_list_to_set, Hnodes. }
    apply size_list_to_set, Hwf.
  - destruct (add_nodes_lookup key (trace st) (wf_nodup _ Hwf))
      as (G0' & HG0' & Hedges0 & _).
    rewrite HG0 in HG0'. injection HG0' as <-.
    by rewrite add_edges_size, (size_parent_map st Hwf).
Qed.

End tree_sizes.

(** C5: for every run of Target Sum the graph builder returns.  The graph
    it returns has the identifiers of the trace as its nodes and the entries
    of the parent map as its labelled edges, and the set of highlighted
    nodes it returns is the set of the nodes that lie on a path of this
    graph from the root (the first node of the trace, the first visit of the
    initial state) to a goal leaf, the root and the leaf included.  Every
    goal leaf is reached by such a path and is highlighted, and the root is
    highlighted as soon as there is a goal leaf. *)
Theorem highlighted_nodes_are_goal_paths (nums : list Z) (target : Z) :
  ∃ trace parent_map valid_leaves ways_count G highlighted_nodes,
    TargetSum.run_target_sum_dfs nums target
    = Ok (trace, parent_map, valid_leaves, ways_count)
    ∧ TargetSum.create_tree_graph_from_trace trace parent_map valid_leaves
      = Ok (G, highlighted_nodes)
    ∧ trace !! 0%nat = Some (Visit.node_id (TargetSum.base_label 0 0) 1)
    ∧ (∀ x, is_Some (Nx.nodes G !! x) ↔ x ∈ trace)
    ∧ (∀ p c l, Nx.has_edge G p c l ↔ parent_map !! c = Some (p, l))
    ∧ (∀ x, x ∈ highlighted_nodes
            ↔ ∃ leaf xs,
                leaf ∈ valid_leaves
                ∧ Spec.path G (Visit.node_id (TargetSum.base_label 0 0) 1)
                    xs leaf
                ∧ x ∈ xs)
    ∧ (∀ leaf, leaf ∈ valid_leaves →
         leaf ∈ highlighted_nodes
         ∧ ∃ xs, Spec.path G (Visit.node_id (TargetSum.base_label 0 0) 1)
                   xs leaf)
    ∧ (valid_leaves ≠ [] →
       Visit.node_id (TargetSum.base_label 0 0) 1 ∈ highlighted_nodes).
Proof.
  destruct (run_target_sum_dfs_calls nums target)
    as (st & Hdfs & Hrun & Htr & _).
  apply target_sum_dfs_wf in Hdfs as (Hwf & _ & Hvl);
    [|apply wf_init|done|by intros x Hx; apply elem_of_nil in Hx].
  set (root := Visit.node_id (TargetSum.base_label 0 0) 1).
  assert (Visit.trace (TargetSum.visited st) !! 0%nat = Some root) as Hroot.
  { rewrite Htr. destruct nums; simpl; by rewrite lookup_empty. }
  destruct (tree_graph_shape "base_label" _ _ Hwf Hroot)
    as (G0 & HG0 & Hnodes & _).
  destruct (add_nodes_lookup "base_label" _ (wf_nodup (TargetSum.visited st) Hwf))
    as (G0' & HG0' & Hedges0 & _).
  rewrite HG0 in HG0'. injection HG0' as <-.
  destruct (add_edges_spec (Visit.parent_map (TargetSum.visited st)) G0 Hedges0)
    as [Hedge _].
  destruct (highlight_spec _ Hwf _ Hvl) as (hl & Hhl & Hspec).
  set (G := TargetSum.add_edges (Visit.parent_map (TargetSum.visited st)) G0)
    in *.
  assert (∀ x, x ∈ Visit.trace (TargetSum.visited st)
               → is_Some (Nx.nodes G !! x)) as Hnode
    by (intros x Hx; by apply Hnodes).
  assert (∀ leaf, leaf ∈ TargetSum.valid_leaves st →
                  ∃ xs, Spec.path G root xs leaf ∧ root ∈ xs) as Hreach.
  { intros leaf Hleaf. pose proof (Hvl _ Hleaf) as Hin.
    pose proof Hin as [j Hj]%list_elem_of_lookup.
    destruct (ancestor_path _ Hwf G Hedge Hnode root leaf) as [xs Hxs];
      [by eapply (root_ancestor _ Hwf)|done|].
    exists xs. split; [done|].
    by destruct (path_ends _ Hwf G Hedge Hnode _ _ _ Hxs) as [? _]. }
  assert (∀ x, x ∈ hl ↔ ∃ leaf xs, leaf ∈ TargetSum.valid_leaves st
                                   ∧ Spec.path G root xs leaf ∧ x ∈ xs)
    as Hpaths.
  { intros x. rewrite Hspec. split.
    - intros (leaf & Hleaf & Hanc). exists leaf.
      eapply (on_root_path _ Hwf G Hedge Hnode) in Hanc as (xs & Hpath & Hx);
        eauto.
    - intros (leaf & xs & Hleaf & Hpath & Hx). exists leaf. split; [done|].
      eapply (on_root_path _ Hwf G Hedge Hnode); eauto. }
  exists (Visit.trace (TargetSum.visited st)),
    (Visit.parent_map (TargetSum.visited st)), (TargetSum.valid_leaves st),
    (TargetSum.ways_count st), G, hl.
  split; [done|]. split_and!.
  - unfold TargetSum.create_tree_graph_from_trace. rewrite HG0.
    cbn [mbind result_bind bind]. by rewrite Hhl.
  - done.
  - done.
  - done.
  - done.
  - intros leaf Hleaf. split.
    + apply Hspec. exists leaf. split; [done|constructor].
    + destruct (Hreach leaf Hleaf) as (xs & Hxs & _). eauto.
  - intros Hne. destruct (TargetSum.valid_leaves st) as [|leaf ls] eqn:Hls;
      [done|].
    destruct (Hreach leaf) as (xs & Hxs & Hin); [left|].
    apply Hpaths. exists leaf, xs. split; [left|done].
Qed.

(** The graphs of the two DFS programs are trees.  For validated input the
    Knapsack run and its graph builder return, and so do those of Target
    Sum for every input; the nodes of the graph are the identifiers of the
    trace, as many as the trace is long; the first identifier, that of the
    initial state, has no incoming edge; every other identifier has one
    incoming edge, from the parent recorded for it, which was visited
    before it; the graph has one edge less than it has nodes. *)
Theorem dfs_graphs_are_trees (weight value nums : list Z) (W target : Z) :
  length weight = length value →
  (∃ trace parent_map g,
     Knapsack.run_knapsack_dfs weight value W = Ok (trace, parent_map)
     ∧ Knapsack.create_tree_graph_from_trace trace parent_map = Ok g
     ∧ Shape.is_tree trace parent_map g
         (Visit.node_id (Knapsack.base_label 0 W 0) 1))
  ∧ (∃ trace parent_map valid_leaves ways_count g highlighted_nodes,
       TargetSum.run_target_sum_dfs nums target
       = Ok (trace, parent_map, valid_leaves, ways_count)
       ∧ TargetSum.create_tree_graph_from_trace trace parent_map valid_leaves
         = Ok (g, highlighted_nodes)
       ∧ Shape.is_tree trace parent_map g
           (Visit.node_id (TargetSum.base_label 0 0) 1)).
Proof.
  intros Hlen. split.
  - destruct (run_knapsack_dfs_calls weight value W Hlen)
      as (st & Hdfs & Hrun & Htr).
    apply knapsack_dfs_wf in Hdfs as [Hwf _]; [|apply wf_init|done].
    assert (Visit.trace st !! 0%nat
            = Some (Visit.node_id (Knapsack.base_label 0 W 0) 1)) as Hroot.
    { rewrite Htr. destruct (zip weight value) as [|[wi vi] items]; simpl;
        by rewrite lookup_empty. }
    destruct (tree_graph_is_tree "display_label" st _ Hwf Hroot)
      as (G0 & HG0 & Htree).
    eexists _, _, _. split; [done|]. split; [|done].
    unfold Knapsack.create_tree_graph_from_trace.
    change Knapsack.display_label with TargetSum.display_label.
    by rewrite HG0.
  - destruct (run_target_sum_dfs_calls nums target)
      as (st & Hdfs & Hrun & Htr & _).
    apply target_sum_dfs_wf in Hdfs as (Hwf & _ & Hvl);
      [|apply wf_init|done|by intros x Hx; apply elem_of_nil in Hx].
    assert (Visit.trace (TargetSum.visited st) !! 0%nat
            = Some (Visit.node_id (TargetSum.base_label 0 0) 1)) as Hroot.
    { rewrite Htr. destruct nums; simpl; by rewrite lookup_empty. }
    destruct (tree_graph_is_tree "base_label" _ _ Hwf Hroot)
      as (G0 & HG0 & Htree).
    destruct (highlight_spec _ Hwf _ Hvl) as (hl & Hhl & _).
    eexists _, _, _, _, _, hl. split; [done|]. split; [|done].
    unfold TargetSum.create_tree_graph_from_trace. rewrite HG0.
    cbn [mbind result_bind bind]. by rewrite Hhl.
Qed.

Lemma dfs_graphs_are_trees_witness :
  (∃ trace parent_map g,
     Knapsack.run_knapsack_dfs [1] [3] 1 = Ok (trace, parent_map)
     ∧ Knapsack.create_tree_graph_from_trace trace parent_map = Ok g
     ∧ Shape.is_tree trace parent_map g
         (Visit.node_id (Knapsack.base_label 0 1 0) 1))
  ∧ (∃ trace parent_map valid_leaves ways_count g highlighted_nodes,
       TargetSum.run_target_sum_dfs [1; 1] 0
       = Ok (trace, parent_map, valid_leaves, ways_count)
       ∧ TargetSum.create_tree_graph_from_trace trace parent_map valid_leaves
         = Ok (g, highlighted_nodes)
       ∧ Shape.is_tree trace parent_map g
           (Visit.node_id (TargetSum.base_label 0 0) 1)).
Proof.
  apply (dfs_graphs_are_trees [1] [3] [1; 1] 1 0). reflexivity.
Defined.

(** ** The sizes of the traces *)

Section sizes.
Import Spec.

Lemma length_knap_calls_bounds (items : list (Z * Z)) (i w v : Z) :
  (length items + 1 ≤ length (knap_calls items i w v))%nat
  ∧ (length (knap_calls items i w v) + 1 ≤ 2 ^ (length items + 1))%nat.
Proof.
  revert i w v. induction items as [|[wi vi] items IH]; intros i w v.
  { simpl. lia. }
  cbn [knap_calls length]. rewrite length_app.
  pose proof (IH (i + 1) w v) as [Hlo Hhi].
  replace (S (length items) + 1)%nat with (S (length items + 1)) by lia.
  rewrite Nat.pow_succ_r'.
  case_bool_decide.
  - pose proof (IH (i + 1) (w - wi) (v + vi)) as [Hlo' Hhi']. lia.
  - simpl. lia.
Qed.

Lemma length_knap_calls_full (items : list (Z * Z)) (i w v : Z) :
  Forall (λ p, 0 ≤ p.1) items → foldr Z.add 0 items.*1 ≤ w →
  (length (knap_calls items i w v) + 1 = 2 ^ (length items + 1))%nat.
Proof.
  revert i w v. induction items as [|[wi vi] items IH]; intros i w v Hnn Hsum.
  { done. }
  apply Forall_cons in Hnn as [Hwi Hnn]. csimpl in Hwi. csimpl in Hsum.
  assert (0 ≤ foldr Z.add 0 items.*1) as Hrest.
  { clear -Hnn. induction Hnn as [|[a b] l Ha Hl IHl]; csimpl in *; lia. }
  cbn [knap_calls length]. rewrite length_app.
  replace (S (length items) + 1)%nat with (S (length items + 1)) by lia.
  rewrite Nat.pow_succ_r'.
  rewrite bool_decide_eq_true_2 by lia.
  pose proof (IH (i + 1) w v Hnn) as H1.
  pose proof (IH (i + 1) (w - wi) (v + vi) Hnn) as H2. lia.
Qed.

Lemma length_knap_calls_none_fits (items : list (Z * Z)) (i w v : Z) :
  Forall (λ p, w < p.1) items →
  length (knap_calls items i w v) = (length items + 1)%nat.
Proof.
  revert i. induction items as [|[wi vi] items IH]; intros i Hall; [done|].
  apply Forall_cons in Hall as [Hwi Hall]. simpl in Hwi.
  cbn [knap_calls length]. rewrite bool_decide_eq_false_2 by lia.
  by rewrite app_nil_r, (IH (i + 1) Hall).
Qed.

Lemma length_ts_calls (nums : list Z) (i cur : Z) :
  (length (ts_calls nums i cur) + 1 = 2 ^ (length nums + 1))%nat.
Proof.
  revert i cur. induction nums as [|x nums IH]; intros i cur; [done|].
  cbn [ts_calls length]. rewrite length_app.
  replace (S (length nums) + 1)%nat with (S (length nums + 1)) by lia.
  rewrite Nat.pow_succ_r'.
  pose proof (IH (i + 1) (cur + x)). pose proof (IH (i + 1) (cur - x)). lia.
Qed.

End sizes.

Lemma Forall_zip_fst (P : Z → Prop) (weight value : list Z) :
  Forall P weight → Forall (λ p : Z * Z, P p.1) (zip weight value).
Proof.
  intros Hall. apply Forall_forall. intros [a b] Hab.
  apply elem_of_zip_l in Hab. simpl. by eapply Forall_forall in Hall.
Qed.

Lemma length_sign_assignments (n : nat) :
  length (Spec.sign_assignments n) = (2 ^ n)%nat.
Proof.
  induction n as [|n IH]; [done|].
  cbn [Spec.sign_assignments]. rewrite length_app, !length_map, IH.
  rewrite Nat.pow_succ_r'. lia.
Qed.

(** The sizes of the traces.  The trace of a Knapsack run on [n] items
    has at least [n + 1] identifiers (the chain of the "skip" children, which
    is the whole trace when every item is heavier than the capacity) and at
    most [2^(n+1) - 1], which it reaches when no weight is negative and the
    weights sum to the capacity at most.  The trace of a Target Sum run on
    [n] numbers has [2^(n+1) - 1] identifiers whatever the numbers, and the
    count of ways is at most [2^n].  In both programs the parent map has
    one entry less than the trace. *)
Theorem trace_sizes (weight value nums : list Z) (W target : Z) :
  length weight = length value →
  (∃ trace parent_map,
     Knapsack.run_knapsack_dfs weight value W = Ok (trace, parent_map)
     ∧ (length weight + 1 ≤ length trace)%nat
     ∧ (length trace + 1 ≤ 2 ^ (length weight + 1))%nat
     ∧ (Forall (λ x, 0 ≤ x) weight → foldr Z.add 0 weight ≤ W →
        (length trace + 1 = 2 ^ (length weight + 1))%nat)
     ∧ (Forall (λ x, W < x) weight →
        length trace = (length weight + 1)%nat)
     ∧ size parent_map = pred (length trace))
  ∧ (∃ trace parent_map valid_leaves (ways : nat),
       TargetSum.run_target_sum_dfs nums target
       = Ok (trace, parent_map, valid_leaves, Z.of_nat ways)
       ∧ (length trace + 1 = 2 ^ (length nums + 1))%nat
       ∧ size parent_map = pred (length trace)
       ∧ length valid_leaves = ways
       ∧ (ways ≤ 2 ^ length nums)%nat).
Proof.
  intros Hlen. split.
  - destruct (run_knapsack_dfs_calls weight value W Hlen)
      as (st & Hdfs & Hrun & Htr).
    apply knapsack_dfs_wf in Hdfs as [Hwf _]; [|apply wf_init|done].
    assert (length (Visit.trace st)
            = length (Spec.knap_calls (zip weight value) 0 W 0)) as Hlt
      by (by rewrite Htr, length_number_visits, length_map).
    assert (length (zip weight value) = length weight) as Hzip
      by (rewrite length_zip_with; lia).
    eexists _, _. split; [done|]. rewrite Hlt, <-Hzip.
    pose proof (length_knap_calls_bounds (zip weight value) 0 W 0) as [? ?].
    split_and!; [done..| | |].
    + intros Hnn Hsum. apply length_knap_calls_full.
      * by apply (Forall_zip_fst (λ x, 0 ≤ x)).
      * rewrite fst_zip by lia. done.
    + intros Hall. apply length_knap_calls_none_fits.
      by apply (Forall_zip_fst (λ x, W < x)).
    + by rewrite (size_parent_map st Hwf), Hlt.
  - destruct (run_target_sum_dfs_calls nums target)
      as (st & Hdfs & Hrun & Htr & Hvl & Hwc).
    apply target_sum_dfs_wf in Hdfs as (Hwf & _ & _);
      [|apply wf_init|done|by intros x Hx; apply elem_of_nil in Hx].
    assert (length (Visit.trace (TargetSum.visited st))
            = length (Spec.ts_calls nums 0 0)) as Hlt
      by (by rewrite Htr, length_number_visits, length_map).
    exists (Visit.trace (TargetSum.visited st)),
      (Visit.parent_map (TargetSum.visited st)), (TargetSum.valid_leaves st),
      (Spec.count_ways nums target).
    rewrite <-Hwc. split; [done|]. split_and!.
    + rewrite Hlt. apply length_ts_calls.
    + apply (size_parent_map _ Hwf).
    + rewrite Hvl, length_goal_ids by done.
      pose proof (ts_goals_count nums target nums 0 0) as Hcount.
      rewrite Hcount by lia. done.
    + unfold Spec.count_ways.
      rewrite <-(length_sign_assignments (length nums)).
      apply length_filter.
Qed.

Lemma trace_sizes_witness :
  (∃ trace parent_map,
     Knapsack.run_knapsack_dfs [2; 3] [3; 4] 5 = Ok (trace, parent_map)
     ∧ (length [2; 3] + 1 ≤ length trace)%nat
     ∧ (length trace + 1 ≤ 2 ^ (length [2; 3] + 1))%nat
     ∧ (Forall (λ x, 0 ≤ x) [2; 3] → foldr Z.add 0 [2; 3] ≤ 5 →
        (length trace + 1 = 2 ^ (length [2; 3] + 1))%nat)
     ∧ (Forall (λ x, 5 < x) [2; 3] →
        length trace = (length [2; 3] + 1)%nat)
     ∧ size parent_map = pred (length trace))
  ∧ (∃ trace parent_map valid_leaves (ways : nat),
       TargetSum.run_target_sum_dfs [1; 1; 1] 1
       = Ok (trace, parent_map, valid_leaves, Z.of_nat ways)
       ∧ (length trace + 1 = 2 ^ (length [1; 1; 1] + 1))%nat
       ∧ size parent_map = pred (length trace)
       ∧ length valid_leaves = ways
       ∧ (ways ≤ 2 ^ length [1; 1; 1])%nat).
Proof.
  apply (trace_sizes [2; 3] [3; 4] [1; 1; 1] 5 1). reflexivity.
Defined.

(** ** Identifiers and display labels *)

Section labels.
Import Spec Visit.

Lemma no_underscore_append (a b : string) :
  no_underscore a → no_underscore b → no_underscore (a +:+ b).
Proof.
  intros Ha Hb. induction a as [|c a IH]; [done|].
  destruct Ha as [Hc Ha]. split; [done|]. by apply IH.
Qed.

Lemma knapsack_base_label_no_underscore (i w v : Z) :
  no_underscore (Knapsack.base_label i w v).
Proof.
  unfold Knapsack.base_label.
  repeat (apply no_underscore_append;
          [first [apply pretty_Z_no_underscore | by repeat split]|]).
  by repeat split.
Qed.

Lemma target_sum_base_label_no_underscore (i cur : Z) :
  no_underscore (TargetSum.base_label i cur).
Proof.
  unfold TargetSum.base_label.
  repeat (apply no_underscore_append;
          [first [apply pretty_Z_no_underscore | by repeat split]|]).
  by repeat split.
Qed.

Lemma split_no_underscore (b : string) :
  no_underscore b → split "_" b = [b].
Proof.
  induction b as [|c b IH]; [done|]. intros [Hc Hb]. simpl.
  rewrite bool_decide_eq_false_2 by done. by rewrite IH.
Qed.

(** The display label of an identifier is the base label it was made
    from, when that label has no underscore. *)
Lemma display_label_node_id (b : string) (c : Z) :
  no_underscore b → TargetSum.display_label (node_id b c) = Ok b.
Proof.
  intros Hb. unfold TargetSum.display_label, node_id.
  change ("_" +:+ pretty c) with (String "_" (pretty c)).
  rewrite split_app, (split_no_underscore b Hb).
  by apply (getitem_lookup (_ :: _) 0%nat).
Qed.

(** The identifier of a visit: the base label and one more than the number
    of the earlier visits of that label. *)
Lemma number_visits_lookup (seen : gmap string Z) (labels : list string)
    (j : nat) (b : string) :
  labels !! j = Some b →
  number_visits seen labels !! j
  = Some (node_id b (default 0 (seen !! b)
                     + Z.of_nat (length (filter (λ b', b' = b) (take j labels)))
                     + 1)).
Proof.
  revert seen j. induction labels as [|b0 labels IH]; intros seen j Hj;
    [done|].
  destruct j as [|j].
  - injection Hj as ->. simpl. do 2 f_equal. lia.
  - simpl in Hj. cbn [number_visits take lookup list_lookup].
    rewrite (IH _ j Hj). do 2 f_equal. rewrite filter_cons.
    destruct (decide (b0 = b)) as [->|Hne].
    + rewrite lookup_insert_eq. simpl. lia.
    + rewrite lookup_insert_ne by done. lia.
Qed.

End labels.

(** The identifier of every visit.  The visit number [j] of a run, of a
    state whose base label is [b], gets the identifier [b_k] where [k] is
    one more than the number of the visits before it whose base label is
    [b]: the visits of one label are numbered 1, 2, 3, ... in the order of
    the trace. *)
Theorem identifiers_number_the_visits (weight value nums : list Z)
    (W target : Z) :
  length weight = length value →
  (∃ trace,
     fst <$> Knapsack.run_knapsack_dfs weight value W = Ok trace
     ∧ ∀ (j : nat) b,
         map Spec.knap_label (Spec.knap_calls (zip weight value) 0 W 0) !! j
         = Some b →
         trace !! j
         = Some (Visit.node_id b
                   (Z.of_nat (length (filter (λ b', b' = b)
                      (take j (map Spec.knap_label
                         (Spec.knap_calls (zip weight value) 0 W 0))))) + 1)))
  ∧ (∃ trace,
       (λ r, r.1.1.1) <$> TargetSum.run_target_sum_dfs nums target = Ok trace
       ∧ ∀ (j : nat) b,
           map Spec.ts_label (Spec.ts_calls nums 0 0) !! j = Some b →
           trace !! j
           = Some (Visit.node_id b
                     (Z.of_nat (length (filter (λ b', b' = b)
                        (take j (map Spec.ts_label
                           (Spec.ts_calls nums 0 0))))) + 1))).
Proof.
  intros Hlen. split.
  - destruct (run_knapsack_dfs_calls weight value W Hlen)
      as (st & _ & Hrun & Htr).
    exists (Visit.trace st). rewrite Hrun. split; [done|].
    intros j b Hb. rewrite Htr.
    by rewrite (number_visits_lookup _ _ _ _ Hb), lookup_empty.
  - destruct (run_target_sum_dfs_calls nums target)
      as (st & _ & Hrun & Htr & _).
    exists (Visit.trace (TargetSum.visited st)). rewrite Hrun.
    split; [done|]. intros j b Hb. rewrite Htr.
    by rewrite (number_visits_lookup _ _ _ _ Hb), lookup_empty.
Qed.

Lemma identifiers_number_the_visits_witness :
  (∃ trace,
     fst <$> Knapsack.run_knapsack_dfs [1; 1] [2; 2] 1 = Ok trace
     ∧ ∀ (j : nat) b,
         map Spec.knap_label (Spec.knap_calls (zip [1; 1] [2; 2]) 0 1 0) !! j
         = Some b →
         trace !! j
         = Some (Visit.node_id b
                   (Z.of_nat (length (filter (λ b', b' = b)
                      (take j (map Spec.knap_label
                         (Spec.knap_calls (zip [1; 1] [2; 2]) 0 1 0))))) + 1)))
  ∧ (∃ trace,
       (λ r, r.1.1.1) <$> TargetSum.run_target_sum_dfs [1; 1] 0 = Ok trace
       ∧ ∀ (j : nat) b,
           map Spec.ts_label (Spec.ts_calls [1; 1] 0 0) !! j = Some b →
           trace !! j
           = Some (Visit.node_id b
                     (Z.of_nat (length (filter (λ b', b' = b)
                        (take j (map Spec.ts_label
                           (Spec.ts_calls [1; 1] 0 0))))) + 1))).
Proof.
  apply (identifiers_number_the_visits [1; 1] [2; 2] [1; 1] 1 0). reflexivity.
Defined.

(** The display labels.  In the graph of a run every node has one
    attribute, its display label, and the display label of the node of a
    visit is the base label of the state visited: cutting the identifier at
    its first underscore gives back the label the identifier was made
    from, whatever the numbers in it. *)
Theorem display_label_is_base_label (weight value nums : list Z)
    (W target : Z) :
  length weight = length value →
  (∀ i w v c,
     Knapsack.display_label (Visit.node_id (Knapsack.base_label i w v) c)
     = Ok (Knapsack.base_label i w v))
  ∧ (∀ i cur c,
       TargetSum.display_label (Visit.node_id (TargetSum.base_label i cur) c)
       = Ok (TargetSum.base_label i cur))
  ∧ (∃ trace parent_map g,
       Knapsack.run_knapsack_dfs weight value W = Ok (trace, parent_map)
       ∧ Knapsack.create_tree_graph_from_trace trace parent_map = Ok g
       ∧ ∀ (j : nat) i w v,
           Spec.knap_calls (zip weight value) 0 W 0 !! j = Some (i, w, v) →
           ∃ x, trace !! j = Some x
                ∧ Nx.nodes g !! x
                  = Some {["display_label" := Knapsack.base_label i w v]})
  ∧ (∃ trace parent_map valid_leaves ways_count g highlighted_nodes,
       TargetSum.run_target_sum_dfs nums target
       = Ok (trace, parent_map, valid_leaves, ways_count)
       ∧ TargetSum.create_tree_graph_from_trace trace parent_map valid_leaves
         = Ok (g, highlighted_nodes)
       ∧ ∀ (j : nat) i cur,
           Spec.ts_calls nums 0 0 !! j = Some (i, cur) →
           ∃ x, trace !! j = Some x
                ∧ Nx.nodes g !! x
                  = Some {["base_label" := TargetSum.base_label i cur]}).
Proof.
  intros Hlen.
  assert (∀ i w v c,
    TargetSum.display_label (Visit.node_id (Knapsack.base_label i w v) c)
    = Ok (Knapsack.base_label i w v)) as Hknap.
  { intros i w v c. apply display_label_node_id,
      knapsack_base_label_no_underscore. }
  assert (∀ i cur c,
    TargetSum.display_label (Visit.node_id (TargetSum.base_label i cur) c)
    = Ok (TargetSum.base_label i cur)) as Hts.
  { intros i cur c. apply display_label_node_id,
      target_sum_base_label_no_underscore. }
  split; [done|]. split; [done|]. split.
  - destruct (run_knapsack_dfs_calls weight value W Hlen)
      as (st & Hdfs & Hrun & Htr).
    apply knapsack_dfs_wf in Hdfs as [Hwf _]; [|apply wf_init|done].
    assert (∃ root, Visit.trace st !! 0%nat = Some root) as [root Hroot].
    { rewrite Htr. destruct (zip weight value) as [|[wi vi] items]; simpl;
        eauto. }
    destruct (tree_graph_shape "display_label" st root Hwf Hroot)
      as (G0 & HG0 & _ & Hattr & _).
    eexists _, _, _. split; [done|]. split.
    { unfold Knapsack.create_tree_graph_from_trace.
      change Knapsack.display_label with TargetSum.display_label.
      by rewrite HG0. }
    intros j i w v Hj.
    assert (map Spec.knap_label (Spec.knap_calls (zip weight value) 0 W 0) !! j
            = Some (Knapsack.base_label i w v)) as Hb.
    { change (map ?f ?l) with (f <$> l). by rewrite list_lookup_fmap, Hj. }
    eexists. split.
    { rewrite Htr. apply (number_visits_lookup _ _ _ _ Hb). }
    destruct (Hattr (Visit.node_id (Knapsack.base_label i w v)
      (default 0 ((∅ : gmap string Z) !! Knapsack.base_label i w v)
       + Z.of_nat (length (filter (λ b', b' = Knapsack.base_label i w v)
           (take j (map Spec.knap_label
              (Spec.knap_calls (zip weight value) 0 W 0))))) + 1)))
      as (b & Hdl & Hnode).
    { apply list_elem_of_lookup. exists j. rewrite Htr.
      apply (number_visits_lookup _ _ _ _ Hb). }
    rewrite Hknap in Hdl. by injection Hdl as <-.
  - destruct (run_target_sum_dfs_calls nums target)
      as (st & Hdfs & Hrun & Htr & _).
    apply target_sum_dfs_wf in Hdfs as (Hwf & _ & Hvl);
      [|apply wf_init|done|by intros x Hx; apply elem_of_nil in Hx].
    assert (∃ root, Visit.trace (TargetSum.visited st) !! 0%nat = Some root)
      as [root Hroot].
    { rewrite Htr. destruct nums; simpl; eauto. }
    destruct (tree_graph_shape "base_label" _ root Hwf Hroot)
      as (G0 & HG0 & _ & Hattr & _).
    destruct (highlight_spec _ Hwf _ Hvl) as (hl & Hhl & _).
    eexists _, _, _, _, _, hl. split; [done|]. split.
    { unfold TargetSum.create_tree_graph_from_trace. rewrite HG0.
      cbn [mbind result_bind bind]. by rewrite Hhl. }
    intros j i cur Hj.
    assert (map Spec.ts_label (Spec.ts_calls nums 0 0) !! j
            = Some (TargetSum.base_label i cur)) as Hb.
    { change (map ?f ?l) with (f <$> l). by rewrite list_lookup_fmap, Hj. }
    eexists. split.
    { rewrite Htr. apply (number_visits_lookup _ _ _ _ Hb). }
    destruct (Hattr (Visit.node_id (TargetSum.base_label i cur)
      (default 0 ((∅ : gmap string Z) !! TargetSum.base_label i cur)
       + Z.of_nat (length (filter (λ b', b' = TargetSum.base_label i cur)
           (take j (map Spec.ts_label (Spec.ts_calls nums 0 0))))) + 1)))
      as (b & Hdl & Hnode).
    { apply list_elem_of_lookup. exists j. rewrite Htr.
      apply (number_visits_lookup _ _ _ _ Hb). }
    rewrite Hts in Hdl. by injection Hdl as <-.
Qed.

Lemma display_label_is_base_label_witness :
  (∀ i w v c,
     Knapsack.display_label (Visit.node_id (Knapsack.base_label i w v) c)
     = Ok (Knapsack.base_label i w v))
  ∧ (∀ i cur c,
       TargetSum.display_label (Visit.node_id (TargetSum.base_label i cur) c)
       = Ok (TargetSum.base_label i cur))
  ∧ (∃ trace parent_map g,
       Knapsack.run_knapsack_dfs [1; 1] [2; 2] 1 = Ok (trace, parent_map)
       ∧ Knapsack.create_tree_graph_from_trace trace parent_map = Ok g
       ∧ ∀ (j : nat) i w v,
           Spec.knap_calls (zip [1; 1] [2; 2]) 0 1 0 !! j = Some (i, w, v) →
           ∃ x, trace !! j = Some x
                ∧ Nx.nodes g !! x
                  = Some {["display_label" := Knapsack.base_label i w v]})
  ∧ (∃ trace parent_map valid_leaves ways_count g highlighted_nodes,
       TargetSum.run_target_sum_dfs [1; -1] 0
       = Ok (trace, parent_map, valid_leaves, ways_count)
       ∧ TargetSum.create_tree_graph_from_trace trace parent_map valid_leaves
         = Ok (g, highlighted_nodes)
       ∧ ∀ (j : nat) i cur,
           Spec.ts_calls [1; -1] 0 0 !! j = Some (i, cur) →
           ∃ x, trace !! j = Some x
                ∧ Nx.nodes g !! x
                  = Some {["base_label" := TargetSum.base_label i cur]}).
Proof.
  apply (display_label_is_base_label [1; 1] [2; 2] [1; -1] 1 0). reflexivity.
Defined.

(** ** The entries of the DP table *)

Section table_facts.
Import Spec KnapsackDP.

Lemma knap_best_mono (items : list (Z * Z)) (w w' : Z) :
  w ≤ w' → knap_best items w ≤ knap_best items w'.
Proof.
  revert w w'. induction items as [|[wi vi] items IH]; intros w w' Hw;
    [done|].
  cbn [knap_best].
  pose proof (IH w w' Hw). pose proof (IH (w - wi) (w' - wi)).
  repeat case_bool_decide; lia.
Qed.

Lemma tab_mono_capacity (weight value : list Z) (i w w' : Z) :
  w ≤ w' → tab weight value i w ≤ tab weight value i w'.
Proof. apply knap_best_mono. Qed.

Lemma tab_mono_items (weight value : list Z) (i i' w : Z) :
  length weight = length value →
  0 ≤ i ≤ i' → i' ≤ len weight →
  tab weight value i w ≤ tab weight value i' w.
Proof.
  intros Hlen [Hi Hii'] Hn.
  replace i' with (i + Z.of_nat (Z.to_nat (i' - i))) in * by lia.
  induction (Z.to_nat (i' - i)) as [|k IH].
  { by rewrite Z.add_0_r. }
  etrans; [apply IH; lia|].
  replace (i + Z.of_nat (S k)) with (i + Z.of_nat k + 1) in * by lia.
  unfold len in Hn.
  destruct (lookup_lt_is_Some_2 weight (Z.to_nat (i + Z.of_nat k)))
    as [wi Hwi]; [lia|].
  destruct (lookup_lt_is_Some_2 value (Z.to_nat (i + Z.of_nat k)))
    as [vi Hvi]; [lia|].
  rewrite (tab_step weight value Hlen (i + Z.of_nat k + 1) w wi vi);
    [|lia|by replace (i + Z.of_nat k + 1 - 1) with (i + Z.of_nat k) by lia..].
  replace (i + Z.of_nat k + 1 - 1) with (i + Z.of_nat k) by lia.
  case_bool_decide; lia.
Qed.

Lemma index_nonneg_inv {A} (l : list A) (k : Z) (j : nat) :
  0 ≤ k → index l k = Ok j → j = Z.to_nat k ∧ 0 ≤ k < len l.
Proof.
  intros Hk. unfold index. cbv zeta.
  rewrite (bool_decide_eq_false_2 (k < 0)) by lia.
  case_bool_decide; [|done]. by intros [= <-].
Qed.

Lemma getitem_nonneg_inv {A} (l : list A) (k : Z) (x : A) :
  0 ≤ k → getitem l k = Ok x → l !! Z.to_nat k = Some x.
Proof.
  intros Hk. unfold getitem. intros (j & Hj & Hx)%bind_Ok.
  apply index_nonneg_inv in Hj as [-> _]; [|done].
  destruct (l !! Z.to_nat k) as [y|]; [|done]. by injection Hx as ->.
Qed.

Lemma get2_cell_inv (dp : list (list Z)) (i w x : Z) :
  0 ≤ i → 0 ≤ w → get2 dp i w = Ok x → cell dp i w = Some x.
Proof.
  intros Hi Hw. unfold get2. intros (row & Hrow & Hx)%bind_Ok.
  apply getitem_nonneg_inv in Hrow; [|done].
  apply getitem_nonneg_inv in Hx; [|done].
  apply cell_Some. eauto.
Qed.

End table_facts.

(** The table of the DP program follows the recurrence of its docstring.
    For validated input without a negative weight the table is built; it
    has [n + 1] rows of [W + 1] entries (none when [W] is negative); row 0
    holds zeros; and the entry [dp[i][w]] of a later row is [dp[i-1][w]]
    when item [i-1] is heavier than [w], and otherwise the greater of
    [dp[i-1][w]] and [dp[i-1][w - weight[i-1]] + value[i-1]]. *)
Theorem dp_table_follows_recurrence (weight value : list Z) (W : Z) :
  length weight = length value →
  Forall (λ x, 0 ≤ x) weight →
  ∃ dp,
    KnapsackDP.build_knapsack_dp_table weight value W = Ok dp
    ∧ length dp = S (length weight)
    ∧ (∀ row, row ∈ dp → length row = Z.to_nat (W + 1))
    ∧ (∀ w, 0 ≤ w ≤ W → KnapsackDP.get2 dp 0 w = Ok 0)
    ∧ (∀ i w wi vi,
         1 ≤ i ≤ len weight → 0 ≤ w ≤ W →
         getitem weight (i - 1) = Ok wi → getitem value (i - 1) = Ok vi →
         ∃ skip,
           KnapsackDP.get2 dp (i - 1) w = Ok skip
           ∧ if bool_decide (w >= wi)
             then ∃ pick,
                    KnapsackDP.get2 dp (i - 1) (w - wi) = Ok pick
                    ∧ KnapsackDP.get2 dp i w = Ok (Z.max skip (pick + vi))
             else KnapsackDP.get2 dp i w = Ok skip).
Proof.
  intros Hlen Hnn.
  destruct (build_knapsack_dp_table_ok weight value W Hlen Hnn)
    as (dp & Hbuild & [Hrows Hcols] & Hcells).
  exists dp. split; [done|]. split_and!.
  - rewrite Hrows. unfold len. lia.
  - intros row [k Hk]%list_elem_of_lookup. by eapply Hcols.
  - intros w Hw. apply get2_of_cell; [lia..|].
    rewrite Hcells by (unfold len; lia). done.
  - intros i w wi vi Hi Hw Hwi Hvi.
    destruct (item_lookup weight value Hlen Hnn i Hi)
      as (wi' & vi' & Hlw & Hlv & Hwi0 & Hgw & Hgv).
    rewrite Hgw in Hwi. rewrite Hgv in Hvi.
    injection Hwi as ->. injection Hvi as ->.
    exists (tab weight value (i - 1) w). split.
    { apply get2_of_cell; [lia..|]. apply Hcells; lia. }
    pose proof (tab_step weight value Hlen i w wi vi) as Hstep.
    case_bool_decide.
    + exists (tab weight value (i - 1) (w - wi)). split.
      * apply get2_of_cell; [lia..|]. apply Hcells; lia.
      * apply get2_of_cell; [lia..|]. rewrite <-Hstep by (done || lia).
        apply Hcells; lia.
    + apply get2_of_cell; [lia..|]. rewrite <-Hstep by (done || lia).
      apply Hcells; lia.
Qed.

Lemma dp_table_follows_recurrence_witness :
  ∃ dp,
    KnapsackDP.build_knapsack_dp_table [2; 3; 4] [3; 4; 5] 5 = Ok dp
    ∧ length dp = S (length [2; 3; 4])
    ∧ (∀ row, row ∈ dp → length row = Z.to_nat (5 + 1))
    ∧ (∀ w, 0 ≤ w ≤ 5 → KnapsackDP.get2 dp 0 w = Ok 0)
    ∧ (∀ i w wi vi,
         1 ≤ i ≤ len [2; 3; 4] → 0 ≤ w ≤ 5 →
         getitem [2; 3; 4] (i - 1) = Ok wi →
         getitem [3; 4; 5] (i - 1) = Ok vi →
         ∃ skip,
           KnapsackDP.get2 dp (i - 1) w = Ok skip
           ∧ if bool_decide (w >= wi)
             then ∃ pick,
                    KnapsackDP.get2 dp (i - 1) (w - wi) = Ok pick
                    ∧ KnapsackDP.get2 dp i w = Ok (Z.max skip (pick + vi))
             else KnapsackDP.get2 dp i w = Ok skip).
Proof.
  apply (dp_table_follows_recurrence [2; 3; 4] [3; 4; 5] 5).
  - reflexivity.
  - repeat constructor; lia.
Defined.

(** The entries of the table never decrease.  For validated input without
    a negative weight no entry is negative, and an entry is at most every
    entry below it or to its right: more items or more capacity never give
    a smaller value, whatever the values of the items. *)
Theorem dp_table_is_monotone (weight value : list Z) (W : Z) :
  length weight = length value →
  Forall (λ x, 0 ≤ x) weight →
  ∃ dp,
    KnapsackDP.build_knapsack_dp_table weight value W = Ok dp
    ∧ ∀ i w x,
        0 ≤ i ≤ len weight → 0 ≤ w ≤ W →
        KnapsackDP.get2 dp i w = Ok x →
        0 ≤ x
        ∧ ∀ i' w' y,
            i ≤ i' ≤ len weight → w ≤ w' ≤ W →
            KnapsackDP.get2 dp i' w' = Ok y → x ≤ y.
Proof.
  intros Hlen Hnn.
  destruct (build_knapsack_dp_table_ok weight value W Hlen Hnn)
    as (dp & Hbuild & _ & Hcells).
  exists dp. split; [done|]. intros i w x Hi Hw Hx.
  apply get2_cell_inv in Hx; [|lia..]. rewrite Hcells in Hx by lia.
  injection Hx as <-. split.
  - change 0 with (tab weight value 0 w).
    apply tab_mono_items; [done|lia..].
  - intros i' w' y Hi' Hw' Hy.
    apply get2_cell_inv in Hy; [|lia..]. rewrite Hcells in Hy by lia.
    injection Hy as <-.
    etrans; [apply (tab_mono_items weight value i i' w); [done|lia..]|].
    apply tab_mono_capacity. lia.
Qed.

Lemma dp_table_is_monotone_witness :
  ∃ dp,
    KnapsackDP.build_knapsack_dp_table [2; 3; 4] [3; 4; 5] 5 = Ok dp
    ∧ ∀ i w x,
        0 ≤ i ≤ len [2; 3; 4] → 0 ≤ w ≤ 5 →
        KnapsackDP.get2 dp i w = Ok x →
        0 ≤ x
        ∧ ∀ i' w' y,
            i ≤ i' ≤ len [2; 3; 4] → w ≤ w' ≤ 5 →
            KnapsackDP.get2 dp i' w' = Ok y → x ≤ y.
Proof.
  apply (dp_table_is_monotone [2; 3; 4] [3; 4; 5] 5).
  - reflexivity.
  - repeat constructor; lia.
Defined.

(** ** The graph of the DP table, cell by cell *)

Section dp_graph_nodes.
Import KnapsackDP Shape.
Implicit Types (dp : list (list Z)) (st : state).

Lemma cell_node_inj (cols i w i' w' : Z) :
  0 ≤ w < cols → 0 ≤ w' < cols →
  cell_node cols i w = cell_node cols i' w' → i = i' ∧ w = w'.
Proof.
  unfold cell_node. intros Hw Hw' Heq.
  assert (i = i') as -> by nia. split; [done|lia].
Qed.

Lemma before_next_cell (cols i w i' w' : Z) :
  0 ≤ i → 0 ≤ w < cols →
  before cols i (w + 1) i' w'
  ↔ before cols i w i' w' ∨ (i' = i ∧ w' = w).
Proof. unfold before. lia. Qed.

Lemma before_next_row (cols i i' w' : Z) :
  before cols i cols i' w' ↔ before cols (i + 1) 0 i' w'.
Proof. unfold before. lia. Qed.

Lemma before_irrefl (cols i w : Z) : ¬ before cols i w i w.
Proof. unfold before. lia. Qed.

Variable dp : list (list Z).
Variables rows cols : nat.
Hypothesis dp_shape : shape rows cols dp.

Lemma nodes_done_init : nodes_done dp (Z.of_nat cols) 0 0 init.
Proof.
  split_and!; [done| |done|].
  - intros i' w'. simpl. rewrite lookup_empty.
    rewrite decide_False; [done|]. unfold before. lia.
  - intros id attrs. simpl. rewrite lookup_empty. split; [done|].
    intros (i' & w' & x & Hb & _). unfold before in Hb. lia.
Qed.

Lemma nodes_done_next_row i st :
  nodes_done dp (Z.of_nat cols) i (Z.of_nat cols) st →
  nodes_done dp (Z.of_nat cols) (i + 1) 0 st.
Proof.
  intros (Hcnt & Hmap & Hedges & Hnodes). split_and!.
  - rewrite Hcnt. unfold cell_node. lia.
  - intros i' w'. rewrite Hmap.
    destruct (decide (before _ i _ i' w')) as [Hb|Hb];
      [rewrite decide_True|rewrite decide_False]; try done;
      by rewrite <-before_next_row.
  - done.
  - intros id attrs. rewrite Hnodes.
    by setoid_rewrite before_next_row.
Qed.

(** One turn of the first loop: the cell gets the next number and a node
    labelled with its entry. *)
Lemma add_cell_node_step i w st :
  0 ≤ i < Z.of_nat rows → 0 ≤ w < Z.of_nat cols →
  nodes_done dp (Z.of_nat cols) i w st →
  ∃ st', add_cell_node dp i w st = Ok st'
         ∧ nodes_done dp (Z.of_nat cols) i (w + 1) st'.
Proof.
  intros Hi Hw (Hcnt & Hmap & Hedges & Hnodes). unfold add_cell_node.
  destruct (shape_cell _ _ dp i w dp_shape) as [x Hx]; [lia..|].
  rewrite (get2_of_cell dp i w x) by (done || lia).
  cbn [mbind result_bind bind]. unfold get_node_id.
  rewrite Hmap, decide_False by apply before_irrefl.
  eexists. split; [done|].
  assert (Nx.nodes (G st) !! node_counter st = None) as Hfresh.
  { destruct (Nx.nodes (G st) !! node_counter st) as [a|] eqn:Ha; [|done].
    apply Hnodes in Ha as (i' & w' & y & Hb & Heq & _).
    rewrite Hcnt in Heq.
    apply cell_node_inj in Heq as [-> ->]; [|done|unfold before in Hb; lia].
    by apply before_irrefl in Hb. }
  split_and!.
  - simpl. rewrite Hcnt. unfold cell_node. lia.
  - intros i' w'. simpl.
    destruct (decide ((i, w) = (i', w'))) as [[= <- <-]|Hne].
    + rewrite lookup_insert_eq, decide_True; [by rewrite Hcnt|].
      apply before_next_cell; [lia..|]. by right.
    + rewrite lookup_insert_ne, Hmap by done.
      destruct (decide (before _ i w i' w')) as [Hb|Hb].
      * rewrite decide_True; [done|]. apply before_next_cell; [lia..|].
        by left.
      * rewrite decide_False; [done|].
        intros [?|[-> ->]]%before_next_cell; [done| |lia..]. done.
  - done.
  - intros id attrs. simpl. rewrite Hfresh. simpl.
    destruct (decide (node_counter st = id)) as [<-|Hne].
    + rewrite lookup_insert_eq. split.
      * intros [= <-]. exists i, w, x. split_and!; [|done..].
        apply before_next_cell; [lia..|]. by right.
      * intros (i' & w' & y & Hb & Heq & Hy & ->).
        rewrite Hcnt in Heq.
        apply cell_node_inj in Heq as [<- <-];
          [|done|unfold before in Hb; lia].
        rewrite Hx in Hy. by injection Hy as <-.
    + rewrite lookup_insert_ne, Hnodes by done. split.
      * intros (i' & w' & y & Hb & Heq & Hy & ->).
        exists i', w', y. split_and!; [|done..].
        apply before_next_cell; [lia..|]. by left.
      * intros (i' & w' & y & [Hb|[-> ->]]%before_next_cell & Heq & Hy & ->);
          [|by rewrite <-Hcnt in Heq|lia..].
        exists i', w', y. by split_and!.
Qed.

(** The first loop: every cell has its node. *)
Lemma add_cell_nodes_ok :
  ∃ st,
    for_each (range (Z.of_nat rows)) (λ i st,
      for_each (range (Z.of_nat cols)) (λ w st, add_cell_node dp i w st) st)
      init = Ok st
    ∧ nodes_done dp (Z.of_nat cols) (Z.of_nat rows) 0 st.
Proof.
  destruct (for_each_seqZ (λ i st, nodes_done dp (Z.of_nat cols) i 0 st)
    0 (Z.of_nat rows)
    (λ i st, for_each (range (Z.of_nat cols))
               (λ w st, add_cell_node dp i w st) st) init)
    as (st & Hrun & Hst).
  - apply nodes_done_init.
  - intros i st Hi Hst.
    destruct (for_each_seqZ (λ w st, nodes_done dp (Z.of_nat cols) i w st)
      0 (Z.of_nat cols) (λ w st, add_cell_node dp i w st) st)
      as (st' & Hrun & Hst'); [done| |].
    + intros w st' Hw Hst'. apply add_cell_node_step; [lia..|done].
    + exists st'. split; [done|]. apply nodes_done_next_row.
      by replace (0 + Z.max 0 (Z.of_nat cols)) with (Z.of_nat cols) in Hst'
        by lia.
  - exists st. split; [done|].
    by replace (0 + Z.max 0 (Z.of_nat rows)) with (Z.of_nat rows) in Hst
      by lia.
Qed.

End dp_graph_nodes.

Section dp_graph_edges.
Import KnapsackDP Shape.
Implicit Types (dp : list (list Z)) (st : state).

Lemma touch_existing (n : Z) (ns : gmap Z (gmap string string)) :
  is_Some (ns !! n) → Nx.touch n ns = ns.
Proof. intros [a Ha]. unfold Nx.touch. by rewrite Ha. Qed.

Lemma add_edge_existing (g : Nx.DiGraph Z) (u v : Z) (l : string) :
  is_Some (Nx.nodes g !! u) → is_Some (Nx.nodes g !! v) →
  Nx.nodes (Nx.add_edge u v l g) = Nx.nodes g.
Proof.
  intros Hu Hv. simpl. rewrite (touch_existing u) by done.
  by apply touch_existing.
Qed.

Variable dp : list (list Z).
Variables weight value : list Z.

Lemma skip_holds_iff i w cur below :
  cell dp i w = Some cur → cell dp (i + 1) w = Some below →
  skip_holds dp i w ↔ below = cur.
Proof.
  intros Hcur Hbelow. unfold skip_holds. split.
  - intros (cur' & below' & Hcur' & Hbelow' & Heq). by simplify_eq.
  - intros ->. eauto.
Qed.

Lemma pick_holds_iff i w wi vi below :
  weight !! Z.to_nat i = Some wi → value !! Z.to_nat i = Some vi →
  cell dp (i + 1) w = Some below →
  pick_holds dp weight value i w
  ↔ w >= wi ∧ ∃ y, cell dp i (w - wi) = Some y ∧ below = y + vi.
Proof.
  intros Hwi Hvi Hbelow. unfold pick_holds. split.
  - intros (wi' & vi' & y & below' & ? & ? & ? & ? & ? & ?).
    simplify_eq. eauto.
  - intros (Hge & y & Hy & ->). exists wi, vi, y, (y + vi). by split_and!.
Qed.

(** One turn of the second loop, at a cell whose edge is not there yet:
    the nodes and the identifiers stay, the other edges stay, and the edge
    to the cell below is there afterwards if one of the two tests passes,
    with the label [edge_of] tells. *)
Lemma add_cell_edges_effect i w st cur below wi vi p c :
  0 ≤ i → 0 ≤ w →
  cell dp i w = Some cur → cell dp (i + 1) w = Some below →
  weight !! Z.to_nat i = Some wi → value !! Z.to_nat i = Some vi →
  (w >= wi → is_Some (cell dp i (w - wi)) ∧ 0 ≤ w - wi) →
  node_id_map st !! (i, w) = Some p →
  node_id_map st !! (i + 1, w) = Some c →
  is_Some (Nx.nodes (G st) !! p) → is_Some (Nx.nodes (G st) !! c) →
  Nx.edges (G st) !! (p, c) = None →
  ∃ st',
    add_cell_edges dp weight value i w st = Ok st'
    ∧ node_id_map st' = node_id_map st
    ∧ node_counter st' = node_counter st
    ∧ Nx.nodes (G st') = Nx.nodes (G st)
    ∧ (∀ k, k ≠ (p, c) → Nx.edges (G st') !! k = Nx.edges (G st) !! k)
    ∧ (∀ attrs, Nx.edges (G st') !! (p, c) = Some attrs
                ↔ ∃ l, edge_of dp weight value i w l
                       ∧ attrs = {["label" := l]}).
Proof.
  intros Hi Hw Hcur Hbelow Hwi Hvi Hy Hp Hc Hnp Hnc Hnone.
  pose proof (skip_holds_iff i w cur below Hcur Hbelow) as Hskip.
  pose proof (pick_holds_iff i w wi vi below Hwi Hvi Hbelow) as Hpick.
  assert (getitem weight i = Ok wi) as Hgw.
  { rewrite <-(Z2Nat.id i) by lia. by apply getitem_lookup. }
  assert (getitem value i = Ok vi) as Hgv.
  { rewrite <-(Z2Nat.id i) by lia. by apply getitem_lookup. }
  unfold add_cell_edges.
  rewrite (get2_of_cell dp i w cur) by done.
  cbn [mbind result_bind bind]. unfold get_node_id at 1. rewrite Hp.
  rewrite (get2_of_cell dp (i + 1) w below) by (done || lia).
  cbn [mbind result_bind bind].
  (* the state after the skip test *)
  assert (∃ st2,
    (if bool_decide (below = cur)
     then let '(nid_child, st) := get_node_id (i + 1) w st in
          Ok (with_graph (Nx.add_edge p nid_child
                            ("skip item " +:+ pretty i)) st)
     else Ok st) = Ok st2
    ∧ node_id_map st2 = node_id_map st
    ∧ node_counter st2 = node_counter st
    ∧ Nx.nodes (G st2) = Nx.nodes (G st)
    ∧ (∀ k, k ≠ (p, c) → Nx.edges (G st2) !! k = Nx.edges (G st) !! k)
    ∧ Nx.edges (G st2) !! (p, c)
      = if bool_decide (below = cur)
        then Some {["label" := "skip item " +:+ pretty i]} else None)
    as (st2 & -> & Hmap2 & Hcnt2 & Hnodes2 & Hother2 & Hpc2).
  { destruct (bool_decide_reflect (below = cur)) as [Hsk|Hsk].
    - unfold get_node_id. rewrite Hc. eexists. split; [done|].
      split_and!; [done|done|by apply add_edge_existing| |].
      + intros k Hk. simpl. by rewrite lookup_insert_ne.
      + simpl. rewrite lookup_insert_eq, Hnone. simpl.
        by rewrite insert_empty.
    - exists st. by split_and!. }
  cbn [mbind result_bind bind]. rewrite Hgw. cbn [mbind result_bind bind].
  destruct (bool_decide_reflect (w >= wi)) as [Hge|Hge]; cycle 1.
  { (* the item is heavier than the column *)
    exists st2. split; [done|]. split_and!; [done..|].
    intros attrs. rewrite Hpc2. unfold edge_of. setoid_rewrite Hpick. setoid_rewrite Hskip.
    destruct (bool_decide_reflect (below = cur)) as [Hsk|Hsk].
    - split.
      + intros [= <-]. eexists. split; [|done]. right.
        split_and!; [|done..]. intros [? _]. done.
      + intros (l & [[[? _] _]|(_ & _ & ->)] & ->); done.
    - split; [done|]. intros (l & [[[? _] _]|(_ & ? & _)] & _); done. }
  destruct (Hy Hge) as [[y Hycell] Hy0].
  cbn [mbind result_bind bind].
  rewrite (get2_of_cell dp i (w - wi) y) by (done || lia).
  cbn [mbind result_bind bind]. rewrite Hgv. cbn [mbind result_bind bind].
  destruct (bool_decide_reflect (below = y + vi)) as [Hpk|Hpk].
  - (* the pick test passes: its label is written, over that of the skip *)
    unfold get_node_id. rewrite Hmap2, Hc. eexists. split; [done|].
    split_and!; [done|done| | |].
    + rewrite <-Hnodes2. apply add_edge_existing; by rewrite Hnodes2.
    + intros k Hk. simpl. rewrite lookup_insert_ne by done. by apply Hother2.
    + intros attrs. simpl. rewrite lookup_insert_eq, Hpc2.
      assert (<["label" := "pick item " +:+ pretty i]>
                (default ∅ (if bool_decide (below = cur)
                            then Some {["label" := "skip item " +:+ pretty i]}
                            else None))
              = ({["label" := "pick item " +:+ pretty i]}
                 : gmap string string)) as ->.
      { destruct (bool_decide_reflect (below = cur)); simpl;
          [by rewrite insert_singleton|by rewrite insert_empty]. }
      unfold edge_of. setoid_rewrite Hpick. split.
      * intros [= <-]. eexists. split; [|done]. left. split; [|done].
        split; [done|]. eauto.
      * intros (l & [[_ ->]|(Hno & _)] & ->); [done|].
        destruct Hno. split; [done|]. eauto.
  - (* the pick test fails: what the skip left stays *)
    exists st2. split; [done|]. split_and!; [done..|].
    intros attrs. rewrite Hpc2. unfold edge_of. setoid_rewrite Hpick. setoid_rewrite Hskip.
    assert (¬ (w >= wi ∧ ∃ y0, cell dp i (w - wi) = Some y0
                               ∧ below = y0 + vi)) as Hno.
    { intros (_ & y0 & Hy0' & Heq). rewrite Hycell in Hy0'.
      by injection Hy0' as <-. }
    destruct (bool_decide_reflect (below = cur)) as [Hsk|Hsk].
    + split.
      * intros [= <-]. eexists. split; [|done]. right. by split_and!.
      * intros (l & [[? _]|(_ & _ & ->)] & ->); done.
    + split; [done|]. intros (l & [[? _]|(_ & ? & _)] & _); done.
Qed.

End dp_graph_edges.

Section dp_graph_chains.
Import KnapsackDP Shape.
Implicit Types (dp : list (list Z)) (st : state).

Variable dp : list (list Z).
Variables weight value : list Z.
Variable cols : nat.
Hypothesis same_length : length weight = length value.
Hypothesis weights_nonneg : Forall (λ x, 0 ≤ x) weight.
Hypothesis dp_shape : shape (S (length weight)) cols dp.
Variable st1 : state.
Hypothesis nodes_st1 :
  nodes_done dp (Z.of_nat cols) (Z.of_nat (S (length weight))) 0 st1.

Lemma node_of_cell i w :
  0 ≤ i ≤ len weight → 0 ≤ w < Z.of_nat cols →
  ∃ x, cell dp i w = Some x
       ∧ node_id_map st1 !! (i, w) = Some (cell_node (Z.of_nat cols) i w)
       ∧ Nx.nodes (G st1) !! cell_node (Z.of_nat cols) i w
         = Some {["label" := node_label i w x]}.
Proof.
  intros Hi Hw. destruct nodes_st1 as (_ & Hmap & _ & Hnodes).
  unfold len in Hi.
  destruct (shape_cell _ _ dp i w dp_shape) as [x Hx]; [lia..|].
  assert (before (Z.of_nat cols) (Z.of_nat (S (length weight))) 0 i w)
    as Hb by (unfold before; lia).
  exists x. split; [done|]. split.
  - by rewrite Hmap, decide_True.
  - apply Hnodes. exists i, w, x. by split_and!.
Qed.

Lemma edges_done_init :
  edges_done dp weight value (Z.of_nat cols) st1 0 0 st1.
Proof.
  destruct nodes_st1 as (_ & _ & Hedges & _).
  split_and!; [done..| |].
  - intros u v. rewrite Hedges, lookup_empty. by intros [? ?].
  - intros i' w' attrs Hb. unfold before in Hb. lia.
Qed.

Lemma edges_done_next_row i st :
  edges_done dp weight value (Z.of_nat cols) st1 i (Z.of_nat cols) st →
  edges_done dp weight value (Z.of_nat cols) st1 (i + 1) 0 st.
Proof.
  intros (Hmap & Hcnt & Hnodes & Hlocal & Hval).
  split_and!; [done..| |].
  - intros u v Huv. destruct (Hlocal u v Huv) as (i' & w' & Hb & ? & ?).
    exists i', w'. split_and!; [|done..]. by apply before_next_row.
  - intros i' w' attrs Hb. apply Hval. by apply before_next_row.
Qed.

(** One turn of the second loop. *)
Lemma add_cell_edges_step i w st :
  0 ≤ i < len weight → 0 ≤ w < Z.of_nat cols →
  edges_done dp weight value (Z.of_nat cols) st1 i w st →
  ∃ st', add_cell_edges dp weight value i w st = Ok st'
         ∧ edges_done dp weight value (Z.of_nat cols) st1 i (w + 1) st'.
Proof.
  intros Hi Hw (Hmap & Hcnt & Hnodes & Hlocal & Hval).
  destruct (node_of_cell i w) as (cur & Hcur & Hp & Hnp); [lia..|].
  destruct (node_of_cell (i + 1) w) as (below & Hbelow & Hc & Hnc); [lia..|].
  unfold len in Hi.
  destruct (lookup_lt_is_Some_2 weight (Z.to_nat i)) as [wi Hwi]; [lia|].
  destruct (lookup_lt_is_Some_2 value (Z.to_nat i)) as [vi Hvi]; [lia|].
  assert (0 ≤ wi) as Hwi0.
  { eapply Forall_lookup_1 in weights_nonneg; [|done]. done. }
  set (p := cell_node (Z.of_nat cols) i w) in *.
  set (c := cell_node (Z.of_nat cols) (i + 1) w) in *.
  assert (Nx.edges (G st) !! (p, c) = None) as Hnone.
  { destruct (Nx.edges (G st) !! (p, c)) as [a|] eqn:Ha; [|done].
    destruct (Hlocal p c) as (i' & w' & Hb & Hpeq & _); [eauto|].
    apply cell_node_inj in Hpeq as [<- <-]; [|lia|unfold before in Hb; lia].
    by apply before_irrefl in Hb. }
  destruct (add_cell_edges_effect dp weight value i w st cur below wi vi p c)
    as (st' & Hrun & Hmap' & Hcnt' & Hnodes' & Hother & Hpc);
    [lia|lia|done|done|done|done| |by rewrite Hmap|by rewrite Hmap
    |rewrite Hnodes; eauto|rewrite Hnodes; eauto|done|].
  { intros Hge. split; [|lia]. apply (shape_cell _ _ dp _ _ dp_shape); lia. }
  exists st'. split; [done|].
  split_and!; [congruence..| |].
  - intros u v Huv. destruct (decide ((u, v) = (p, c))) as [[= -> ->]|Hne].
    + exists i, w. split_and!; [|done..].
      apply before_next_cell; [lia..|]. by right.
    + rewrite Hother in Huv by done.
      destruct (Hlocal u v Huv) as (i' & w' & Hb & ? & ?).
      exists i', w'. split_and!; [|done..].
      apply before_next_cell; [lia..|]. by left.
  - intros i' w' attrs [Hb|[-> ->]]%before_next_cell; [| |lia..].
    + rewrite Hother; [by apply Hval|].
      intros [= Heq _]. unfold p in Heq.
      apply cell_node_inj in Heq as [-> ->]; [|unfold before in Hb; lia|lia].
      by apply before_irrefl in Hb.
    + apply Hpc.
Qed.

(** The second loop. *)
Lemma add_cells_edges_ok :
  ∃ st,
    for_each (range (len weight)) (λ i st,
      for_each (range (Z.of_nat cols))
        (λ w st, add_cell_edges dp weight value i w st) st) st1 = Ok st
    ∧ edges_done dp weight value (Z.of_nat cols) st1 (len weight) 0 st.
Proof.
  destruct (for_each_seqZ
    (λ i st, edges_done dp weight value (Z.of_nat cols) st1 i 0 st)
    0 (len weight)
    (λ i st, for_each (range (Z.of_nat cols))
               (λ w st, add_cell_edges dp weight value i w st) st) st1)
    as (st & Hrun & Hst).
  - apply edges_done_init.
  - intros i st Hi Hst.
    destruct (for_each_seqZ
      (λ w st, edges_done dp weight value (Z.of_nat cols) st1 i w st)
      0 (Z.of_nat cols) (λ w st, add_cell_edges dp weight value i w st) st)
      as (st' & Hrun & Hst'); [done| |].
    + intros w st' Hw Hst'. apply add_cell_edges_step; [lia..|done].
    + exists st'. split; [done|]. apply edges_done_next_row.
      by replace (0 + Z.max 0 (Z.of_nat cols)) with (Z.of_nat cols) in Hst'
        by lia.
  - exists st. split; [done|].
    by replace (0 + Z.max 0 (len weight)) with (len weight) in Hst
      by (unfold len; lia).
Qed.

End dp_graph_chains.

Section dp_graph_whole.
Import KnapsackDP Shape.

(** [build_dp_graph] on a table of the right shape. *)
Lemma build_dp_graph_state_done (dp : list (list Z)) (weight value : list Z)
    (cols : nat) :
  length weight = length value →
  Forall (λ x, 0 ≤ x) weight →
  shape (S (length weight)) cols dp →
  ∃ st1 st,
    build_dp_graph_state dp weight value = Ok st
    ∧ nodes_done dp (Z.of_nat cols) (Z.of_nat (S (length weight))) 0 st1
    ∧ edges_done dp weight value (Z.of_nat cols) st1 (len weight) 0 st.
Proof.
  intros Hlen Hnn Hshape. unfold build_dp_graph_state.
  pose proof Hshape as [Hrows Hcols].
  destruct (lookup_lt_is_Some_2 dp 0) as [row0 Hrow0]; [lia|].
  assert (getitem dp 0 = Ok row0) as ->
    by (by apply (getitem_lookup dp 0%nat)).
  cbn [mbind result_bind bind].
  assert (len row0 - 1 + 1 = Z.of_nat cols) as ->.
  { unfold len. rewrite (Hcols 0%nat row0) by done. lia. }
  assert (len dp - 1 + 1 = Z.of_nat (S (length weight))) as ->
    by (unfold len; lia).
  assert (len dp - 1 = len weight) as -> by (unfold len; lia).
  destruct (add_cell_nodes_ok dp (S (length weight)) cols Hshape)
    as (st1 & -> & Hst1).
  cbn [mbind result_bind bind].
  destruct (add_cells_edges_ok dp weight value cols Hlen Hnn Hshape st1 Hst1)
    as (st & -> & Hst).
  by exists st1, st.
Qed.

End dp_graph_whole.

(** The graph of the DP program, cell by cell.  For validated input
    without a negative weight the table and the graph are built.  The cell
    [(i, w)] has the node [i * (W + 1) + w], labelled "dp(i,w)=" and its
    entry, and the graph has no other node.  Every cell of a row but the
    last has one edge, to the cell below it in the same column: it bears
    "pick item i" when the pick test passes ([w >= weight[i]] and
    [dp[i+1][w] == dp[i][w - weight[i]] + value[i]]), and "skip item i"
    otherwise, the skip test ([dp[i+1][w] == dp[i][w]]) passing then.  The
    graph has no other edge: it is one chain per column. *)
Theorem dp_graph_is_one_chain_per_column (weight value : list Z) (W : Z) :
  length weight = length value →
  Forall (λ x, 0 ≤ x) weight →
  ∃ dp st,
    KnapsackDP.build_knapsack_dp_table weight value W = Ok dp
    ∧ App.knapsack_dp_state weight value W = Ok st
    ∧ App.knapsack_dp_graph weight value W = Ok (KnapsackDP.G st)
    ∧ (∀ i w,
         0 ≤ i ≤ len weight → 0 ≤ w ≤ W →
         ∃ x, KnapsackDP.get2 dp i w = Ok x
              ∧ KnapsackDP.node_id_map st !! (i, w) = Some (i * (W + 1) + w)
              ∧ Nx.nodes (KnapsackDP.G st) !! (i * (W + 1) + w)
                = Some {["label" := "dp(" +:+ pretty i +:+ "," +:+ pretty w
                                     +:+ ")=" +:+ pretty x]})
    ∧ (∀ id, is_Some (Nx.nodes (KnapsackDP.G st) !! id)
             ↔ 0 ≤ id < (len weight + 1) * Z.max 0 (W + 1))
    ∧ (∀ i w wi vi cur below,
         0 ≤ i < len weight → 0 ≤ w ≤ W →
         getitem weight i = Ok wi → getitem value i = Ok vi →
         KnapsackDP.get2 dp i w = Ok cur →
         KnapsackDP.get2 dp (i + 1) w = Ok below →
         ((w >= wi ∧ ∃ y, KnapsackDP.get2 dp i (w - wi) = Ok y
                          ∧ below = y + vi) →
          Nx.edge_label (KnapsackDP.G st)
            (i * (W + 1) + w) ((i + 1) * (W + 1) + w)
          = Some ("pick item " +:+ pretty i))
         ∧ (¬ (w >= wi ∧ ∃ y, KnapsackDP.get2 dp i (w - wi) = Ok y
                              ∧ below = y + vi) →
            below = cur
            ∧ Nx.edge_label (KnapsackDP.G st)
                (i * (W + 1) + w) ((i + 1) * (W + 1) + w)
              = Some ("skip item " +:+ pretty i)))
    ∧ (∀ u v, is_Some (Nx.edges (KnapsackDP.G st) !! (u, v)) →
         ∃ i w, 0 ≤ i < len weight ∧ 0 ≤ w ≤ W
                ∧ u = i * (W + 1) + w ∧ v = (i + 1) * (W + 1) + w).
Proof.
  intros Hlen Hnn.
  destruct (build_knapsack_dp_table_ok weight value W Hlen Hnn)
    as (dp & Hbuild & Hshape & Hcells).
  replace (Z.to_nat (len weight + 1)) with (S (length weight)) in Hshape
    by (unfold len; lia).
  destruct (build_dp_graph_state_done dp weight value (Z.to_nat (W + 1))
              Hlen Hnn Hshape) as (st1 & st & Hrun & Hst1 & Hst).
  destruct Hst as (Hmap & Hcnt & Hnodes & Hlocal & Hval).
  exists dp, st. split; [done|].
  split; [by unfold App.knapsack_dp_state; rewrite Hbuild|].
  split.
  { unfold App.knapsack_dp_graph, KnapsackDP.build_dp_graph.
    rewrite Hbuild. cbn [mbind result_bind bind]. by rewrite Hrun. }
  assert (∀ i w, 0 ≤ w ≤ W →
    Shape.cell_node (Z.of_nat (Z.to_nat (W + 1))) i w = i * (W + 1) + w)
    as Hnode.
  { intros i w Hw. unfold Shape.cell_node. by rewrite Z2Nat.id by lia. }
  split_and!.
  - intros i w Hi Hw.
    destruct (node_of_cell dp weight value _ Hlen Hshape st1 Hst1 i w)
      as (x & Hx & Hid & Hattr); [lia..|].
    exists x. rewrite Hmap, Hnodes, <-Hnode by done.
    split; [by apply get2_of_cell; [lia..|]|]. by split.
  - intros id. rewrite Hnodes.
    pose proof Hst1 as (_ & _ & _ & Hnodes1). split.
    + intros [attrs (i' & w' & x & Hb & -> & _)%Hnodes1].
      unfold Shape.before in Hb. unfold Shape.cell_node, len. nia.
    + intros Hid.
      assert (0 ≤ W) as HW by nia.
      assert (Z.max 0 (W + 1) = W + 1) as Hmax by lia.
      rewrite Hmax in Hid.
      pose proof (Z.div_mod id (W + 1)) as Hdm.
      pose proof (Z.mod_pos_bound id (W + 1)) as Hmod.
      assert (0 ≤ id `div` (W + 1)) by (apply Z.div_pos; lia).
      assert (id `div` (W + 1) < len weight + 1)
        by (apply Z.div_lt_upper_bound; lia).
      destruct (node_of_cell dp weight value _ Hlen Hshape st1
                  Hst1 (id `div` (W + 1))
                  (id `mod` (W + 1)))
        as (x & _ & _ & Hattr); [lia..|].
      rewrite Hnode in Hattr by lia.
      replace (id `div` (W + 1) * (W + 1) + id `mod` (W + 1)) with id
        in Hattr by lia.
      eauto.
  - intros i w wi vi cur below Hi Hw Hwi Hvi Hcur Hbelow.
    apply getitem_nonneg_inv in Hwi; [|lia].
    apply getitem_nonneg_inv in Hvi; [|lia].
    apply get2_cell_inv in Hcur; [|lia..].
    apply get2_cell_inv in Hbelow; [|lia..].
    assert (0 ≤ wi) as Hwi0.
    { eapply Forall_lookup_1 in Hnn; [|done]. done. }
    assert (Shape.before (Z.of_nat (Z.to_nat (W + 1))) (len weight) 0 i w)
      as Hb by (unfold Shape.before; lia).
    pose proof (λ attrs, Hval i w attrs Hb) as Hedge.
    rewrite !Hnode in Hedge by done.
    pose proof (pick_holds_iff dp weight value i w wi vi below Hwi Hvi Hbelow)
      as Hpick.
    assert ((w >= wi ∧ ∃ y, KnapsackDP.get2 dp i (w - wi) = Ok y
                            ∧ below = y + vi)
            ↔ Shape.pick_holds dp weight value i w) as Hpick'.
    { rewrite Hpick. split.
      - intros (Hge & y & Hy & ->). split; [done|]. exists y.
        split; [|done]. apply get2_cell_inv; [lia..|done].
      - intros (Hge & y & Hy & ->). split; [done|]. exists y.
        split; [|done]. apply get2_of_cell; [lia..|done]. }
    rewrite Hpick'. unfold Nx.edge_label. split.
    + intros Hyes.
      destruct (Hedge {["label" := "pick item " +:+ pretty i]})
        as [_ ->].
      * simpl. by rewrite lookup_singleton_eq.
      * eexists. split; [|done]. left. by split.
    + intros Hno.
      assert (below = cur) as Heq.
      { pose proof (Hcells i w) as Hc1. pose proof (Hcells (i + 1) w) as Hc2.
        rewrite Hcur in Hc1. rewrite Hbelow in Hc2.
        injection Hc1 as ->; [|lia..]. injection Hc2 as ->; [|lia..].
        pose proof (tab_step weight value Hlen (i + 1) w wi vi) as Hstep.
        replace (i + 1 - 1) with i in Hstep by lia.
        rewrite Hstep by (done || lia).
        case_bool_decide as Hge; [|done].
        destruct (decide (tab weight value i w
                          ≤ tab weight value i (w - wi) + vi)) as [Hle|Hgt];
          [|lia].
        destruct Hno. apply Hpick. split; [done|].
        exists (tab weight value i (w - wi)). split; [apply Hcells; lia|].
        rewrite Hstep by (done || lia). lia. }
      split; [done|].
      destruct (Hedge {["label" := "skip item " +:+ pretty i]})
        as [_ ->].
      * simpl. by rewrite lookup_singleton_eq.
      * eexists. split; [|done]. right. split_and!; [done| |done].
        eapply skip_holds_iff; done.
  - intros u v Huv.
    destruct (Hlocal u v Huv) as (i & w & Hb & -> & ->).
    unfold Shape.before in Hb.
    assert (0 ≤ w ≤ W) as Hw by lia.
    exists i, w. rewrite !Hnode by done. split_and!; [lia..|done|done].
Qed.

Lemma dp_graph_is_one_chain_per_column_witness :
  ∃ dp st,
    KnapsackDP.build_knapsack_dp_table [2; 3; 4] [3; 4; 5] 5 = Ok dp
    ∧ App.knapsack_dp_state [2; 3; 4] [3; 4; 5] 5 = Ok st
    ∧ App.knapsack_dp_graph [2; 3; 4] [3; 4; 5] 5 = Ok (KnapsackDP.G st)
    ∧ (∀ i w,
         0 ≤ i ≤ len [2; 3; 4] → 0 ≤ w ≤ 5 →
         ∃ x, KnapsackDP.get2 dp i w = Ok x
              ∧ KnapsackDP.node_id_map st !! (i, w) = Some (i * (5 + 1) + w)
              ∧ Nx.nodes (KnapsackDP.G st) !! (i * (5 + 1) + w)
                = Some {["label" := "dp(" +:+ pretty i +:+ "," +:+ pretty w
                                     +:+ ")=" +:+ pretty x]})
    ∧ (∀ id, is_Some (Nx.nodes (KnapsackDP.G st) !! id)
             ↔ 0 ≤ id < (len [2; 3; 4] + 1) * Z.max 0 (5 + 1))
    ∧ (∀ i w wi vi cur below,
         0 ≤ i < len [2; 3; 4] → 0 ≤ w ≤ 5 →
         getitem [2; 3; 4] i = Ok wi → getitem [3; 4; 5] i = Ok vi →
         KnapsackDP.get2 dp i w = Ok cur →
         KnapsackDP.get2 dp (i + 1) w = Ok below →
         ((w >= wi ∧ ∃ y, KnapsackDP.get2 dp i (w - wi) = Ok y
                          ∧ below = y + vi) →
          Nx.edge_label (KnapsackDP.G st)
            (i * (5 + 1) + w) ((i + 1) * (5 + 1) + w)
          = Some ("pick item " +:+ pretty i))
         ∧ (¬ (w >= wi ∧ ∃ y, KnapsackDP.get2 dp i (w - wi) = Ok y
                              ∧ below = y + vi) →
            below = cur
            ∧ Nx.edge_label (KnapsackDP.G st)
                (i * (5 + 1) + w) ((i + 1) * (5 + 1) + w)
              = Some ("skip item " +:+ pretty i)))
    ∧ (∀ u v, is_Some (Nx.edges (KnapsackDP.G st) !! (u, v)) →
         ∃ i w, 0 ≤ i < len [2; 3; 4] ∧ 0 ≤ w ≤ 5
                ∧ u = i * (5 + 1) + w ∧ v = (i + 1) * (5 + 1) + w).
Proof.
  apply (dp_graph_is_one_chain_per_column [2; 3; 4] [3; 4; 5] 5).
  - reflexivity.
  - repeat constructor; lia.
Defined.

(** ** The leaves of the recursions *)

Section leaves.
Import Spec Shape.

Lemma knap_calls_index (items : list (Z * Z)) (i w v : Z) (c : Z * Z * Z) :
  c ∈ knap_calls items i w v → i ≤ c.1.1 ≤ i + len items.
Proof.
  revert i w v. induction items as [|[wi vi] items IH]; intros i w v.
  { intros ->%list_elem_of_singleton. unfold len. simpl. lia. }
  cbn [knap_calls]. rewrite elem_of_cons, elem_of_app.
  assert (len ((wi, vi) :: items) = len items + 1) as ->
    by (unfold len; simpl; lia).
  intros [->|[Hc|Hc]].
  - unfold len. simpl. lia.
  - apply IH in Hc. lia.
  - case_bool_decide; [|by apply elem_of_nil in Hc]. apply IH in Hc. lia.
Qed.

(** The leaves of the recursion are its choices, in the same order: the
    leaf of a choice holds the capacity the choice leaves and the value it
    gathers. *)
Lemma leaves_of_knap_calls (n : Z) (items : list (Z * Z)) (i w v : Z) :
  i + len items = n →
  leaves n (knap_calls items i w v)
  = map (λ sel, (n, w - total sel items.*1, v + total sel items.*2))
      (fitting items w).
Proof.
  unfold leaves.
  revert i w v. induction items as [|[wi vi] items IH]; intros i w v Hn.
  { change (len []) with 0 in Hn. simpl. rewrite filter_cons, decide_True
      by (simpl; lia). rewrite filter_nil. simpl.
    rewrite Z.sub_0_r, Z.add_0_r. repeat f_equal. lia. }
  assert (len ((wi, vi) :: items) = len items + 1) as Hlen
    by (unfold len; simpl; lia).
  cbn [knap_calls fitting]. rewrite filter_cons, decide_False
    by (simpl; unfold len in *; lia).
  rewrite filter_app, map_app, (IH (i + 1) w v) by lia.
  f_equal.
  - rewrite map_map. apply map_ext. intros sel. csimpl.
    apply pair_equal_spec; split; [apply pair_equal_spec; split|]; lia.
  - case_bool_decide; [|done].
    rewrite (IH (i + 1) (w - wi) (v + vi)) by lia.
    rewrite map_map. apply map_ext. intros sel. csimpl.
    apply pair_equal_spec; split; [apply pair_equal_spec; split|]; lia.
Qed.

Lemma fitting_spec (items : list (Z * Z)) (w : Z) (sel : list bool) :
  Forall (λ p, 0 ≤ p.1) items → 0 ≤ w →
  sel ∈ fitting items w
  ↔ length sel = length items ∧ total sel items.*1 ≤ w.
Proof.
  intros Hnn. revert w sel.
  induction Hnn as [|[wi vi] items Hwi Hnn IH]; intros w sel Hw.
  { simpl. rewrite list_elem_of_singleton. split.
    - intros ->. simpl. lia.
    - intros [Hl _]. by destruct sel. }
  simpl in Hwi. cbn [fitting]. rewrite elem_of_app.
  change (map ?f ?l) with (f <$> l). rewrite list_elem_of_fmap. csimpl.
  assert (0 ≤ total (tail sel) items.*1) as Hrest.
  { apply total_nonneg. apply Forall_fmap.
    eapply Forall_impl; [done|]. by intros [a b]. }
  split.
  - intros [(sel' & -> & Hsel')|Hpick].
    + apply IH in Hsel' as [Hl Ht]; [|done]. simpl. split; [by rewrite Hl|lia].
    + case_bool_decide; [|by apply elem_of_nil in Hpick].
      apply list_elem_of_fmap in Hpick as (sel' & -> & Hsel').
      apply IH in Hsel' as [Hl Ht]; [|lia]. simpl.
      split; [by rewrite Hl|lia].
  - intros [Hl Ht]. destruct sel as [|[|] sel]; [done| |]; simpl in *.
    + right. rewrite bool_decide_eq_true_2 by lia.
      apply list_elem_of_fmap. exists sel. split; [done|].
      apply IH; [lia|]. split; [lia|lia].
    + left. exists sel. split; [done|]. apply IH; [done|]. split; lia.
Qed.

Lemma fitting_NoDup (items : list (Z * Z)) (w : Z) : NoDup (fitting items w).
Proof.
  revert w. induction items as [|[wi vi] items IH]; intros w.
  { apply NoDup_singleton. }
  cbn [fitting]. change (map ?f ?l) with (f <$> l).
  apply NoDup_app. split_and!.
  - apply NoDup_fmap_2; [|done]. by intros ?? [= ->].
  - intros sel (s1 & -> & _)%list_elem_of_fmap Hin.
    case_bool_decide; [|by apply elem_of_nil in Hin].
    by apply list_elem_of_fmap in Hin as (s2 & [=] & _).
  - case_bool_decide; [|constructor].
    apply NoDup_fmap_2; [|done]. by intros ?? [= ->].
Qed.

Lemma leaves_of_ts_calls (n : Z) (rest : list Z) (i cur : Z) :
  i + len rest = n →
  filter (λ c : Z * Z, c.1 = n) (ts_calls rest i cur)
  = map (λ s, (n, cur + signed_sum s rest)) (sign_assignments (length rest)).
Proof.
  revert i cur. induction rest as [|x rest IH]; intros i cur Hn.
  { change (len []) with 0 in Hn. simpl.
    rewrite filter_cons, decide_True by (simpl; lia).
    rewrite filter_nil. unfold signed_sum. simpl. f_equal.
    apply pair_equal_spec; split; lia. }
  assert (len (x :: rest) = len rest + 1) as Hlen
    by (unfold len; simpl; lia).
  cbn [ts_calls sign_assignments length].
  rewrite filter_cons, decide_False by (simpl; unfold len in *; lia).
  rewrite filter_app, map_app, !map_map.
  rewrite (IH (i + 1) (cur + x)), (IH (i + 1) (cur - x)) by lia.
  f_equal; apply map_ext; intros s; unfold signed_sum; simpl;
    apply pair_equal_spec; split; lia.
Qed.

End leaves.

(** What the two recursions enumerate.  The leaves of the Knapsack
    recursion, in the order of the trace, are the choices of items that the
    recursion reaches, each once; the leaf of a choice holds the capacity
    the choice leaves and the value it gathers; and when no weight is
    negative and the capacity is not negative either, the choices reached
    are the choices whose weight is at most the capacity.  The leaves of
    the Target Sum recursion are the [2^n] sign assignments, "+" before "-",
    each with its signed sum. *)
Theorem dfs_leaves_are_the_choices (weight value nums : list Z)
    (W target : Z) :
  length weight = length value →
  fst <$> Knapsack.run_knapsack_dfs weight value W
  = Ok (Spec.number_visits ∅
          (map Spec.knap_label (Spec.knap_calls (zip weight value) 0 W 0)))
  ∧ Shape.leaves (len weight) (Spec.knap_calls (zip weight value) 0 W 0)
    = map (λ sel, (len weight, W - Spec.total sel weight,
                   Spec.total sel value))
        (Shape.fitting (zip weight value) W)
  ∧ NoDup (Shape.fitting (zip weight value) W)
  ∧ (Forall (λ x, 0 ≤ x) weight → 0 ≤ W →
     ∀ sel, sel ∈ Shape.fitting (zip weight value) W
            ↔ length sel = length weight ∧ Spec.total sel weight ≤ W)
  ∧ (λ r, r.1.1.1) <$> TargetSum.run_target_sum_dfs nums target
    = Ok (Spec.number_visits ∅ (map Spec.ts_label (Spec.ts_calls nums 0 0)))
  ∧ filter (λ c : Z * Z, c.1 = len nums) (Spec.ts_calls nums 0 0)
    = map (λ s, (len nums, Spec.signed_sum s nums))
        (Spec.sign_assignments (length nums)).
Proof.
  intros Hlen.
  assert ((zip weight value).*1 = weight) as Hfst by (apply fst_zip; lia).
  assert ((zip weight value).*2 = value) as Hsnd by (apply snd_zip; lia).
  assert (len (zip weight value) = len weight) as Hzip
    by (unfold len; rewrite length_zip_with; lia).
  split_and!.
  - destruct (run_knapsack_dfs_calls weight value W Hlen)
      as (st & _ & Hrun & Htr). by rewrite Hrun, <-Htr.
  - rewrite (leaves_of_knap_calls (len weight) (zip weight value) 0 W 0)
      by lia.
    rewrite Hfst, Hsnd. apply map_ext. intros sel.
    by rewrite Z.add_0_l.
  - apply fitting_NoDup.
  - intros Hnn HW sel.
    rewrite (fitting_spec (zip weight value) W sel), Hfst; [|..|done].
    + by rewrite length_zip_with, Nat.min_l by lia.
    + apply Forall_forall. intros [a b] Hab.
      apply elem_of_zip_l in Hab. simpl. by eapply Forall_forall in Hnn.
  - destruct (run_target_sum_dfs_calls nums target)
      as (st & _ & Hrun & Htr & _). by rewrite Hrun, <-Htr.
  - rewrite (leaves_of_ts_calls (len nums) nums 0 0) by lia.
    apply map_ext. intros s. by rewrite Z.add_0_l.
Qed.

Lemma dfs_leaves_are_the_choices_witness :
  fst <$> Knapsack.run_knapsack_dfs [2; 3] [3; 4] 4
  = Ok (Spec.number_visits ∅
          (map Spec.knap_label (Spec.knap_calls (zip [2; 3] [3; 4]) 0 4 0)))
  ∧ Shape.leaves (len [2; 3]) (Spec.knap_calls (zip [2; 3] [3; 4]) 0 4 0)
    = map (λ sel, (len [2; 3], 4 - Spec.total sel [2; 3],
                   Spec.total sel [3; 4]))
        (Shape.fitting (zip [2; 3] [3; 4]) 4)
  ∧ NoDup (Shape.fitting (zip [2; 3] [3; 4]) 4)
  ∧ (Forall (λ x, 0 ≤ x) [2; 3] → 0 ≤ 4 →
     ∀ sel, sel ∈ Shape.fitting (zip [2; 3] [3; 4]) 4
            ↔ length sel = length [2; 3] ∧ Spec.total sel [2; 3] ≤ 4)
  ∧ (λ r, r.1.1.1) <$> TargetSum.run_target_sum_dfs [1; 2] 1
    = Ok (Spec.number_visits ∅ (map Spec.ts_label (Spec.ts_calls [1; 2] 0 0)))
  ∧ filter (λ c : Z * Z, c.1 = len [1; 2]) (Spec.ts_calls [1; 2] 0 0)
    = map (λ s, (len [1; 2], Spec.signed_sum s [1; 2]))
        (Spec.sign_assignments (length [1; 2])).
Proof.
  apply (dfs_leaves_are_the_choices [2; 3] [3; 4] [1; 2] 4 1). reflexivity.
Defined.

(** ** When the DP table is built *)

Section raising.
Import KnapsackDP Shape.

Lemma index_error_only_bind {A B} (m : result A) (f : A → result B) :
  index_error_only m → (∀ a, m = Ok a → index_error_only (f a)) →
  index_error_only (m ≫= f).
Proof.
  intros [[a ->]| ->] Hf; [|by right]. by apply Hf.
Qed.

Lemma getitem_index_error_only {A} (l : list A) k :
  index_error_only (getitem l k).
Proof.
  unfold getitem, index. cbv zeta.
  case_bool_decide; [|by right]. cbn [mbind result_bind bind].
  destruct (l !! _); [left; eauto|by right].
Qed.

Lemma setitem_index_error_only {A} (l : list A) k x :
  index_error_only (setitem l k x).
Proof.
  unfold setitem, index. cbv zeta.
  case_bool_decide; [left; eauto|by right].
Qed.

Lemma get2_index_error_only dp i w : index_error_only (get2 dp i w).
Proof.
  apply index_error_only_bind; [apply getitem_index_error_only|].
  intros row _. apply getitem_index_error_only.
Qed.

Lemma set2_index_error_only dp i w x : index_error_only (set2 dp i w x).
Proof.
  apply index_error_only_bind; [apply getitem_index_error_only|].
  intros row _.
  apply index_error_only_bind; [apply setitem_index_error_only|].
  intros row' _. apply setitem_index_error_only.
Qed.

Lemma fill_cell_index_error_only weight value i w dp :
  index_error_only (fill_cell weight value i w dp).
Proof.
  unfold fill_cell.
  apply index_error_only_bind; [apply get2_index_error_only|]. intros x _.
  apply index_error_only_bind; [apply set2_index_error_only|]. intros dp1 _.
  apply index_error_only_bind; [apply getitem_index_error_only|]. intros wi _.
  case_bool_decide; [|left; eauto].
  apply index_error_only_bind; [apply getitem_index_error_only|]. intros wi' _.
  apply index_error_only_bind; [apply get2_index_error_only|]. intros y _.
  apply index_error_only_bind; [apply getitem_index_error_only|]. intros vi _.
  apply index_error_only_bind; [apply get2_index_error_only|]. intros cur _.
  case_bool_decide; [apply set2_index_error_only|left; eauto].
Qed.

Lemma for_each_index_error_only {A S} (l : list A) (body : A → S → result S)
    (s : S) :
  (∀ x s, index_error_only (body x s)) →
  index_error_only (for_each l body s).
Proof.
  intros Hbody. revert s. induction l as [|x l IH]; intros s.
  { left. eauto. }
  rewrite for_each_cons. apply index_error_only_bind; [apply Hbody|].
  intros s' _. apply IH.
Qed.

(** A loop that returns has run its body on every element, from a state
    that satisfies every invariant of the body. *)
Lemma for_each_Ok_elem {A S} (P : S → Prop) (l : list A)
    (body : A → S → result S) (s s' : S) :
  for_each l body s = Ok s' → P s →
  (∀ y t t', y ∈ l → P t → body y t = Ok t' → P t') →
  P s' ∧ ∀ x, x ∈ l → ∃ t t', P t ∧ body x t = Ok t'.
Proof.
  revert s. induction l as [|y l IH]; intros s Hrun Hs Hbody.
  { injection Hrun as <-. split; [done|]. intros x Hx.
    by apply elem_of_nil in Hx. }
  rewrite for_each_cons in Hrun.
  apply bind_Ok in Hrun as (s1 & Hy & Hrun).
  destruct (IH s1 Hrun) as [Hs' Hall].
  { eapply Hbody; [left|done..]. }
  { intros z t t' Hz. apply Hbody. by right. }
  split; [done|]. intros x [->|Hx]%elem_of_cons; [eauto|by apply Hall].
Qed.

Lemma for_each_unchanged {A S} (l : list A) (body : A → S → result S)
    (s : S) :
  (∀ x, x ∈ l → body x s = Ok s) → for_each l body s = Ok s.
Proof.
  induction l as [|x l IH]; intros Hbody; [done|].
  rewrite for_each_cons, Hbody by left. cbn [mbind result_bind bind].
  apply IH. intros y Hy. apply Hbody. by right.
Qed.

Lemma setitem_Ok_length {A} (l l' : list A) k x :
  setitem l k x = Ok l' → length l' = length l.
Proof.
  unfold setitem. intros (j & _ & [= <-])%bind_Ok. by rewrite length_insert.
Qed.

Lemma getitem_Ok_elem_of {A} (l : list A) k x :
  getitem l k = Ok x → x ∈ l.
Proof.
  unfold getitem. intros (j & _ & Hj)%bind_Ok.
  destruct (l !! j) as [y|] eqn:Hy; [|done]. injection Hj as <-.
  by eapply list_elem_of_lookup_2.
Qed.

Lemma setitem_Ok_lookup {A} (l l' : list A) k x (j : nat) y :
  setitem l k x = Ok l' → l' !! j = Some y → y = x ∨ l !! j = Some y.
Proof.
  unfold setitem. intros (j' & _ & [= <-])%bind_Ok.
  destruct (decide (j' = j)) as [->|Hne].
  - intros Hy. left.
    apply list_lookup_insert_Some in Hy as [(_ & -> & _)|[? _]]; done.
  - rewrite list_lookup_insert_ne by done. by right.
Qed.

(** Writing a cell keeps the shape of the table. *)
Lemma set2_Ok_shape rows cols dp i w x dp' :
  set2 dp i w x = Ok dp' → shape rows cols dp → shape rows cols dp'.
Proof.
  unfold set2. intros (row & Hrow & Hset)%bind_Ok [Hrows Hcols].
  apply bind_Ok in Hset as (row' & Hrow' & Hset).
  split.
  - by rewrite (setitem_Ok_length _ _ _ _ Hset).
  - intros k r Hr.
    destruct (setitem_Ok_lookup _ _ _ _ _ _ Hset Hr) as [->|Hold].
    + rewrite (setitem_Ok_length _ _ _ _ Hrow').
      apply getitem_Ok_elem_of in Hrow.
      apply list_elem_of_lookup in Hrow as [k' Hk']. by eapply Hcols.
    + by eapply Hcols.
Qed.

Lemma fill_cell_Ok_shape rows cols weight value i w dp dp' :
  fill_cell weight value i w dp = Ok dp' →
  shape rows cols dp → shape rows cols dp'.
Proof.
  unfold fill_cell. intros Hrun Hshape.
  apply bind_Ok in Hrun as (x & _ & Hrun).
  apply bind_Ok in Hrun as (dp1 & Hset1 & Hrun).
  pose proof (set2_Ok_shape _ _ _ _ _ _ _ Hset1 Hshape) as Hshape1.
  apply bind_Ok in Hrun as (wi & _ & Hrun).
  case_bool_decide; [|by injection Hrun as <-].
  apply bind_Ok in Hrun as (wi' & _ & Hrun).
  apply bind_Ok in Hrun as (y & _ & Hrun).
  apply bind_Ok in Hrun as (vi & _ & Hrun).
  apply bind_Ok in Hrun as (cur & _ & Hrun).
  case_bool_decide; [|by injection Hrun as <-].
  by eapply set2_Ok_shape.
Qed.

(** The cell of an item of negative weight in the last column cannot be
    filled: the entry it reads lies beyond the row. *)
Lemma fill_cell_negative_weight rows cols weight value i dp dp' wi :
  1 ≤ i → weight !! Z.to_nat (i - 1) = Some wi → wi < 0 →
  shape rows (Z.to_nat (cols + 1)) dp → 0 ≤ cols →
  fill_cell weight value i cols dp = Ok dp' → False.
Proof.
  intros Hi Hwi Hneg Hshape Hcols. unfold fill_cell. intros Hrun.
  apply bind_Ok in Hrun as (x & _ & Hrun).
  apply bind_Ok in Hrun as (dp1 & Hset1 & Hrun).
  pose proof (set2_Ok_shape _ _ _ _ _ _ _ Hset1 Hshape) as [_ Hshape1].
  apply bind_Ok in Hrun as (wi' & Hwi' & Hrun).
  apply getitem_nonneg_inv in Hwi'; [|lia].
  rewrite Hwi in Hwi'. injection Hwi' as <-.
  rewrite bool_decide_eq_true_2 in Hrun by lia.
  apply bind_Ok in Hrun as (wi' & Hwi' & Hrun).
  apply getitem_nonneg_inv in Hwi'; [|lia].
  rewrite Hwi in Hwi'. injection Hwi' as <-.
  apply bind_Ok in Hrun as (y & Hy & _).
  apply get2_cell_inv in Hy; [|lia..].
  apply cell_Some in Hy as (row & Hrow & Hy).
  apply lookup_lt_Some in Hy. rewrite (Hshape1 _ _ Hrow) in Hy. lia.
Qed.

End raising.

(** When the DP program builds its table.  On validated input with a
    capacity that is not negative, the table and the graph are built if no
    weight is negative, and the table builder raises [IndexError] if some
    weight is: the cell of that item in the last column reads an entry
    beyond the end of the row.  With a negative capacity nothing is read:
    the table has [n + 1] empty rows and the graph has no node, whatever
    the weights. *)
Theorem dp_table_is_built_unless_a_weight_is_negative
    (weight value : list Z) (W : Z) :
  length weight = length value →
  (W < 0 →
   KnapsackDP.build_knapsack_dp_table weight value W
   = Ok (replicate (S (length weight)) [])
   ∧ App.knapsack_dp_graph weight value W = Ok Nx.empty)
  ∧ (0 ≤ W → Forall (λ x, 0 ≤ x) weight →
     ∃ dp g, KnapsackDP.build_knapsack_dp_table weight value W = Ok dp
             ∧ App.knapsack_dp_graph weight value W = Ok g)
  ∧ (0 ≤ W → Exists (λ x, x < 0) weight →
     KnapsackDP.build_knapsack_dp_table weight value W = Raise IndexError
     ∧ App.knapsack_dp_graph weight value W = Raise IndexError).
Proof.
  intros Hlen. split_and!.
  - intros HW.
    assert (KnapsackDP.build_knapsack_dp_table weight value W
            = Ok (replicate (S (length weight)) [])) as Hbuild.
    { unfold KnapsackDP.build_knapsack_dp_table, range, repeat_list.
      cbv zeta. rewrite (seqZ_nil 0 (W + 1)) by lia.
      replace (Z.to_nat (W + 1)) with 0%nat by lia.
      replace (Z.to_nat (len weight + 1)) with (S (length weight))
        by (unfold len; lia).
      by apply for_each_unchanged. }
    split; [done|].
    unfold App.knapsack_dp_graph. rewrite Hbuild.
    cbn [mbind result_bind bind].
    unfold KnapsackDP.build_dp_graph, KnapsackDP.build_dp_graph_state.
    assert (getitem (replicate (S (length weight)) ([] : list Z)) 0 = Ok [])
      as -> by (by apply (getitem_lookup _ 0%nat)).
    cbn [mbind result_bind bind]. change (len [] - 1 + 1) with 0.
    unfold range. rewrite (seqZ_nil 0 0) by lia.
    rewrite for_each_unchanged by done. cbn [mbind result_bind bind].
    by rewrite for_each_unchanged by done.
  - intros HW Hnn.
    destruct (build_knapsack_dp_table_ok weight value W Hlen Hnn)
      as (dp & Hbuild & _).
    destruct (knapsack_dp_renders weight value W Hlen Hnn) as [g Hg].
    by exists dp, g.
  - intros HW (wi & [k Hk]%list_elem_of_lookup & Hneg)%Exists_exists.
    assert (KnapsackDP.build_knapsack_dp_table weight value W
            = Raise IndexError) as Hbuild.
    { assert (Shape.index_error_only
                (KnapsackDP.build_knapsack_dp_table weight value W))
        as [[dp Hrun]|Hraise]; [| |done].
      { apply for_each_index_error_only. intros i dp.
        apply for_each_index_error_only. intros w dp'.
        apply fill_cell_index_error_only. }
      exfalso. unfold KnapsackDP.build_knapsack_dp_table in Hrun.
      cbv zeta in Hrun.
      eapply (for_each_Ok_elem
                (shape (S (length weight)) (Z.to_nat (W + 1)))) in Hrun
        as [_ Hall].
      - destruct (Hall (Z.of_nat k + 1)) as (t & t' & Ht & Hrow).
        { unfold range_from. apply elem_of_seqZ.
          apply lookup_lt_Some in Hk. unfold len. lia. }
        eapply (for_each_Ok_elem
                  (shape (S (length weight)) (Z.to_nat (W + 1)))) in Hrow
          as [_ Hcells]; [|done|].
        + destruct (Hcells W) as (t2 & t2' & Ht2 & Hcell).
          { unfold range. apply elem_of_seqZ. lia. }
          eapply (fill_cell_negative_weight _ W weight value
                    (Z.of_nat k + 1) t2 t2' wi); [lia| |done..].
          by replace (Z.to_nat (Z.of_nat k + 1 - 1)) with k by lia.
        + intros w t2 t2' _ Ht2 Hcell. by eapply fill_cell_Ok_shape.
      - split; [rewrite length_replicate; unfold len; lia|].
        intros j row [-> _]%lookup_replicate.
        unfold repeat_list. by rewrite length_replicate.
      - intros i t t' _ Ht Hrow.
        eapply (for_each_Ok_elem
                  (shape (S (length weight)) (Z.to_nat (W + 1)))) in Hrow
          as [Ht' _]; [done|done|].
        intros w t2 t2' _ Ht2 Hcell. by eapply fill_cell_Ok_shape. }
    split; [done|]. unfold App.knapsack_dp_graph. by rewrite Hbuild.
Qed.

Lemma dp_table_is_built_unless_a_weight_is_negative_witness :
  (5 < 0 →
   KnapsackDP.build_knapsack_dp_table [2; -3] [3; 4] 5
   = Ok (replicate (S (length [2; -3])) [])
   ∧ App.knapsack_dp_graph [2; -3] [3; 4] 5 = Ok Nx.empty)
  ∧ (0 ≤ 5 → Forall (λ x, 0 ≤ x) [2; -3] →
     ∃ dp g, KnapsackDP.build_knapsack_dp_table [2; -3] [3; 4] 5 = Ok dp
             ∧ App.knapsack_dp_graph [2; -3] [3; 4] 5 = Ok g)
  ∧ (0 ≤ 5 → Exists (λ x, x < 0) [2; -3] →
     KnapsackDP.build_knapsack_dp_table [2; -3] [3; 4] 5 = Raise IndexError
     ∧ App.knapsack_dp_graph [2; -3] [3; 4] 5 = Raise IndexError).
Proof.
  apply (dp_table_is_built_unless_a_weight_is_negative [2; -3] [3; 4] 5).
  reflexivity.
Defined.

(** ** Laws of the count of ways *)

Section counting.
Import Spec.

Lemma run_ways_count (nums : list Z) (target : Z) :
  snd <$> TargetSum.run_target_sum_dfs nums target
  = Ok (Z.of_nat (count_ways nums target)).
Proof.
  destruct (run_target_sum_dfs_calls nums target)
    as (st & _ & Hrun & _ & _ & Hwc).
  by rewrite Hrun, <-Hwc.
Qed.

Lemma count_ways_nil (target : Z) :
  count_ways [] target = if bool_decide (target = 0) then 1%nat else 0%nat.
Proof.
  unfold count_ways, signed_sum. simpl. rewrite filter_cons, filter_nil.
  simpl. case_decide; case_bool_decide; done.
Qed.

(** The count of a list is the sum of the counts of its tail for the two
    targets the first number leaves. *)
Lemma count_ways_cons (x : Z) (nums : list Z) (target : Z) :
  count_ways (x :: nums) target
  = (count_ways nums (target - x) + count_ways nums (target + x))%nat.
Proof.
  unfold count_ways. cbn [length sign_assignments].
  rewrite filter_app, length_app. f_equal.
  - apply count_filter_map. intros s. unfold signed_sum. simpl. lia.
  - apply count_filter_map. intros s. unfold signed_sum. simpl. lia.
Qed.

Lemma count_ways_opp (nums : list Z) (target : Z) :
  count_ways nums (- target) = count_ways nums target.
Proof.
  revert target. induction nums as [|x nums IH]; intros target.
  { rewrite !count_ways_nil. repeat case_bool_decide; lia. }
  rewrite !count_ways_cons.
  replace (- target - x) with (- (target + x)) by lia.
  replace (- target + x) with (- (target - x)) by lia.
  rewrite !IH. lia.
Qed.

Lemma count_ways_parity (nums : list Z) (target : Z) :
  Z.odd (foldr Z.add 0 nums + target) = true → count_ways nums target = 0%nat.
Proof.
  revert target. induction nums as [|x nums IH]; intros target Hodd.
  { rewrite count_ways_nil. simpl in Hodd.
    rewrite bool_decide_eq_false_2; [done|]. by intros ->. }
  rewrite count_ways_cons. simpl in Hodd.
  rewrite !IH; [done|..].
  - replace (foldr Z.add 0 nums + (target + x))
      with (x + foldr Z.add 0 nums + target) by lia. done.
  - replace (foldr Z.add 0 nums + (target - x))
      with (x + foldr Z.add 0 nums + target + 2 * (- x)) by lia.
    by rewrite Z.odd_add_mul_2.
Qed.

Lemma count_ways_out_of_reach (nums : list Z) (target : Z) :
  foldr Z.add 0 (Z.abs <$> nums) < Z.abs target →
  count_ways nums target = 0%nat.
Proof.
  revert target. induction nums as [|x nums IH]; intros target Hfar.
  { rewrite count_ways_nil. simpl in Hfar.
    rewrite bool_decide_eq_false_2; [done|]. lia. }
  rewrite count_ways_cons. csimpl in Hfar.
  rewrite !IH; [done|lia..].
Qed.

End counting.

(** Laws of the count of ways.  With no number the count is 1 for the
    target 0 and 0 for another target; the count of a list is the sum of the
    counts of its tail for the targets [target - x] and [target + x], [x]
    being the first number; the count is the same for [target] and
    [- target]; it is 0 when the sum of the numbers and the target differ
    by an odd number, and when the target is further from 0 than the
    absolute values of the numbers add up to. *)
Theorem ways_count_laws :
  (∀ target,
     snd <$> TargetSum.run_target_sum_dfs [] target
     = Ok (if bool_decide (target = 0) then 1 else 0))
  ∧ (∀ x nums target a b,
       snd <$> TargetSum.run_target_sum_dfs nums (target - x) = Ok a →
       snd <$> TargetSum.run_target_sum_dfs nums (target + x) = Ok b →
       snd <$> TargetSum.run_target_sum_dfs (x :: nums) target = Ok (a + b))
  ∧ (∀ nums target,
       snd <$> TargetSum.run_target_sum_dfs nums (- target)
       = snd <$> TargetSum.run_target_sum_dfs nums target)
  ∧ (∀ nums target,
       Z.odd (foldr Z.add 0 nums + target) = true →
       snd <$> TargetSum.run_target_sum_dfs nums target = Ok 0)
  ∧ (∀ nums target,
       foldr Z.add 0 (Z.abs <$> nums) < Z.abs target →
       snd <$> TargetSum.run_target_sum_dfs nums target = Ok 0).
Proof.
  split_and!.
  - intros target. rewrite run_ways_count, count_ways_nil.
    by case_bool_decide.
  - intros x nums target a b. rewrite !run_ways_count, count_ways_cons.
    intros [= <-] [= <-]. f_equal. lia.
  - intros nums target. by rewrite !run_ways_count, count_ways_opp.
  - intros nums target Hodd.
    by rewrite run_ways_count, count_ways_parity.
  - intros nums target Hfar.
    by rewrite run_ways_count, count_ways_out_of_reach.
Qed.

Lemma ways_count_laws_witness :
  snd <$> TargetSum.run_target_sum_dfs [1; 1; 1] (1 + 1) = Ok 0
  ∧ snd <$> TargetSum.run_target_sum_dfs [1; 1; 1; 1] 1 = Ok 0
  ∧ snd <$> TargetSum.run_target_sum_dfs [1; 1; 1] 5 = Ok 0.
Proof.
  destruct ways_count_laws as (_ & _ & _ & Hodd & Hfar).
  split_and!.
  - apply (Hodd [1; 1; 1] (1 + 1)). reflexivity.
  - apply (Hodd [1; 1; 1; 1] 1). reflexivity.
  - apply (Hfar [1; 1; 1] 5). reflexivity.
Defined.

(** ** The highlighter on any parent map *)

Section any_parent_map.
Import Spec Shape.
Variable pm : gmap string (string * string).

Lemma anc_step x y p l :
  pm !! y = Some (p, l) → ancestor pm x y ↔ x = y ∨ ancestor pm x p.
Proof. apply (ancestor_step (Visit.mkState [] pm ∅)). Qed.

Lemma anc_root x y : pm !! y = None → ancestor pm x y ↔ x = y.
Proof. apply (ancestor_root (Visit.mkState [] pm ∅)). Qed.

Lemma anc_parent x y z l :
  pm !! y = Some (x, l) → ancestor pm y z → ancestor pm x z.
Proof. apply (ancestor_parent (Visit.mkState [] pm ∅)). Qed.

(** A walk that has met the nodes [seen], all of them below [cur], ends
    within the budget when the chains of parents do not loop and the budget
    exceeds the number of keys not met yet. *)
Lemma walk_up_acyclic (fuel : nat) (seen : gset string) (cur : string)
    (hl : gset string) :
  acyclic pm →
  seen ⊆ dom pm →
  (∀ v, v ∈ seen → ∃ p l, pm !! v = Some (p, l) ∧ ancestor pm cur p) →
  (size (dom pm) < size seen + fuel)%nat →
  ∃ hl',
    TargetSum.walk_up fuel (TargetSum.quick_parent_of pm) cur hl = Ok hl'
    ∧ ∀ x, x ∈ hl' ↔ x ∈ hl ∨ ancestor pm x cur.
Proof.
  intros Hacyc. revert seen cur hl.
  induction fuel as [|fuel IH]; intros seen cur hl Hsub Hbelow Hsize.
  { apply subseteq_size in Hsub. lia. }
  simpl. unfold TargetSum.quick_parent_of. rewrite lookup_fmap.
  destruct (pm !! cur) as [[p l]|] eqn:Hcur; simpl.
  - assert (cur ∉ seen) as Hnew.
    { intros (p' & l' & Hp' & Hanc)%Hbelow.
      rewrite Hcur in Hp'. injection Hp' as <- <-.
      by apply (Hacyc cur p l). }
    destruct (IH ({[cur]} ∪ seen) p ({[cur]} ∪ hl)) as (hl' & Hrun & Hhl').
    + apply union_subseteq. split; [|done].
      apply singleton_subseteq_l, elem_of_dom. eauto.
    + intros v [->%elem_of_singleton|Hv]%elem_of_union.
      * exists p, l. split; [done|]. constructor.
      * destruct (Hbelow v Hv) as (p' & l' & Hp' & Hanc).
        exists p', l'. split; [done|]. by eapply anc_parent.
    + rewrite size_union, size_singleton by set_solver. lia.
    + exists hl'. split; [done|]. intros x.
      rewrite Hhl', (anc_step x cur p l Hcur). set_solver.
  - eexists. split; [done|]. intros x.
    rewrite (anc_root x cur Hcur). set_solver.
Qed.

(** A walk that starts below a loop of the parent map uses up every
    budget. *)
Lemma walk_up_loops (fuel : nat) (cur x p l : string) (hl : gset string) :
  ancestor pm x cur → pm !! x = Some (p, l) → ancestor pm x p →
  TargetSum.walk_up fuel (TargetSum.quick_parent_of pm) cur hl = OutOfFuel.
Proof.
  intros Hanc Hx Hloop. revert cur hl Hanc.
  induction fuel as [|fuel IH]; intros cur hl Hanc; [done|].
  simpl. unfold TargetSum.quick_parent_of. rewrite lookup_fmap.
  destruct (pm !! cur) as [[q lq]|] eqn:Hcur; simpl.
  - apply IH.
    destruct (proj1 (anc_step x cur q lq Hcur) Hanc) as [Heq|Hanc']; [|done].
    subst cur. assert (q = p) as Hq by congruence. by rewrite Hq.
  - pose proof (proj1 (anc_root x cur Hcur) Hanc) as Heq. subst cur.
    by rewrite Hcur in Hx.
Qed.

Lemma walk_up_never_raises (fuel : nat) (cur : string) (hl : gset string) e :
  TargetSum.walk_up fuel (TargetSum.quick_parent_of pm) cur hl ≠ Raise e.
Proof.
  revert cur hl. induction fuel as [|fuel IH]; intros cur hl; [done|].
  simpl. destruct (TargetSum.quick_parent_of pm !! cur); [apply IH|done].
Qed.

End any_parent_map.

(** The highlighter on any parent map.  [create_tree_graph_from_trace]
    walks up from every goal leaf until it meets a node without a parent.
    If the chains of parents of the map do not loop, every walk ends
    (within as many steps as the map has keys, plus one), and the
    highlighted nodes are the goal leaves and their ancestors, whatever the
    map and the leaves, leaves that are not keys of the map included.  If a
    goal leaf lies below a loop, its walk never ends: it uses up every
    budget, and so does the highlighter.  No walk raises an exception. *)
Theorem highlighter_ends_unless_parents_loop
    (parent_map : gmap string (string * string)) (valid_leaves : list string) :
  (Shape.acyclic parent_map →
   ∃ highlighted_nodes,
     TargetSum.highlight parent_map valid_leaves = Ok highlighted_nodes
     ∧ ∀ x, x ∈ highlighted_nodes
            ↔ ∃ leaf, leaf ∈ valid_leaves ∧ Spec.ancestor parent_map x leaf)
  ∧ (∀ leaf x p l,
       leaf ∈ valid_leaves → Spec.ancestor parent_map x leaf →
       parent_map !! x = Some (p, l) → Spec.ancestor parent_map x p →
       (∀ fuel hl,
          TargetSum.walk_up fuel (TargetSum.quick_parent_of parent_map) leaf hl
          = OutOfFuel)
       ∧ TargetSum.highlight parent_map valid_leaves = OutOfFuel)
  ∧ (∀ e, TargetSum.highlight parent_map valid_leaves ≠ Raise e).
Proof.
  split_and!.
  - intros Hacyc. unfold TargetSum.highlight. cbv zeta.
    cut (∀ hl0 : gset string, ∃ hl,
      for_each valid_leaves
        (TargetSum.walk_up (S (size (TargetSum.quick_parent_of parent_map)))
           (TargetSum.quick_parent_of parent_map)) hl0 = Ok hl
      ∧ ∀ x, x ∈ hl ↔ x ∈ hl0
             ∨ ∃ leaf, leaf ∈ valid_leaves ∧ Spec.ancestor parent_map x leaf).
    { intros Hcut. destruct (Hcut ∅) as (hl & Hrun & Hhl).
      exists hl. split; [done|]. intros x. rewrite Hhl. set_solver. }
    induction valid_leaves as [|leaf leaves IH]; intros hl0;
      [simpl|rewrite for_each_cons].
    { exists hl0. split; [done|]. intros x. split; [by left|].
      intros [Hx|(leaf & Hleaf & _)]; [done|]. by apply elem_of_nil in Hleaf. }
    destruct (walk_up_acyclic parent_map
                (S (size (TargetSum.quick_parent_of parent_map))) ∅ leaf hl0)
      as (hl1 & -> & Hhl1); [done|set_solver|set_solver| |].
    { unfold TargetSum.quick_parent_of.
      rewrite map_size_fmap, size_dom, size_empty. lia. }
    cbn [mbind result_bind bind].
    destruct (IH hl1) as (hl & -> & Hhl).
    exists hl. split; [done|]. intros x. rewrite Hhl, Hhl1.
    setoid_rewrite elem_of_cons. naive_solver.
  - intros leaf x p l Hleaf Hanc Hx Hloop.
    assert (∀ fuel hl,
      TargetSum.walk_up fuel (TargetSum.quick_parent_of parent_map) leaf hl
      = OutOfFuel) as Hwalk.
    { intros fuel hl. by eapply walk_up_loops. }
    split; [done|]. unfold TargetSum.highlight. cbv zeta.
    generalize (∅ : gset string) as hl0.
    induction valid_leaves as [|y leaves IH]; intros hl0.
    { by apply elem_of_nil in Hleaf. }
    rewrite for_each_cons.
    destruct (decide (y = leaf)) as [->|Hne].
    { by rewrite Hwalk. }
    destruct (TargetSum.walk_up _ _ y hl0) as [hl1| |] eqn:Hy.
    + cbn [mbind result_bind bind]. apply IH. set_solver.
    + by apply walk_up_never_raises in Hy.
    + done.
  - intros e. unfold TargetSum.highlight. cbv zeta.
    generalize (∅ : gset string) as hl0.
    induction valid_leaves as [|y leaves IH]; intros hl0; [done|].
    rewrite for_each_cons.
    destruct (TargetSum.walk_up _ _ y hl0) as [hl1|e'|] eqn:Hy.
    + cbn [mbind result_bind bind]. apply IH.
    + by apply walk_up_never_raises in Hy.
    + done.
Qed.

Lemma highlighter_ends_unless_parents_loop_witness :
  (∃ highlighted_nodes,
     TargetSum.highlight {[ "b" := ("a", "+1") ]} ["b"; "z"]
     = Ok highlighted_nodes
     ∧ ∀ x, x ∈ highlighted_nodes
            ↔ ∃ leaf, leaf ∈ ["b"; "z"]
                      ∧ Spec.ancestor {[ "b" := ("a", "+1") ]} x leaf)
  ∧ TargetSum.highlight {[ "a" := ("b", "+1"); "b" := ("a", "-1") ]} ["a"]
    = OutOfFuel.
Proof.
  split.
  - apply (highlighter_ends_unless_parents_loop
             {[ "b" := ("a", "+1") ]} ["b"; "z"]).
    intros x p l Hx Hanc.
    apply lookup_singleton_Some in Hx as [<- [= <- <-]].
    inversion Hanc as [|? ? p' l' Hp' _]; subst.
    by apply lookup_singleton_Some in Hp' as [[=] _].
  - destruct (highlighter_ends_unless_parents_loop
                {[ "a" := ("b", "+1"); "b" := ("a", "-1") ]} ["a"])
      as (_ & Hloop & _).
    apply (Hloop "a" "a" "b" "+1").
    + left.
    + constructor.
    + done.
    + econstructor; [done|]. constructor.
Defined.

(** ** The edges of the DFS graphs *)

Section steps.
Import Visit Shape.

(** What a visit records: the entry of the visited node, if it has a
    parent, and the entries that were there. *)
Lemma visit_parent_map b parent l st c p' l' :
  parent_map (visit b parent l st).2 !! c = Some (p', l') →
  (parent = Some p' ∧ l' = l ∧ c = (visit b parent l st).1)
  ∨ parent_map st !! c = Some (p', l').
Proof.
  simpl. destruct parent as [p|]; [|by right].
  destruct (decide (c = node_id b (next_count b st))) as [->|Hne].
  - rewrite lookup_insert_eq. intros [= <- <-]. by left.
  - rewrite lookup_insert_ne by done. by right.
Qed.

(** Every entry a call of the Knapsack [dfs] records is a step of the
    recursion, when the call itself is one. *)
Lemma knapsack_dfs_steps (weight value : list Z) (fuel : nat) (i w v : Z)
    (parent_id : option string) (edge_label : string) (st st' : state) :
  Knapsack.dfs weight value fuel i w v parent_id edge_label st = Ok st' →
  (∀ c p l, parent_map st !! c = Some (p, l) →
            knapsack_step weight value p l c) →
  (∀ p cc, parent_id = Some p →
           knapsack_step weight value p edge_label
             (node_id (Knapsack.base_label i w v) cc)) →
  ∀ c p l, parent_map st' !! c = Some (p, l) →
           knapsack_step weight value p l c.
Proof.
  revert i w v parent_id edge_label st st'.
  induction fuel as [|fuel IH]; intros i w v parent_id edge_label st st';
    [done|].
  cbn [Knapsack.dfs]. intros Hdfs Hst Hcall.
  assert (∀ c p l,
    parent_map (visit (Knapsack.base_label i w v) parent_id edge_label st).2
      !! c = Some (p, l) → knapsack_step weight value p l c) as Hst1.
  { intros c p l [(-> & -> & ->)|Hold]%visit_parent_map; [|by apply Hst].
    by apply Hcall. }
  pose proof (visit_id (Knapsack.base_label i w v) parent_id edge_label st)
    as Hid.
  destruct (visit (Knapsack.base_label i w v) parent_id edge_label st)
    as [u st1]. simpl in Hst1, Hid.
  case_bool_decide; [by injection Hdfs as <-|].
  apply bind_Ok in Hdfs as (st2 & Hdfs2 & Hrest).
  assert (∀ c p l, parent_map st2 !! c = Some (p, l) →
                   knapsack_step weight value p l c) as Hst2.
  { eapply IH; [done|done|]. intros p cc [= <-].
    exists i, w, v, (next_count (Knapsack.base_label i w v) st), cc.
    split; [done|]. by left. }
  apply bind_Ok in Hrest as (wi & Hwi & Hrest).
  case_bool_decide as Hge; [|by injection Hrest as <-].
  apply bind_Ok in Hrest as (wi' & Hwi' & Hrest).
  apply bind_Ok in Hrest as (vi & Hvi & Hrest).
  rewrite Hwi in Hwi'. injection Hwi' as <-.
  eapply IH; [done|done|]. intros p cc [= <-].
  exists i, w, v, (next_count (Knapsack.base_label i w v) st), cc.
  split; [done|]. right. exists wi, vi. by split_and!.
Qed.

Lemma target_sum_dfs_steps (nums : list Z) (target : Z) (fuel : nat)
    (i cur : Z) (parent_id : option string) (edge_label : string)
    (st st' : TargetSum.state) :
  TargetSum.dfs nums target fuel i cur parent_id edge_label st = Ok st' →
  (∀ c p l, parent_map (TargetSum.visited st) !! c = Some (p, l) →
            target_sum_step nums p l c) →
  (∀ p cc, parent_id = Some p →
           target_sum_step nums p edge_label
             (node_id (TargetSum.base_label i cur) cc)) →
  ∀ c p l, parent_map (TargetSum.visited st') !! c = Some (p, l) →
           target_sum_step nums p l c.
Proof.
  revert i cur parent_id edge_label st st'.
  induction fuel as [|fuel IH]; intros i cur parent_id edge_label st st';
    [done|].
  cbn [TargetSum.dfs]. intros Hdfs Hst Hcall.
  assert (∀ c p l,
    parent_map (visit (TargetSum.base_label i cur) parent_id edge_label
                  (TargetSum.visited st)).2
      !! c = Some (p, l) → target_sum_step nums p l c) as Hst1.
  { intros c p l [(-> & -> & ->)|Hold]%visit_parent_map; [|by apply Hst].
    by apply Hcall. }
  pose proof (visit_id (TargetSum.base_label i cur) parent_id edge_label
                (TargetSum.visited st)) as Hid.
  destruct (visit (TargetSum.base_label i cur) parent_id edge_label
              (TargetSum.visited st)) as [u vis]. simpl in Hst1, Hid.
  case_bool_decide.
  { case_bool_decide; by injection Hdfs as <-. }
  apply bind_Ok in Hdfs as (x & Hx & Hdfs).
  apply bind_Ok in Hdfs as (y & Hy & Hdfs).
  rewrite Hx in Hy. injection Hy as <-.
  apply bind_Ok in Hdfs as (st2 & Hdfs2 & Hdfs).
  apply bind_Ok in Hdfs as (x' & Hx' & Hdfs).
  apply bind_Ok in Hdfs as (y' & Hy' & Hdfs).
  rewrite Hx in Hx', Hy'. injection Hx' as <-. injection Hy' as <-.
  assert (∀ c p l, parent_map (TargetSum.visited st2) !! c = Some (p, l) →
                   target_sum_step nums p l c) as Hst2.
  { eapply IH; [done|done|]. intros p cc [= <-].
    exists i, cur, x,
      (next_count (TargetSum.base_label i cur) (TargetSum.visited st)), cc.
    split; [done|]. split; [done|]. by left. }
  eapply IH; [done|done|]. intros p cc [= <-].
  exists i, cur, x,
    (next_count (TargetSum.base_label i cur) (TargetSum.visited st)), cc.
  split; [done|]. split; [done|]. by right.
Qed.

End steps.

(** The edges of the DFS graphs are the steps of the recursions.  In the
    graph of a Knapsack run every edge goes from a visit of a state
    [(i, w, v)] to a visit of [(i+1, w, v)] with the label "Skip item i", or
    to a visit of [(i+1, w - weight[i], v + value[i])] with the label
    "Pick item i", and then [w >= weight[i]].  In the graph of a Target Sum
    run every edge goes from a visit of [(i, s)] to a visit of
    [(i+1, s + nums[i])] with the label "+nums[i]" or to a visit of
    [(i+1, s - nums[i])] with the label "-nums[i]". *)
Theorem dfs_edges_are_steps (weight value nums : list Z) (W target : Z) :
  length weight = length value →
  (∃ trace parent_map g,
     Knapsack.run_knapsack_dfs weight value W = Ok (trace, parent_map)
     ∧ Knapsack.create_tree_graph_from_trace trace parent_map = Ok g
     ∧ ∀ p c l, Nx.has_edge g p c l → Shape.knapsack_step weight value p l c)
  ∧ (∃ trace parent_map valid_leaves ways_count g highlighted_nodes,
       TargetSum.run_target_sum_dfs nums target
       = Ok (trace, parent_map, valid_leaves, ways_count)
       ∧ TargetSum.create_tree_graph_from_trace trace parent_map valid_leaves
         = Ok (g, highlighted_nodes)
       ∧ ∀ p c l, Nx.has_edge g p c l → Shape.target_sum_step nums p l c).
Proof.
  intros Hlen. split.
  - destruct (run_knapsack_dfs_calls weight value W Hlen)
      as (st & Hdfs & Hrun & _).
    destruct (knapsack_graph_ok (Visit.trace st) (Visit.parent_map st))
      as (g & Hg & Hedge & _).
    exists (Visit.trace st), (Visit.parent_map st), g.
    split; [done|]. split; [done|].
    intros p c l Hl%Hedge.
    eapply knapsack_dfs_steps; [done| |done|done].
    intros c' p' l'. simpl. by rewrite lookup_empty.
  - destruct (run_target_sum_dfs_calls nums target)
      as (st & Hdfs & Hrun & _).
    pose proof Hdfs as Hdfs'.
    apply target_sum_dfs_wf in Hdfs' as (Hwf & _ & Hvl);
      [|apply wf_init|done|by intros x Hx; apply elem_of_nil in Hx].
    destruct (add_nodes_ok "base_label" (Visit.trace (TargetSum.visited st))
                Nx.empty) as (G0 & HG0 & Hedges0 & _).
    destruct (add_edges_spec (Visit.parent_map (TargetSum.visited st)) G0
                Hedges0) as [Hedge _].
    destruct (highlight_spec _ Hwf _ Hvl) as (hl & Hhl & _).
    eexists _, _, _, _, _, hl. split; [done|]. split.
    { unfold TargetSum.create_tree_graph_from_trace. rewrite HG0.
      cbn [mbind result_bind bind]. by rewrite Hhl. }
    intros p c l Hl%Hedge.
    eapply target_sum_dfs_steps; [done| |done|done].
    intros c' p' l'. simpl. by rewrite lookup_empty.
Qed.

Lemma dfs_edges_are_steps_witness :
  (∃ trace parent_map g,
     Knapsack.run_knapsack_dfs [2; 3] [3; 4] 5 = Ok (trace, parent_map)
     ∧ Knapsack.create_tree_graph_from_trace trace parent_map = Ok g
     ∧ ∀ p c l, Nx.has_edge g p c l
                → Shape.knapsack_step [2; 3] [3; 4] p l c)
  ∧ (∃ trace parent_map valid_leaves ways_count g highlighted_nodes,
       TargetSum.run_target_sum_dfs [1; 2] 1
       = Ok (trace, parent_map, valid_leaves, ways_count)
       ∧ TargetSum.create_tree_graph_from_trace trace parent_map valid_leaves
         = Ok (g, highlighted_nodes)
       ∧ ∀ p c l, Nx.has_edge g p c l
                  → Shape.target_sum_step [1; 2] p l c).
Proof.
  apply (dfs_edges_are_steps [2; 3] [3; 4] [1; 2] 5 1). reflexivity.
Defined.

(** ** Labels and states *)

Section label_injectivity.
Import Shape.

Lemma pretty_N_char_digit_or (d : N) (c : ascii) :
  is_digit c = false → pretty_N_char d ≠ c.
Proof.
  intros Hc <-. unfold pretty_N_char in Hc. by repeat case_match.
Qed.

Lemma pretty_N_go_avoids (c : ascii) (x : N) (s : string) :
  is_digit c = false → avoids c s → avoids c (pretty_N_go x s).
Proof.
  intros Hc. revert s. induction (N.lt_wf_0 x) as [x _ IH]; intros s Hs.
  destruct (decide (x = 0)%N) as [->|Hx]; [by rewrite pretty_N_go_0|].
  rewrite pretty_N_go_step by lia.
  apply IH; [apply N.div_lt; lia|]. split; [|done].
  by apply pretty_N_char_digit_or.
Qed.

(** The decimal notation of an integer holds digits and the minus sign
    only. *)
Lemma pretty_Z_avoids (c : ascii) (z : Z) :
  is_digit c = false → c ≠ "-"%char → avoids c (pretty z).
Proof.
  intros Hc Hminus.
  assert (∀ p : positive, avoids c (pretty p)) as Hpos.
  { intros p. unfold pretty, pretty_positive, pretty, pretty_N.
    rewrite decide_False by done. by apply pretty_N_go_avoids. }
  destruct z as [|p|p].
  - split; [|done]. intros <-. done.
  - apply Hpos.
  - split; [done|]. apply Hpos.
Qed.

Lemma avoids_not_app (c : ascii) (s d : string) :
  ¬ avoids c (s +:+ String c d).
Proof. induction s as [|c' s IH]; intros [??]; [done|]. by apply IH. Qed.

(** Two strings cut at the first occurrence of a character are equal
    part by part. *)
Lemma app_sep_inj (c : ascii) (a a' r r' : string) :
  avoids c a → avoids c a' →
  a +:+ String c r = a' +:+ String c r' → a = a' ∧ r = r'.
Proof.
  revert a'. induction a as [|x a IH]; intros [|x' a'] Ha Ha' Heq.
  - by injection Heq as ->.
  - injection Heq as <- ->. destruct Ha' as [Hx _]. done.
  - injection Heq as -> <-. destruct Ha as [Hx _]. done.
  - injection Heq as -> Heq. destruct Ha as [_ Ha]. destruct Ha' as [_ Ha'].
    by destruct (IH _ Ha Ha' Heq) as [-> ->].
Qed.

Lemma pretty_sep_inj (c : ascii) (z z' : Z) (r r' : string) :
  is_digit c = false → c ≠ "-"%char →
  pretty z +:+ String c r = pretty z' +:+ String c r' → z = z' ∧ r = r'.
Proof.
  intros Hc Hminus Heq.
  apply app_sep_inj in Heq as [Hz ->]; [|by apply pretty_Z_avoids..].
  split; [|done]. by apply (inj pretty).
Qed.

Lemma knapsack_base_label_inj (i w v i' w' v' : Z) :
  Knapsack.base_label i w v = Knapsack.base_label i' w' v' →
  i = i' ∧ w = w' ∧ v = v'.
Proof.
  unfold Knapsack.base_label. intros Heq.
  apply (inj (String.app "dp(")) in Heq.
  apply (pretty_sep_inj ","%char) in Heq as [-> Heq]; [|done..].
  apply (pretty_sep_inj ","%char) in Heq as [-> Heq]; [|done..].
  apply (pretty_sep_inj ")"%char) in Heq as [-> _]; done.
Qed.

Lemma target_sum_base_label_inj (i cur i' cur' : Z) :
  TargetSum.base_label i cur = TargetSum.base_label i' cur' →
  i = i' ∧ cur = cur'.
Proof.
  unfold TargetSum.base_label. intros Heq.
  apply (inj (String.app "dfs(")) in Heq.
  apply (pretty_sep_inj ","%char) in Heq as [-> Heq]; [|done..].
  injection Heq as Heq.
  apply (pretty_sep_inj ")"%char) in Heq as [-> _]; done.
Qed.

Lemma node_label_inj (i w x i' w' x' : Z) :
  node_label i w x = node_label i' w' x' → i = i' ∧ w = w' ∧ x = x'.
Proof.
  unfold node_label. intros Heq.
  apply (inj (String.app "dp(")) in Heq.
  apply (pretty_sep_inj ","%char) in Heq as [-> Heq]; [|done..].
  apply (pretty_sep_inj ")"%char) in Heq as [-> Heq]; [|done..].
  injection Heq as Heq. split; [done|]. split; [done|].
  by apply (inj pretty).
Qed.

End label_injectivity.

(** The labels tell the states apart.  Two states of the Knapsack
    recursion with the same base label "dp(i,w,v)" are the same state, and
    so for the base labels "dfs(i, s)" of Target Sum and the node labels
    "dp(i,w)=x" of the DP graph; hence two identifiers are equal only if
    they number the same visit of the same state, and two nodes of a DFS
    graph have the same display label only if they are visits of the same
    state. *)
Theorem labels_tell_the_states_apart :
  (∀ i w v i' w' v',
     Knapsack.base_label i w v = Knapsack.base_label i' w' v' →
     i = i' ∧ w = w' ∧ v = v')
  ∧ (∀ i cur i' cur',
       TargetSum.base_label i cur = TargetSum.base_label i' cur' →
       i = i' ∧ cur = cur')
  ∧ (∀ i w x i' w' x',
       Shape.node_label i w x = Shape.node_label i' w' x' →
       i = i' ∧ w = w' ∧ x = x')
  ∧ (∀ i w v c i' w' v' c',
       Visit.node_id (Knapsack.base_label i w v) c
       = Visit.node_id (Knapsack.base_label i' w' v') c' →
       i = i' ∧ w = w' ∧ v = v' ∧ c = c')
  ∧ (∀ i cur c i' cur' c',
       Visit.node_id (TargetSum.base_label i cur) c
       = Visit.node_id (TargetSum.base_label i' cur') c' →
       i = i' ∧ cur = cur' ∧ c = c').
Proof.
  split_and!.
  - apply knapsack_base_label_inj.
  - apply target_sum_base_label_inj.
  - apply node_label_inj.
  - intros i w v c i' w' v' c' [Hb ->]%node_id_inj.
    apply knapsack_base_label_inj in Hb as (-> & -> & ->). done.
  - intros i cur c i' cur' c' [Hb ->]%node_id_inj.
    apply target_sum_base_label_inj in Hb as (-> & ->). done.
Qed.

(** ** The goal leaves *)

Section goal_leaves.
Import Spec Visit.

Lemma elem_of_goal_ids n target ids calls x :
  x ∈ goal_ids n target ids calls
  ↔ ∃ (j : nat) c, ids !! j = Some x ∧ calls !! j = Some c
                   ∧ ts_goal n target c.
Proof.
  unfold goal_ids. rewrite list_elem_of_fmap. split.
  - intros ([x' c] & -> & [Hgoal Hin]%list_elem_of_filter).
    apply elem_of_lookup_zip_with in Hin as (j & a & b & [= <- <-] & Ha & Hb).
    exists j, c. by split_and!.
  - intros (j & c & Hx & Hc & Hgoal). exists (x, c). split; [done|].
    apply list_elem_of_filter. split; [done|].
    apply elem_of_lookup_zip_with. exists j, x, c. by split_and!.
Qed.

Lemma goal_ids_sublist n target ids calls :
  goal_ids n target ids calls `sublist_of` ids.
Proof.
  unfold goal_ids.
  etrans; [apply fmap_sublist, sublist_filter|].
  revert calls. induction ids as [|x ids IH]; intros [|c calls]; csimpl;
    try apply sublist_nil_l.
  apply sublist_skip, IH.
Qed.

End goal_leaves.

(** The goal leaves of a Target Sum run are leaves.  [valid_leaves] lists,
    once each and in the order of the trace, the identifiers of the visits
    of the state [(len(nums), target)], as many as [ways_count] tells; each
    of them is a node of the graph without an outgoing edge, and is
    highlighted. *)
Theorem goal_leaves_are_leaves (nums : list Z) (target : Z) :
  ∃ trace parent_map valid_leaves ways_count g highlighted_nodes,
    TargetSum.run_target_sum_dfs nums target
    = Ok (trace, parent_map, valid_leaves, ways_count)
    ∧ TargetSum.create_tree_graph_from_trace trace parent_map valid_leaves
      = Ok (g, highlighted_nodes)
    ∧ NoDup valid_leaves
    ∧ sublist valid_leaves trace
    ∧ len valid_leaves = ways_count
    ∧ (∀ x, x ∈ valid_leaves
            ↔ x ∈ trace
              ∧ ∃ c, x = Visit.node_id
                           (TargetSum.base_label (len nums) target) c)
    ∧ (∀ x, x ∈ valid_leaves →
            is_Some (Nx.nodes g !! x)
            ∧ (∀ v l, ¬ Nx.has_edge g x v l)
            ∧ x ∈ highlighted_nodes).
Proof.
  destruct (run_target_sum_dfs_calls nums target)
    as (st & Hdfs & Hrun & Htr & Hvl & Hwc).
  pose proof Hdfs as Hdfs'.
  apply target_sum_dfs_wf in Hdfs' as (Hwf & _ & Hvlin);
    [|apply wf_init|done|by intros x Hx; apply elem_of_nil in Hx].
  assert (∃ root, Visit.trace (TargetSum.visited st) !! 0%nat = Some root)
    as [root Hroot].
  { rewrite Htr. destruct nums; simpl; eauto. }
  destruct (tree_graph_shape "base_label" _ root Hwf Hroot)
    as (G0 & HG0 & Hnodes & _).
  destruct (add_edges_spec (Visit.parent_map (TargetSum.visited st)) G0)
    as [Hedge _].
  { destruct (add_nodes_lookup "base_label" _ (wf_nodup _ Hwf))
      as (G0' & HG0' & Hedges0 & _).
    rewrite HG0 in HG0'. by injection HG0' as <-. }
  destruct (highlight_spec _ Hwf _ Hvlin) as (hl & Hhl & Hspec).
  assert (length (Visit.trace (TargetSum.visited st))
          = length (Spec.ts_calls nums 0 0)) as Hlen
    by (by rewrite Htr, length_number_visits, length_map).
  assert (∀ x, x ∈ TargetSum.valid_leaves st
     ↔ x ∈ Visit.trace (TargetSum.visited st)
       ∧ ∃ c, x = Visit.node_id (TargetSum.base_label (len nums) target) c)
    as Hchar.
  { intros x. rewrite Hvl, elem_of_goal_ids. split.
    - intros (j & [i s] & Hx & Hc & [Hi Hs]). simpl in Hi, Hs. subst i s.
      split; [by eapply list_elem_of_lookup_2|].
      assert (map Spec.ts_label (Spec.ts_calls nums 0 0) !! j
              = Some (TargetSum.base_label (len nums) target)) as Hb.
      { change (map ?f ?l) with (f <$> l). by rewrite list_lookup_fmap, Hc. }
      rewrite Htr, (number_visits_lookup _ _ _ _ Hb) in Hx.
      apply (inj Some) in Hx. subst x. eauto.
    - intros [[j Hj]%list_elem_of_lookup [c ->]].
      destruct (lookup_lt_is_Some_2 (Spec.ts_calls nums 0 0) j)
        as [[i s] Hc].
      { rewrite <-Hlen. by eapply lookup_lt_Some. }
      assert (map Spec.ts_label (Spec.ts_calls nums 0 0) !! j
              = Some (TargetSum.base_label i s)) as Hb.
      { change (map ?f ?l) with (f <$> l). by rewrite list_lookup_fmap, Hc. }
      pose proof Hj as Hj'.
      rewrite Htr, (number_visits_lookup _ _ _ _ Hb) in Hj'.
      apply (inj Some) in Hj'. apply node_id_inj in Hj' as [Heq _].
      apply target_sum_base_label_inj in Heq as [-> ->].
      exists j, (len nums, target). by split_and!. }
  eexists _, _, _, _, _, hl. split; [done|]. split.
  { unfold TargetSum.create_tree_graph_from_trace. rewrite HG0.
    cbn [mbind result_bind bind]. by rewrite Hhl. }
  split_and!.
  - rewrite Hvl. eapply sublist_NoDup; [apply Hwf|apply goal_ids_sublist].
  - rewrite Hvl. apply goal_ids_sublist.
  - rewrite Hwc. unfold len. f_equal.
    rewrite Hvl, length_goal_ids by done.
    rewrite (ts_goals_count nums target nums 0 0) by lia. done.
  - done.
  - intros x Hx. split_and!.
    + apply Hnodes. by apply Hvlin.
    + intros v l Hedge'%Hedge.
      eapply target_sum_dfs_steps in Hedge'; [|done| |done].
      * destruct Hedge' as (i & s & y & cp & cc & Heq & Hy & _).
        apply Hchar in Hx as [_ [c ->]].
        apply node_id_inj in Heq as [Heq _].
        apply target_sum_base_label_inj in Heq as [<- _].
        unfold getitem, index in Hy. cbv zeta in Hy.
        rewrite (bool_decide_eq_false_2 (len nums < 0)) in Hy
          by (unfold len; lia).
        by rewrite bool_decide_eq_false_2 in Hy by lia.
      * intros c' p' l'. simpl. by rewrite lookup_empty.
    + apply Hspec. exists x. split; [done|]. constructor.
Qed.

(** ** The states the recursions visit *)

Section visited_states.
Import Spec.

Lemma knap_calls_capacity (items : list (Z * Z)) (i w v : Z) (c : Z * Z * Z) :
  0 ≤ w → c ∈ knap_calls items i w v → 0 ≤ c.1.2.
Proof.
  revert i w v. induction items as [|[wi vi] items IH]; intros i w v Hw.
  { by intros ->%list_elem_of_singleton. }
  cbn [knap_calls]. rewrite elem_of_cons, elem_of_app.
  intros [->|[Hc|Hc]]; [done|by eapply IH|].
  case_bool_decide; [|by apply elem_of_nil in Hc].
  eapply IH; [|done]. lia.
Qed.

(** Every state of the recursion is the state of a choice among the items
    before it. *)
Lemma knap_calls_choice (items : list (Z * Z)) (i w v : Z) (c : Z * Z * Z) :
  c ∈ knap_calls items i w v →
  ∃ sel, Z.of_nat (length sel) = c.1.1 - i
         ∧ (length sel ≤ length items)%nat
         ∧ c.1.2 = w - total sel items.*1
         ∧ c.2 = v + total sel items.*2.
Proof.
  revert i w v. induction items as [|[wi vi] items IH]; intros i w v.
  { intros ->%list_elem_of_singleton. exists []. simpl. lia. }
  cbn [knap_calls]. rewrite elem_of_cons, elem_of_app.
  intros [->|[Hc|Hc]].
  - exists []. simpl. lia.
  - destruct (IH _ _ _ Hc) as (sel & Hl & Hle & Hw & Hv).
    exists (false :: sel). csimpl. split_and!; lia.
  - case_bool_decide; [|by apply elem_of_nil in Hc].
    destruct (IH _ _ _ Hc) as (sel & Hl & Hle & Hw & Hv).
    exists (true :: sel). csimpl. split_and!; lia.
Qed.

Lemma ts_calls_choice (nums : list Z) (i cur : Z) (c : Z * Z) :
  c ∈ ts_calls nums i cur →
  ∃ s, Z.of_nat (length s) = c.1 - i
       ∧ (length s ≤ length nums)%nat
       ∧ Forall (λ x, x = 1 ∨ x = -1) s
       ∧ c.2 = cur + signed_sum s nums.
Proof.
  revert i cur. induction nums as [|x nums IH]; intros i cur.
  { intros ->%list_elem_of_singleton. exists []. unfold signed_sum.
    simpl. split_and!; [lia..|done|lia]. }
  cbn [ts_calls]. rewrite elem_of_cons, elem_of_app.
  intros [->|[Hc|Hc]].
  - exists []. unfold signed_sum. simpl. split_and!; [lia..|done|lia].
  - destruct (IH _ _ Hc) as (s & Hl & Hle & Hs & Hsum).
    exists (1 :: s). unfold signed_sum in *. simpl.
    split_and!; [lia..|by constructor; [left|]|lia].
  - destruct (IH _ _ Hc) as (s & Hl & Hle & Hs & Hsum).
    exists (-1 :: s). unfold signed_sum in *. simpl.
    split_and!; [lia..|by constructor; [right|]|lia].
Qed.

End visited_states.

(** The states the recursions visit.  Every state [(i, w, v)] of a
    Knapsack run has [0 <= i <= n] and is the state of a choice among the
    first [i] items: [w] is the capacity less the weight of the choice and
    [v] is its value; the capacity left is never negative when the capacity
    is not, whatever the weights, since an item is picked only if it fits.
    Every state [(i, s)] of a Target Sum run has [0 <= i <= n], and [s] is
    the signed sum of the first [i] numbers for some signs. *)
Theorem visited_states_are_choices (weight value nums : list Z)
    (W target : Z) :
  length weight = length value →
  fst <$> Knapsack.run_knapsack_dfs weight value W
  = Ok (Spec.number_visits ∅
          (map Spec.knap_label (Spec.knap_calls (zip weight value) 0 W 0)))
  ∧ (∀ i w v,
       (i, w, v) ∈ Spec.knap_calls (zip weight value) 0 W 0 →
       0 ≤ i ≤ len weight
       ∧ (0 ≤ W → 0 ≤ w)
       ∧ ∃ sel, Z.of_nat (length sel) = i
                ∧ w = W - Spec.total sel weight
                ∧ v = Spec.total sel value)
  ∧ (λ r, r.1.1.1) <$> TargetSum.run_target_sum_dfs nums target
    = Ok (Spec.number_visits ∅ (map Spec.ts_label (Spec.ts_calls nums 0 0)))
  ∧ (∀ i s,
       (i, s) ∈ Spec.ts_calls nums 0 0 →
       0 ≤ i ≤ len nums
       ∧ ∃ signs, Z.of_nat (length signs) = i
                  ∧ Forall (λ x, x = 1 ∨ x = -1) signs
                  ∧ s = Spec.signed_sum signs nums).
Proof.
  intros Hlen.
  assert ((zip weight value).*1 = weight) as Hfst by (apply fst_zip; lia).
  assert ((zip weight value).*2 = value) as Hsnd by (apply snd_zip; lia).
  assert (length (zip weight value) = length weight) as Hzip
    by (rewrite length_zip_with; lia).
  split_and!.
  - destruct (run_knapsack_dfs_calls weight value W Hlen)
      as (st & _ & Hrun & Htr). by rewrite Hrun, <-Htr.
  - intros i w v Hc.
    destruct (knap_calls_choice _ _ _ _ _ Hc) as (sel & Hl & Hle & Hw & Hv).
    simpl in Hl, Hw, Hv. rewrite Hfst in Hw. rewrite Hsnd in Hv.
    split_and!.
    + lia.
    + unfold len. lia.
    + intros HW. by apply (knap_calls_capacity _ _ _ _ _ HW Hc).
    + exists sel. split_and!; lia.
  - destruct (run_target_sum_dfs_calls nums target)
      as (st & _ & Hrun & Htr & _). by rewrite Hrun, <-Htr.
  - intros i s Hc.
    destruct (ts_calls_choice _ _ _ _ Hc) as (signs & Hl & Hle & Hs & Hsum).
    simpl in Hl, Hsum. split; [unfold len; lia|].
    exists signs. split_and!; [lia|done|lia].
Qed.

Lemma visited_states_are_choices_witness :
  fst <$> Knapsack.run_knapsack_dfs [2; 3] [3; 4] 4
  = Ok (Spec.number_visits ∅
          (map Spec.knap_label (Spec.knap_calls (zip [2; 3] [3; 4]) 0 4 0)))
  ∧ (∀ i w v,
       (i, w, v) ∈ Spec.knap_calls (zip [2; 3] [3; 4]) 0 4 0 →
       0 ≤ i ≤ len [2; 3]
       ∧ (0 ≤ 4 → 0 ≤ w)
       ∧ ∃ sel, Z.of_nat (length sel) = i
                ∧ w = 4 - Spec.total sel [2; 3]
                ∧ v = Spec.total sel [3; 4])
  ∧ (λ r, r.1.1.1) <$> TargetSum.run_target_sum_dfs [1; 2] 1
    = Ok (Spec.number_visits ∅ (map Spec.ts_label (Spec.ts_calls [1; 2] 0 0)))
  ∧ (∀ i s,
       (i, s) ∈ Spec.ts_calls [1; 2] 0 0 →
       0 ≤ i ≤ len [1; 2]
       ∧ ∃ signs, Z.of_nat (length signs) = i
                  ∧ Forall (λ x, x = 1 ∨ x = -1) signs
                  ∧ s = Spec.signed_sum signs [1; 2]).
Proof.
  apply (visited_states_are_choices [2; 3] [3; 4] [1; 2] 4 1). reflexivity.
Defined.

(** ** The values the Knapsack recursion reads *)

Section unvalidated.
Import Visit Shape.

Lemma getitem_take {A} (l : list A) (n : nat) (i : Z) :
  0 ≤ i < Z.of_nat n → (n ≤ length l)%nat →
  getitem (take n l) i = getitem l i.
Proof.
  intros Hi Hn. unfold getitem.
  rewrite !index_in_range by (unfold len; rewrite ?length_take; lia).
  cbn [mbind result_bind bind]. by rewrite lookup_take_lt by lia.
Qed.

(** The recursion reads the values of the items it has, no other. *)
Lemma knapsack_dfs_take (weight value : list Z) (fuel : nat) (i w v : Z)
    (parent_id : option string) (edge_label : string) (st : state) :
  0 ≤ i → (length weight ≤ length value)%nat →
  Knapsack.dfs weight value fuel i w v parent_id edge_label st
  = Knapsack.dfs weight (take (length weight) value) fuel i w v
      parent_id edge_label st.
Proof.
  intros Hi Hlen. revert i w v parent_id edge_label st Hi.
  induction fuel as [|fuel IH]; intros i w v parent_id edge_label st Hi;
    [done|].
  cbn [Knapsack.dfs].
  destruct (visit (Knapsack.base_label i w v) parent_id edge_label st)
    as [u st1].
  case_bool_decide as Hend; [done|].
  rewrite <-IH by lia.
  destruct (Knapsack.dfs weight value fuel (i + 1) w v (Some u) _ st1)
    as [st2| |]; [|done..].
  cbn [mbind result_bind bind].
  destruct (getitem weight i) as [wi| |]; [|done..].
  cbn [mbind result_bind bind].
  case_bool_decide; [|done].
  rewrite getitem_take by (unfold len in Hend; lia).
  destruct (getitem value i) as [vi| |]; [|done..].
  cbn [mbind result_bind bind]. apply IH. lia.
Qed.

Lemma knapsack_dfs_index_error_only (weight value : list Z) (fuel : nat)
    (i w v : Z) (parent_id : option string) (edge_label : string)
    (st : state) :
  0 ≤ i → (Z.to_nat (len weight - i) < fuel)%nat →
  index_error_only
    (Knapsack.dfs weight value fuel i w v parent_id edge_label st).
Proof.
  revert i w v parent_id edge_label st.
  induction fuel as [|fuel IH]; intros i w v parent_id edge_label st Hi Hfuel;
    [lia|].
  cbn [Knapsack.dfs].
  destruct (visit (Knapsack.base_label i w v) parent_id edge_label st)
    as [u st1].
  case_bool_decide as Hend; [left; eauto|].
  apply index_error_only_bind; [apply IH; lia|]. intros st2 _.
  apply index_error_only_bind; [apply getitem_index_error_only|].
  intros wi _. case_bool_decide; [|left; eauto].
  apply index_error_only_bind; [apply getitem_index_error_only|].
  intros wi' _.
  apply index_error_only_bind; [apply getitem_index_error_only|].
  intros vi _. apply IH; lia.
Qed.

(** While no item has been picked, the recursion cannot return once an
    item that fits the capacity has no value. *)
Lemma knapsack_dfs_missing_value (weight value : list Z) (W : Z) (k : nat)
    (wk : Z) (fuel : nat) (i : Z) (parent_id : option string)
    (edge_label : string) (st st' : state) :
  length value = k → weight !! k = Some wk → wk ≤ W →
  0 ≤ i ≤ Z.of_nat k →
  Knapsack.dfs weight value fuel i W 0 parent_id edge_label st = Ok st' →
  False.
Proof.
  intros Hk Hwk Hfit. revert i parent_id edge_label st st'.
  induction fuel as [|fuel IH]; intros i parent_id edge_label st st' Hi;
    [done|].
  cbn [Knapsack.dfs].
  destruct (visit (Knapsack.base_label i W 0) parent_id edge_label st)
    as [u st1].
  apply lookup_lt_Some in Hwk as Hlt.
  rewrite bool_decide_eq_false_2 by (unfold len; lia).
  intros (st2 & Hskip & Hrest)%bind_Ok.
  destruct (decide (i = Z.of_nat k)) as [->|Hne].
  - rewrite (getitem_lookup _ _ _ Hwk) in Hrest.
    cbn [mbind result_bind bind] in Hrest.
    rewrite bool_decide_eq_true_2 in Hrest by lia.
    cbn [mbind result_bind bind] in Hrest.
    apply bind_Ok in Hrest as (vi & Hvi & _).
    apply getitem_nonneg_inv in Hvi; [|lia].
    apply lookup_lt_Some in Hvi. lia.
  - eapply IH; [|done]. lia.
Qed.

End unvalidated.

(** What the check of the lengths guards.  Called on a list of values
    that is at least as long as the list of weights, [run_knapsack_dfs]
    returns, and returns what it returns on the values of the items it has;
    called on a list of values that is too short, it raises [IndexError]
    as soon as the first item without a value fits the capacity. *)
Theorem knapsack_dfs_reads_one_value_per_item (weight value : list Z)
    (W : Z) :
  ((length weight ≤ length value)%nat →
   Knapsack.run_knapsack_dfs weight value W
   = Knapsack.run_knapsack_dfs weight (take (length weight) value) W
   ∧ ∃ trace parent_map,
       Knapsack.run_knapsack_dfs weight value W = Ok (trace, parent_map))
  ∧ (∀ wk, weight !! length value = Some wk → wk ≤ W →
       Knapsack.run_knapsack_dfs weight value W = Raise IndexError).
Proof.
  split.
  - intros Hlen.
    assert (Knapsack.run_knapsack_dfs weight value W
            = Knapsack.run_knapsack_dfs weight (take (length weight) value) W)
      as Heq.
    { unfold Knapsack.run_knapsack_dfs. by rewrite knapsack_dfs_take. }
    split; [done|]. rewrite Heq.
    destruct (run_knapsack_dfs_calls weight (take (length weight) value) W)
      as (st & _ & Hrun & _); [rewrite length_take; lia|].
    eauto.
  - intros wk Hwk Hfit. unfold Knapsack.run_knapsack_dfs.
    destruct (knapsack_dfs_index_error_only weight value (S (length weight))
                0 W 0 None "" Visit.init) as [[st Hst]|Hraise];
      [lia|unfold len; lia| |by rewrite Hraise].
    exfalso.
    eapply (knapsack_dfs_missing_value weight value W (length value) wk);
      [done|done|done| |done]. lia.
Qed.

Lemma knapsack_dfs_reads_one_value_per_item_witness :
  (Knapsack.run_knapsack_dfs [2; 3] [3; 4; 9] 5
   = Knapsack.run_knapsack_dfs [2; 3] (take (length [2; 3]) [3; 4; 9]) 5
   ∧ ∃ trace parent_map,
       Knapsack.run_knapsack_dfs [2; 3] [3; 4; 9] 5 = Ok (trace, parent_map))
  ∧ Knapsack.run_knapsack_dfs [2; 3] [3] 5 = Raise IndexError.
Proof.
  split.
  - apply (knapsack_dfs_reads_one_value_per_item [2; 3] [3; 4; 9] 5).
    simpl. lia.
  - apply (knapsack_dfs_reads_one_value_per_item [2; 3] [3] 5) with (wk := 3).
    + reflexivity.
    + lia.
Defined.
